(** * laboratorioDAMD: service registry, circuit breaker and gateway aggregation

    A shallow embedding of [services/shared/serviceRegistry.js] and of the
    API gateway (circuit breaker, proxy resolution, dashboard and search
    aggregations), with the properties of their specification.

    Conventions of the embedding:
    - [Date.now()] is an input of every operation that reads the clock
      (a [Z], milliseconds since the epoch);
    - a JS object used as a dictionary ([breakers], [memory.services],
      [FALLBACKS], [meta]) is a [gmap string _] of its own properties
      (no service is named after a property every object inherits, such
      as [constructor]);
    - a numeric field that the code guards with [x || 0] or [x || null] is
      an [option Z], [None] standing for an absent ([undefined] or [null])
      value;
    - the outcome of an I/O call (HTTP request, file read or write) is an
      input of the operation that awaits it;
    - an [async] function is run to completion: calls of other handlers
      are not interleaved at its [await]s;
    - a string is the UTF-8 encoding of the JavaScript string. *)

From Stdlib Require Import ZArith Ascii String.
From stdpp Require Import gmap strings list fin_maps.

Local Open Scope Z_scope.
Local Set Warnings "-register-all".

(** * Part I: the programs *)

(** ** JavaScript values and idioms shared by the two programs *)

(** [x || 0] where [x] is a number or absent: [0 || 0] is [0]. *)
Definition or_zero (x : option Z) : Z :=
  match x with
  | Some v => v
  | None => 0
  end.

(** [x || null] where [x] is a number or absent: the falsy number [0]
    becomes [null]. *)
Definition or_null (x : option Z) : option Z :=
  match x with
  | Some 0 => None
  | Some v => Some v
  | None => None
  end.

(** A parsed JSON value. Numbers are integers: the operations below only
    observe whether a number is zero. [fields] lists an object's own
    properties, one entry per key. *)
Inductive Json : Type :=
| JNull
| JBool (b : bool)
| JNum (z : Z)
| JStr (s : string)
| JArr (items : list Json)
| JObj (fields : list (string * Json)).

(** JavaScript truthiness: [null], [false], [0] and the empty string are
    falsy, every array and object is truthy. *)
Definition truthy (v : Json) : bool :=
  match v with
  | JNull => false
  | JBool b => b
  | JNum z => negb (z =? 0)
  | JStr s => negb (String.eqb s "")
  | JArr _ | JObj _ => true
  end.

Fixpoint assoc (f : string) (fields : list (string * Json)) : option Json :=
  match fields with
  | [] => None
  | (k, v) :: rest => if String.eqb k f then Some v else assoc f rest
  end.

(** The property read [v.f] for [f] one of [status], [service], [data],
    [name]: [None] is [undefined]. No value but an object has such a
    property. (On [null] the read throws; callers treat that case.) *)
Definition prop (f : string) (v : Json) : option Json :=
  match v with
  | JObj fields => assoc f fields
  | _ => None
  end.

(** Truthiness of a value that may be [undefined]. *)
Definition truthy_opt (v : option Json) : bool :=
  match v with
  | Some x => truthy x
  | None => false
  end.

(** ** Strings

    A [string] holds the UTF-8 encoding of a JavaScript string, one
    [ascii] per byte. Equality, [startsWith], [includes] and [slice]
    after an ASCII prefix agree on the encoding with what they compute
    on the string. [trim] and [toLowerCase] work on characters: they
    read the bytes as code points, one UTF-8 sequence at a time. *)

Definition byte_value (c : ascii) : Z := Z.of_N (N_of_ascii c).
Definition of_byte (z : Z) : ascii := ascii_of_N (Z.to_N z).

(** A continuation byte, [10xxxxxx]. *)
Definition is_cont (c : ascii) : bool :=
  (128 <=? byte_value c) && (byte_value c <? 192).

(** The number of continuation bytes the first byte of a sequence
    announces. *)
Definition trail (c : ascii) : nat :=
  let b := byte_value c in
  if b <? 192 then 0
  else if b <? 224 then 1
  else if b <? 240 then 2
  else if b <? 248 then 3
  else 0.

(** The continuation bytes a list of bytes starts with. *)
Fixpoint conts (l : list ascii) : list ascii :=
  match l with
  | [] => []
  | c :: rest => if is_cont c then c :: conts rest else []
  end.

(** The bytes after [c] supply the continuation bytes it announces. *)
Definition complete (c : ascii) (rest : list ascii) : bool :=
  (trail c <=? length (conts rest))%nat.

(** The characters of a byte string, each with the bytes of its
    sequence; a byte that starts no complete sequence stands alone.
    [skip] counts the bytes already taken into the character before. *)
Fixpoint chars_from (skip : nat) (l : list ascii) : list (list ascii) :=
  match l with
  | [] => []
  | c :: rest =>
      match skip with
      | S k => chars_from k rest
      | O =>
          if complete c rest
          then (c :: take (trail c) rest) :: chars_from (trail c) rest
          else [c] :: chars_from 0 rest
      end
  end.

Definition chars (l : list ascii) : list (list ascii) := chars_from 0 l.

(** A first byte followed by exactly the continuation bytes it
    announces. *)
Definition well_formed (ch : list ascii) : bool :=
  match ch with
  | [] => false
  | a :: t => negb (is_cont a) && (length t =? trail a)%nat && forallb is_cont t
  end.

(** The code point a character encodes: [None] for a stray byte, an
    overlong sequence, a surrogate or a value beyond U+10FFFF. *)
Definition code_point (ch : list ascii) : option Z :=
  let v c := byte_value c - 128 in
  if well_formed ch then
    match ch with
    | [a] => if byte_value a <? 128 then Some (byte_value a) else None
    | [a; b] =>
        let z := (byte_value a - 192) * 64 + v b in
        if 128 <=? z then Some z else None
    | [a; b; c] =>
        let z := (byte_value a - 224) * 4096 + v b * 64 + v c in
        if (2048 <=? z) && negb ((55296 <=? z) && (z <=? 57343)) then Some z else None
    | [a; b; c; d] =>
        let z := (byte_value a - 240) * 262144 + v b * 4096 + v c * 64 + v d in
        if (65536 <=? z) && (z <=? 1114111) then Some z else None
    | _ => None
    end
  else None.

(** The UTF-8 sequence of a code point. *)
Definition utf8 (z : Z) : list ascii :=
  if z <? 128 then [of_byte z]
  else if z <? 2048 then [of_byte (192 + z / 64); of_byte (128 + z mod 64)]
  else if z <? 65536 then
    [of_byte (224 + z / 4096); of_byte (128 + (z / 64) mod 64); of_byte (128 + z mod 64)]
  else
    [of_byte (240 + z / 262144); of_byte (128 + (z / 4096) mod 64);
     of_byte (128 + (z / 64) mod 64); of_byte (128 + z mod 64)].

(** *** Unicode data (version 14.0)

    The lower-case mappings of [UnicodeData.txt], as ranges
    [(first, last, step, delta)]: every [step]-th code point from
    [first] to [last] maps to itself plus [delta]. *)
Definition lower_ranges : list (Z * Z * Z * Z) := [
  (65, 90, 1, 32); (192, 214, 1, 32); (216, 222, 1, 32); (256, 302, 2, 1);
  (306, 310, 2, 1); (313, 327, 2, 1); (330, 374, 2, 1); (376, 376, 1, -121);
  (377, 381, 2, 1); (385, 385, 1, 210); (386, 388, 2, 1); (390, 390, 1, 206);
  (391, 391, 1, 1); (393, 394, 1, 205); (395, 395, 1, 1); (398, 398, 1, 79);
  (399, 399, 1, 202); (400, 400, 1, 203); (401, 401, 1, 1);
  (403, 403, 1, 205); (404, 404, 1, 207); (406, 406, 1, 211);
  (407, 407, 1, 209); (408, 408, 1, 1); (412, 412, 1, 211);
  (413, 413, 1, 213); (415, 415, 1, 214); (416, 420, 2, 1);
  (422, 422, 1, 218); (423, 423, 1, 1); (425, 425, 1, 218); (428, 428, 1, 1);
  (430, 430, 1, 218); (431, 431, 1, 1); (433, 434, 1, 217); (435, 437, 2, 1);
  (439, 439, 1, 219); (440, 440, 1, 1); (444, 444, 1, 1); (452, 452, 1, 2);
  (453, 453, 1, 1); (455, 455, 1, 2); (456, 456, 1, 1); (458, 458, 1, 2);
  (459, 475, 2, 1); (478, 494, 2, 1); (497, 497, 1, 2); (498, 500, 2, 1);
  (502, 502, 1, -97); (503, 503, 1, -56); (504, 542, 2, 1);
  (544, 544, 1, -130); (546, 562, 2, 1); (570, 570, 1, 10795);
  (571, 571, 1, 1); (573, 573, 1, -163); (574, 574, 1, 10792);
  (577, 577, 1, 1); (579, 579, 1, -195); (580, 580, 1, 69);
  (581, 581, 1, 71); (582, 590, 2, 1); (880, 882, 2, 1); (886, 886, 1, 1);
  (895, 895, 1, 116); (902, 902, 1, 38); (904, 906, 1, 37);
  (908, 908, 1, 64); (910, 911, 1, 63); (913, 929, 1, 32); (931, 939, 1, 32);
  (975, 975, 1, 8); (984, 1006, 2, 1); (1012, 1012, 1, -60);
  (1015, 1015, 1, 1); (1017, 1017, 1, -7); (1018, 1018, 1, 1);
  (1021, 1023, 1, -130); (1024, 1039, 1, 80); (1040, 1071, 1, 32);
  (1120, 1152, 2, 1); (1162, 1214, 2, 1); (1216, 1216, 1, 15);
  (1217, 1229, 2, 1); (1232, 1326, 2, 1); (1329, 1366, 1, 48);
  (4256, 4293, 1, 7264); (4295, 4295, 1, 7264); (4301, 4301, 1, 7264);
  (5024, 5103, 1, 38864); (5104, 5109, 1, 8); (7312, 7354, 1, -3008);
  (7357, 7359, 1, -3008); (7680, 7828, 2, 1); (7838, 7838, 1, -7615);
  (7840, 7934, 2, 1); (7944, 7951, 1, -8); (7960, 7965, 1, -8);
  (7976, 7983, 1, -8); (7992, 7999, 1, -8); (8008, 8013, 1, -8);
  (8025, 8031, 2, -8); (8040, 8047, 1, -8); (8072, 8079, 1, -8);
  (8088, 8095, 1, -8); (8104, 8111, 1, -8); (8120, 8121, 1, -8);
  (8122, 8123, 1, -74); (8124, 8124, 1, -9); (8136, 8139, 1, -86);
  (8140, 8140, 1, -9); (8152, 8153, 1, -8); (8154, 8155, 1, -100);
  (8168, 8169, 1, -8); (8170, 8171, 1, -112); (8172, 8172, 1, -7);
  (8184, 8185, 1, -128); (8186, 8187, 1, -126); (8188, 8188, 1, -9);
  (8486, 8486, 1, -7517); (8490, 8490, 1, -8383); (8491, 8491, 1, -8262);
  (8498, 8498, 1, 28); (8544, 8559, 1, 16); (8579, 8579, 1, 1);
  (9398, 9423, 1, 26); (11264, 11311, 1, 48); (11360, 11360, 1, 1);
  (11362, 11362, 1, -10743); (11363, 11363, 1, -3814);
  (11364, 11364, 1, -10727); (11367, 11371, 2, 1); (11373, 11373, 1, -10780);
  (11374, 11374, 1, -10749); (11375, 11375, 1, -10783);
  (11376, 11376, 1, -10782); (11378, 11378, 1, 1); (11381, 11381, 1, 1);
  (11390, 11391, 1, -10815); (11392, 11490, 2, 1); (11499, 11501, 2, 1);
  (11506, 11506, 1, 1); (42560, 42604, 2, 1); (42624, 42650, 2, 1);
  (42786, 42798, 2, 1); (42802, 42862, 2, 1); (42873, 42875, 2, 1);
  (42877, 42877, 1, -35332); (42878, 42886, 2, 1); (42891, 42891, 1, 1);
  (42893, 42893, 1, -42280); (42896, 42898, 2, 1); (42902, 42920, 2, 1);
  (42922, 42922, 1, -42308); (42923, 42923, 1, -42319);
  (42924, 42924, 1, -42315); (42925, 42925, 1, -42305);
  (42926, 42926, 1, -42308); (42928, 42928, 1, -42258);
  (42929, 42929, 1, -42282); (42930, 42930, 1, -42261);
  (42931, 42931, 1, 928); (42932, 42946, 2, 1); (42948, 42948, 1, -48);
  (42949, 42949, 1, -42307); (42950, 42950, 1, -35384); (42951, 42953, 2, 1);
  (42960, 42960, 1, 1); (42966, 42968, 2, 1); (42997, 42997, 1, 1);
  (65313, 65338, 1, 32); (66560, 66599, 1, 40); (66736, 66771, 1, 40);
  (66928, 66938, 1, 39); (66940, 66954, 1, 39); (66956, 66962, 1, 39);
  (66964, 66965, 1, 39); (68736, 68786, 1, 64); (71840, 71871, 1, 32);
  (93760, 93791, 1, 32); (125184, 125217, 1, 34)
].

Definition expand (r : Z * Z * Z * Z) : list (Z * list Z) :=
  let '(first, last, step, delta) := r in
  (fun i => let z := first + step * Z.of_nat i in (z, [z + delta]))
    <$> seq 0 (S (Z.to_nat ((last - first) / step))).

(** The mappings one by one, with the one mapping of [SpecialCasing.txt]
    that holds in every context and language: U+0130 becomes [i] followed
    by a combining dot. *)
Definition lower_table : list (Z * list Z) :=
  Eval vm_compute in (304, [105; 775]) :: concat (expand <$> lower_ranges).

Fixpoint lookup_cp (z : Z) (table : list (Z * list Z)) : option (list Z) :=
  match table with
  | [] => None
  | (k, v) :: rest => if z =? k then Some v else lookup_cp z rest
  end.

(** The lower-case mapping of a code point, [None] when it maps to
    itself. *)
Definition lower_cp (z : Z) : option (list Z) :=
  if z <? 128
  then (if (65 <=? z) && (z <=? 90) then Some [z + 32] else None)
  else lookup_cp z lower_table.

(** The code points with the property [Cased] that are not
    [Case_Ignorable], and those that are [Case_Ignorable]
    ([DerivedCoreProperties.txt]), as ranges [(first, last)]. *)
Definition cased_ranges : list (Z * Z) := [
  (65, 90); (97, 122); (170, 170); (181, 181); (186, 186); (192, 214);
  (216, 246); (248, 442); (444, 447); (452, 659); (661, 687); (880, 883);
  (886, 887); (891, 893); (895, 895); (902, 902); (904, 906); (908, 908);
  (910, 929); (931, 1013); (1015, 1153); (1162, 1327); (1329, 1366);
  (1376, 1416); (4256, 4293); (4295, 4295); (4301, 4301); (4304, 4346);
  (4349, 4351); (5024, 5109); (5112, 5117); (7296, 7304); (7312, 7354);
  (7357, 7359); (7424, 7467); (7531, 7543); (7545, 7578); (7680, 7957);
  (7960, 7965); (7968, 8005); (8008, 8013); (8016, 8023); (8025, 8025);
  (8027, 8027); (8029, 8029); (8031, 8061); (8064, 8116); (8118, 8124);
  (8126, 8126); (8130, 8132); (8134, 8140); (8144, 8147); (8150, 8155);
  (8160, 8172); (8178, 8180); (8182, 8188); (8450, 8450); (8455, 8455);
  (8458, 8467); (8469, 8469); (8473, 8477); (8484, 8484); (8486, 8486);
  (8488, 8488); (8490, 8493); (8495, 8500); (8505, 8505); (8508, 8511);
  (8517, 8521); (8526, 8526); (8544, 8575); (8579, 8580); (9398, 9449);
  (11264, 11387); (11390, 11492); (11499, 11502); (11506, 11507);
  (11520, 11557); (11559, 11559); (11565, 11565); (42560, 42605);
  (42624, 42651); (42786, 42863); (42865, 42887); (42891, 42894);
  (42896, 42954); (42960, 42961); (42963, 42963); (42965, 42969);
  (42997, 42998); (43002, 43002); (43824, 43866); (43872, 43880);
  (43888, 43967); (64256, 64262); (64275, 64279); (65313, 65338);
  (65345, 65370); (66560, 66639); (66736, 66771); (66776, 66811);
  (66928, 66938); (66940, 66954); (66956, 66962); (66964, 66965);
  (66967, 66977); (66979, 66993); (66995, 67001); (67003, 67004);
  (68736, 68786); (68800, 68850); (71840, 71903); (93760, 93823);
  (119808, 119892); (119894, 119964); (119966, 119967); (119970, 119970);
  (119973, 119974); (119977, 119980); (119982, 119993); (119995, 119995);
  (119997, 120003); (120005, 120069); (120071, 120074); (120077, 120084);
  (120086, 120092); (120094, 120121); (120123, 120126); (120128, 120132);
  (120134, 120134); (120138, 120144); (120146, 120485); (120488, 120512);
  (120514, 120538); (120540, 120570); (120572, 120596); (120598, 120628);
  (120630, 120654); (120656, 120686); (120688, 120712); (120714, 120744);
  (120746, 120770); (120772, 120779); (122624, 122633); (122635, 122654);
  (125184, 125251); (127280, 127305); (127312, 127337); (127344, 127369)
].

Definition ignorable_ranges : list (Z * Z) := [
  (39, 39); (46, 46); (58, 58); (94, 94); (96, 96); (168, 168); (173, 173);
  (175, 175); (180, 180); (183, 184); (688, 879); (884, 885); (890, 890);
  (900, 901); (903, 903); (1155, 1161); (1369, 1369); (1375, 1375);
  (1425, 1469); (1471, 1471); (1473, 1474); (1476, 1477); (1479, 1479);
  (1524, 1524); (1536, 1541); (1552, 1562); (1564, 1564); (1600, 1600);
  (1611, 1631); (1648, 1648); (1750, 1757); (1759, 1768); (1770, 1773);
  (1807, 1807); (1809, 1809); (1840, 1866); (1958, 1968); (2027, 2037);
  (2042, 2042); (2045, 2045); (2070, 2093); (2137, 2139); (2184, 2184);
  (2192, 2193); (2200, 2207); (2249, 2306); (2362, 2362); (2364, 2364);
  (2369, 2376); (2381, 2381); (2385, 2391); (2402, 2403); (2417, 2417);
  (2433, 2433); (2492, 2492); (2497, 2500); (2509, 2509); (2530, 2531);
  (2558, 2558); (2561, 2562); (2620, 2620); (2625, 2626); (2631, 2632);
  (2635, 2637); (2641, 2641); (2672, 2673); (2677, 2677); (2689, 2690);
  (2748, 2748); (2753, 2757); (2759, 2760); (2765, 2765); (2786, 2787);
  (2810, 2815); (2817, 2817); (2876, 2876); (2879, 2879); (2881, 2884);
  (2893, 2893); (2901, 2902); (2914, 2915); (2946, 2946); (3008, 3008);
  (3021, 3021); (3072, 3072); (3076, 3076); (3132, 3132); (3134, 3136);
  (3142, 3144); (3146, 3149); (3157, 3158); (3170, 3171); (3201, 3201);
  (3260, 3260); (3263, 3263); (3270, 3270); (3276, 3277); (3298, 3299);
  (3328, 3329); (3387, 3388); (3393, 3396); (3405, 3405); (3426, 3427);
  (3457, 3457); (3530, 3530); (3538, 3540); (3542, 3542); (3633, 3633);
  (3636, 3642); (3654, 3662); (3761, 3761); (3764, 3772); (3782, 3782);
  (3784, 3789); (3864, 3865); (3893, 3893); (3895, 3895); (3897, 3897);
  (3953, 3966); (3968, 3972); (3974, 3975); (3981, 3991); (3993, 4028);
  (4038, 4038); (4141, 4144); (4146, 4151); (4153, 4154); (4157, 4158);
  (4184, 4185); (4190, 4192); (4209, 4212); (4226, 4226); (4229, 4230);
  (4237, 4237); (4253, 4253); (4348, 4348); (4957, 4959); (5906, 5908);
  (5938, 5939); (5970, 5971); (6002, 6003); (6068, 6069); (6071, 6077);
  (6086, 6086); (6089, 6099); (6103, 6103); (6109, 6109); (6155, 6159);
  (6211, 6211); (6277, 6278); (6313, 6313); (6432, 6434); (6439, 6440);
  (6450, 6450); (6457, 6459); (6679, 6680); (6683, 6683); (6742, 6742);
  (6744, 6750); (6752, 6752); (6754, 6754); (6757, 6764); (6771, 6780);
  (6783, 6783); (6823, 6823); (6832, 6862); (6912, 6915); (6964, 6964);
  (6966, 6970); (6972, 6972); (6978, 6978); (7019, 7027); (7040, 7041);
  (7074, 7077); (7080, 7081); (7083, 7085); (7142, 7142); (7144, 7145);
  (7149, 7149); (7151, 7153); (7212, 7219); (7222, 7223); (7288, 7293);
  (7376, 7378); (7380, 7392); (7394, 7400); (7405, 7405); (7412, 7412);
  (7416, 7417); (7468, 7530); (7544, 7544); (7579, 7679); (8125, 8125);
  (8127, 8129); (8141, 8143); (8157, 8159); (8173, 8175); (8189, 8190);
  (8203, 8207); (8216, 8217); (8228, 8228); (8231, 8231); (8234, 8238);
  (8288, 8292); (8294, 8303); (8305, 8305); (8319, 8319); (8336, 8348);
  (8400, 8432); (11388, 11389); (11503, 11505); (11631, 11631);
  (11647, 11647); (11744, 11775); (11823, 11823); (12293, 12293);
  (12330, 12333); (12337, 12341); (12347, 12347); (12441, 12446);
  (12540, 12542); (40981, 40981); (42232, 42237); (42508, 42508);
  (42607, 42610); (42612, 42621); (42623, 42623); (42652, 42655);
  (42736, 42737); (42752, 42785); (42864, 42864); (42888, 42890);
  (42994, 42996); (43000, 43001); (43010, 43010); (43014, 43014);
  (43019, 43019); (43045, 43046); (43052, 43052); (43204, 43205);
  (43232, 43249); (43263, 43263); (43302, 43309); (43335, 43345);
  (43392, 43394); (43443, 43443); (43446, 43449); (43452, 43453);
  (43471, 43471); (43493, 43494); (43561, 43566); (43569, 43570);
  (43573, 43574); (43587, 43587); (43596, 43596); (43632, 43632);
  (43644, 43644); (43696, 43696); (43698, 43700); (43703, 43704);
  (43710, 43711); (43713, 43713); (43741, 43741); (43756, 43757);
  (43763, 43764); (43766, 43766); (43867, 43871); (43881, 43883);
  (44005, 44005); (44008, 44008); (44013, 44013); (64286, 64286);
  (64434, 64450); (65024, 65039); (65043, 65043); (65056, 65071);
  (65106, 65106); (65109, 65109); (65279, 65279); (65287, 65287);
  (65294, 65294); (65306, 65306); (65342, 65342); (65344, 65344);
  (65392, 65392); (65438, 65439); (65507, 65507); (65529, 65531);
  (66045, 66045); (66272, 66272); (66422, 66426); (67456, 67461);
  (67463, 67504); (67506, 67514); (68097, 68099); (68101, 68102);
  (68108, 68111); (68152, 68154); (68159, 68159); (68325, 68326);
  (68900, 68903); (69291, 69292); (69446, 69456); (69506, 69509);
  (69633, 69633); (69688, 69702); (69744, 69744); (69747, 69748);
  (69759, 69761); (69811, 69814); (69817, 69818); (69821, 69821);
  (69826, 69826); (69837, 69837); (69888, 69890); (69927, 69931);
  (69933, 69940); (70003, 70003); (70016, 70017); (70070, 70078);
  (70089, 70092); (70095, 70095); (70191, 70193); (70196, 70196);
  (70198, 70199); (70206, 70206); (70367, 70367); (70371, 70378);
  (70400, 70401); (70459, 70460); (70464, 70464); (70502, 70508);
  (70512, 70516); (70712, 70719); (70722, 70724); (70726, 70726);
  (70750, 70750); (70835, 70840); (70842, 70842); (70847, 70848);
  (70850, 70851); (71090, 71093); (71100, 71101); (71103, 71104);
  (71132, 71133); (71219, 71226); (71229, 71229); (71231, 71232);
  (71339, 71339); (71341, 71341); (71344, 71349); (71351, 71351);
  (71453, 71455); (71458, 71461); (71463, 71467); (71727, 71735);
  (71737, 71738); (71995, 71996); (71998, 71998); (72003, 72003);
  (72148, 72151); (72154, 72155); (72160, 72160); (72193, 72202);
  (72243, 72248); (72251, 72254); (72263, 72263); (72273, 72278);
  (72281, 72283); (72330, 72342); (72344, 72345); (72752, 72758);
  (72760, 72765); (72767, 72767); (72850, 72871); (72874, 72880);
  (72882, 72883); (72885, 72886); (73009, 73014); (73018, 73018);
  (73020, 73021); (73023, 73029); (73031, 73031); (73104, 73105);
  (73109, 73109); (73111, 73111); (73459, 73460); (78896, 78904);
  (92912, 92916); (92976, 92982); (92992, 92995); (94031, 94031);
  (94095, 94111); (94176, 94177); (94179, 94180); (110576, 110579);
  (110581, 110587); (110589, 110590); (113821, 113822); (113824, 113827);
  (118528, 118573); (118576, 118598); (119143, 119145); (119155, 119170);
  (119173, 119179); (119210, 119213); (119362, 119364); (121344, 121398);
  (121403, 121452); (121461, 121461); (121476, 121476); (121499, 121503);
  (121505, 121519); (122880, 122886); (122888, 122904); (122907, 122913);
  (122915, 122916); (122918, 122922); (123184, 123197); (123566, 123566);
  (123628, 123631); (125136, 125142); (125252, 125259); (127995, 127999);
  (917505, 917505); (917536, 917631); (917760, 917999)
].

Definition in_ranges (z : Z) (ranges : list (Z * Z)) : bool :=
  existsb (fun r => (r.1 <=? z) && (z <=? r.2)) ranges.

(** The white space and line terminators of ECMAScript, which
    [String.prototype.trim] removes: TAB, LF, VT, FF, CR, SP, NBSP,
    U+1680, U+2000 to U+200A, LS, PS, U+202F, U+205F, U+3000 and the
    byte-order mark U+FEFF. *)
Definition white_space : list Z :=
  [9; 10; 11; 12; 13; 32; 160; 5760; 8192; 8193; 8194; 8195; 8196; 8197; 8198;
   8199; 8200; 8201; 8202; 8232; 8233; 8239; 8287; 12288; 65279].

Definition js_space (ch : list ascii) : bool :=
  match code_point ch with
  | Some z => existsb (Z.eqb z) white_space
  | None => false
  end.

Fixpoint drop_spaces (l : list (list ascii)) : list (list ascii) :=
  match l with
  | [] => []
  | ch :: rest => if js_space ch then drop_spaces rest else l
  end.

Definition trim_chars (l : list (list ascii)) : list (list ascii) :=
  reverse (drop_spaces (reverse (drop_spaces l))).

(** [s.trim()]. *)
Definition trim (s : string) : string :=
  string_of_list_ascii (concat (trim_chars (chars (list_ascii_of_string s)))).

(** The lower case of one character, whatever its context. *)
Definition lower_char (ch : list ascii) : list (list ascii) :=
  match code_point ch ≫= lower_cp with
  | Some outs => utf8 <$> outs
  | None => [ch]
  end.

Definition cased (ch : list ascii) : bool :=
  match code_point ch with
  | Some z => in_ranges z cased_ranges
  | None => false
  end.

Definition ignorable (ch : list ascii) : bool :=
  match code_point ch with
  | Some z => in_ranges z ignorable_ranges
  | None => false
  end.

(** The capital sigma, U+03A3, whose lower case depends on its context. *)
Definition is_sigma (ch : list ascii) : bool :=
  match code_point ch with
  | Some z => z =? 931
  | None => false
  end.

(** A cased letter follows, after case-ignorable characters only. *)
Fixpoint followed_by_cased (l : list (list ascii)) : bool :=
  match l with
  | [] => false
  | ch :: rest => if ignorable ch then followed_by_cased rest else cased ch
  end.

(** The lower case of a sequence of characters. [after_cased] tells
    that a cased letter precedes, with case-ignorable characters only in
    between: a capital sigma then becomes the final sigma U+03C2 unless a
    cased letter follows (the condition [Final_Sigma]). *)
Fixpoint lower_chars (after_cased : bool) (l : list (list ascii)) : list (list ascii) :=
  match l with
  | [] => []
  | ch :: rest =>
      (if is_sigma ch && after_cased && negb (followed_by_cased rest)
       then [utf8 962]
       else lower_char ch)
      ++ lower_chars (if ignorable ch then after_cased else cased ch) rest
  end.

(** [s.toLowerCase()]. *)
Definition toLowerCase (s : string) : string :=
  string_of_list_ascii (concat (lower_chars false (chars (list_ascii_of_string s)))).

Fixpoint is_prefix (p s : list ascii) : bool :=
  match p, s with
  | [], _ => true
  | _ :: _, [] => false
  | a :: p', b :: s' => if Ascii.eqb a b then is_prefix p' s' else false
  end.

Fixpoint has_infix (p s : list ascii) : bool :=
  is_prefix p s ||
  match s with
  | [] => false
  | _ :: s' => has_infix p s'
  end.

(** [s.startsWith(p)] and [s.includes(p)]. *)
Definition startsWith (p s : string) : bool :=
  is_prefix (list_ascii_of_string p) (list_ascii_of_string s).

Definition includes (p s : string) : bool :=
  has_infix (list_ascii_of_string p) (list_ascii_of_string s).

(** What awaiting a promise gives: its value, or a rejection (a thrown
    error). *)
Inductive Outcome (A : Type) : Type :=
| Returned (a : A)
| Rejected.
Arguments Returned {A} a.
Arguments Rejected {A}.

(** ** The service registry ([services/shared/serviceRegistry.js]) *)

Module Registry.

Definition CHECK_INTERVAL_MS : Z := 30000.
Definition FAIL_OPEN_AFTER : Z := 3.
Definition INSTANCE_TTL_MS : Z := 5 * 60000.

(** One instance record: [{ url, healthy, fails, lastSeen, lastOk, meta }]. *)
Record Instance : Type := mkInstance {
  url : string;
  healthy : bool;
  fails : option Z;
  lastSeen : option Z;
  lastOk : option Z;
  meta : gmap string Json
}.

(** [memory.services]: service key to its instances, in insertion order.
    ([memory.updatedAt], which no operation reads, is not modelled.) *)
Abbreviation Services := (gmap string (list Instance)).

(** The registry file: absent, or holding JSON that has a [services]
    table ([Some]) or lacks one ([None]). *)
Inductive DiskFile : Type :=
| NoFile
| File (content : option Services).

Inductive LogLine : Type :=
| WarnLoad
| WarnHealthLoop.

(** The module's state: the [memory] variable, the file at
    [REGISTRY_PATH], and the warnings written to the console. *)
Record State : Type := mkState {
  memory : Services;
  disk : DiskFile;
  log : list LogLine
}.

(** How the file system answers one [load]: whether reading the file
    succeeds, and whether the write that creates a missing file does. *)
Record LoadIO : Type := mkLoadIO {
  read_ok : bool;
  init_write_ok : bool
}.

Definition warn (w : LogLine) (st : State) : State :=
  {| memory := memory st; disk := disk st; log := log st ++ [w] |}.

(** [persist()]: writes [memory] to the file; [write_ok] says whether
    [fs.outputJson] succeeds. A failed write leaves the file as it was
    and rejects. *)
Definition persist (write_ok : bool) (st : State) : Outcome unit * State :=
  if write_ok
  then (Returned (), {| memory := memory st; disk := File (Some (memory st)); log := log st |})
  else (Rejected, st).

(** [load()]: replaces [memory] by the file's content when the file
    exists, parses and has a [services] table; creates the file when it
    is missing; any error is caught and logged with [console.warn]. *)
Definition load (io : LoadIO) (st : State) : State :=
  match disk st with
  | File content =>
      if read_ok io then
        match content with
        | Some svcs => {| memory := svcs; disk := disk st; log := log st |}
        | None => st
        end
      else warn WarnLoad st
  | NoFile =>
      match persist (init_write_ok io) st with
      | (Returned _, st') => st'
      | (Rejected, st') => warn WarnLoad st'
      end
  end.

(** [key(name)]: [String(name || '').trim().toLowerCase()]. *)
Definition key (name : string) : string := toLowerCase (trim name).

(** The list that [getList(name)] returns. *)
Definition instances (name : string) (svcs : Services) : list Instance :=
  default [] (svcs !! key name).

(** [getList(name)]: [memory.services[k] ||= []] creates the empty list of
    a service seen for the first time; the list returned is the one
    stored in the table. *)
Definition getList (name : string) (svcs : Services) : list Instance * Services :=
  match svcs !! key name with
  | Some l => (l, svcs)
  | None => ([], <[key name := []]> svcs)
  end.

(** [list.findIndex(i => i.url === url)]: [None] is [-1]. *)
Fixpoint findIndex (u : string) (l : list Instance) : option nat :=
  match l with
  | [] => None
  | i :: rest => if String.eqb (url i) u then Some 0%nat else S <$> findIndex u rest
  end.

(** The heartbeat update of a known instance:
    [{ ...old, healthy: true, fails: 0, lastSeen: now, lastOk: now,
       meta: { ...old.meta, ...meta } }]. *)
Definition heartbeat (now : Z) (m : gmap string Json) (old : Instance) : Instance :=
  {| url := url old; healthy := true; fails := Some 0;
     lastSeen := Some now; lastOk := Some now; meta := m ∪ meta old |}.

Definition fresh (u : string) (now : Z) (m : gmap string Json) : Instance :=
  {| url := u; healthy := true; fails := Some 0;
     lastSeen := Some now; lastOk := Some now; meta := m |}.

(** The body of [register] between [load] and [persist], on the list of
    the service. *)
Definition upsert (u : string) (now : Z) (m : gmap string Json) (l : list Instance)
  : list Instance :=
  match findIndex u l with
  | Some idx => alter (heartbeat now m) idx l
  | None => l ++ [fresh u now m]
  end.

(** [register(name, url, meta)]: the list is updated in place inside
    [memory]; the final [persist] is awaited outside any [try], so its
    rejection is the rejection of [register]. *)
Definition register (name u : string) (m : gmap string Json) (now : Z)
    (io : LoadIO) (write_ok : bool) (st : State) : Outcome bool * State :=
  let st1 := load io st in
  let l := (getList name (memory st1)).1 in
  let st2 := {| memory := <[key name := upsert u now m l]> (memory st1);
                disk := disk st1; log := log st1 |} in
  match persist write_ok st2 with
  | (Returned _, st3) => (Returned true, st3)
  | (Rejected, st3) => (Rejected, st3)
  end.

(** [deregister(name, url)]. *)
Definition deregister (name u : string) (io : LoadIO) (write_ok : bool) (st : State)
  : Outcome bool * State :=
  let st1 := load io st in
  let l := (getList name (memory st1)).1 in
  let next := filter (fun i => url i ≠ u) l in
  let st2 := {| memory := <[key name := next]> (memory st1);
                disk := disk st1; log := log st1 |} in
  match persist write_ok st2 with
  | (Returned _, st3) => (Returned true, st3)
  | (Rejected, st3) => (Rejected, st3)
  end.

(** The comparator of [lookup]: [(a.lastOk || 0) - (b.lastOk || 0)]. *)
Definition compare_lastOk (a b : Instance) : Z :=
  or_zero (lastOk a) - or_zero (lastOk b).

(** [Array.prototype.sort] is a stable sort: under a consistent
    comparator its result is the one an insertion sort computes, each
    element going in front of the first element that does not precede it. *)
Fixpoint sort_insert (x : Instance) (l : list Instance) : list Instance :=
  match l with
  | [] => [x]
  | y :: rest => if compare_lastOk x y <=? 0 then x :: l else y :: sort_insert x rest
  end.

Fixpoint sort (l : list Instance) : list Instance :=
  match l with
  | [] => []
  | x :: rest => sort_insert x (sort rest)
  end.

(** The body of [lookup] after [getList]: [None] is [null]. *)
Definition pick (l : list Instance) : option string :=
  match sort (filter (fun i => healthy i = true) l) with
  | [] => None
  | first :: _ => Some (url first)
  end.

(** [lookup(name)]: nothing is persisted. *)
Definition lookup (name : string) (io : LoadIO) (st : State) : option string * State :=
  let st1 := load io st in
  let '(l, svcs) := getList name (memory st1) in
  (pick l, {| memory := svcs; disk := disk st1; log := log st1 |}).

(** [dump()]. *)
Definition dump (io : LoadIO) (st : State) : Services * State :=
  let st1 := load io st in (memory st1, st1).

(** What [axios.get(url + '/health', { timeout: 3000 })] gives: a
    rejection (transport error, timeout, status outside 2xx) or the body
    of the response. *)
Inductive ProbeReply : Type :=
| ProbeError
| ProbeBody (data : Json).

(** [data && (data.status === 'ok' || data.service)], as a truth value. *)
Definition body_ok (data : Json) : bool :=
  truthy data &&
  (match prop "status" data with
   | Some (JStr s) => String.eqb s "ok"
   | _ => false
   end
   || truthy_opt (prop "service" data)).

Definition probe_ok (r : ProbeReply) : bool :=
  match r with
  | ProbeError => false
  | ProbeBody data => body_ok data
  end.

(** One health probe: the reply and the two clock readings taken on
    success. *)
Record Probe : Type := mkProbe {
  reply : ProbeReply;
  seen_at : Z;
  ok_at : Z
}.

(** [checkInstance(svcName, inst)], on the record it mutates. *)
Definition checkInstance (p : Probe) (inst : Instance) : Instance :=
  if probe_ok (reply p) then
    {| url := url inst; healthy := true; fails := Some 0;
       lastSeen := Some (seen_at p); lastOk := Some (ok_at p); meta := meta inst |}
  else
    let fails' := or_zero (fails inst) + 1 in
    {| url := url inst;
       healthy := if FAIL_OPEN_AFTER <=? fails' then false else healthy inst;
       fails := Some fails';
       lastSeen := lastSeen inst; lastOk := lastOk inst; meta := meta inst |}.

(** [cleanupAged(svcName, list)] at clock reading [now]. *)
Definition cleanupAged (now : Z) (l : list Instance) : list Instance :=
  filter (fun inst => now - or_zero (lastSeen inst) ≤ INSTANCE_TTL_MS) l.

(** The environment of one health-check cycle: the probe of the [i]-th
    instance of the list of service [n], whose address is [u], and the
    clock read by [cleanupAged] for that service. *)
Record CycleEnv : Type := mkCycleEnv {
  probe : string → nat → string → Probe;
  cleanup_now : string → Z
}.

(** The inner loop [for (const inst of list) await checkInstance(n, inst)]:
    every record of the list is updated in place, in order. *)
Definition probeAll (env : CycleEnv) (n : string) (l : list Instance) : list Instance :=
  imap (fun i inst => checkInstance (probe env n i (url inst)) inst) l.

(** The body of the loop over [names] for one name [n]: probe every
    instance of [getList(n)], then store the cleaned list under [key(n)]. *)
Definition cycleService (env : CycleEnv) (n : string) (svcs : Services) : Services :=
  <[key n := cleanupAged (cleanup_now env n) (probeAll env n (instances n svcs))]> svcs.

Definition cycleServices (env : CycleEnv) (names : list string) (svcs : Services)
  : Services :=
  foldl (fun s n => cycleService env n s) svcs names.

(** One tick of the interval timer of [startBackgroundChecks]. [names]
    is [Object.keys(memory.services)], here in the map's enumeration
    order. A rejected [persist] is caught and logged. *)
Definition healthCycle (env : CycleEnv) (io : LoadIO) (write_ok : bool) (st : State)
  : State :=
  let st1 := load io st in
  let names := (map_to_list (memory st1)).*1 in
  let st2 := {| memory := cycleServices env names (memory st1);
                disk := disk st1; log := log st1 |} in
  match persist write_ok st2 with
  | (Returned _, st3) => st3
  | (Rejected, st3) => warn WarnHealthLoop st3
  end.

(** The calls made on the registry, with what the environment answers
    to each. *)
Inductive event : Type :=
| EvRegister (name u : string) (m : gmap string Json) (now : Z) (io : LoadIO) (write_ok : bool)
| EvDeregister (name u : string) (io : LoadIO) (write_ok : bool)
| EvLookup (name : string) (io : LoadIO)
| EvDump (io : LoadIO)
| EvCycle (env : CycleEnv) (io : LoadIO) (write_ok : bool).

Definition step (e : event) (st : State) : State :=
  match e with
  | EvRegister name u m now io w => (register name u m now io w st).2
  | EvDeregister name u io w => (deregister name u io w st).2
  | EvLookup name io => (lookup name io st).2
  | EvDump io => (dump io st).2
  | EvCycle env io w => healthCycle env io w st
  end.

(** Runs the events in order, head first. *)
Definition run (evs : list event) (st : State) : State :=
  foldl (fun s e => step e s) st evs.

End Registry.

(** ** The gateway's circuit breaker *)

Module Breaker.

(** One entry of [breakers]: [{ failures, openedAt }]. *)
Record breaker : Type := mkBreaker {
  failures : Z;
  openedAt : option Z
}.

Definition MAX_FAILS : Z := 3.
Definition COOLDOWN_MS : Z := 30000.

(** The literal [{ failures: 0, openedAt: null }]. *)
Definition closed : breaker := {| failures := 0; openedAt := None |}.

(** [canPass(name)] at clock reading [now]: the answer, and the table
    after the call (the check resets an entry whose cooldown is over). *)
Definition canPass (name : string) (now : Z) (breakers : gmap string breaker)
  : bool * gmap string breaker :=
  match breakers !! name with
  | None => (true, breakers)
  | Some b =>
      if failures b <? MAX_FAILS then (true, breakers)
      else
        let elapsed := now - or_zero (openedAt b) in
        if COOLDOWN_MS <? elapsed
        then (true, <[name := closed]> breakers)
        else (false, breakers)
  end.

Definition reportSuccess (name : string) (breakers : gmap string breaker)
  : gmap string breaker :=
  <[name := closed]> breakers.

(** [reportFailure(name)] at clock reading [now].
    [breakers[name]?.failures || 0] is the stored count, or [0];
    [breakers[name]?.openedAt || null] is the stored stamp unless falsy. *)
Definition reportFailure (name : string) (now : Z) (breakers : gmap string breaker)
  : gmap string breaker :=
  let prev := from_option failures 0 (breakers !! name) in
  let failures' := prev + 1 in
  <[name := {| failures := failures';
               openedAt := if MAX_FAILS <=? failures'
                           then Some now
                           else or_null (breakers !! name ≫= openedAt) |}]>
    breakers.

(** The calls the gateway makes on the table, for traces of mixed traffic. *)
Inductive op : Type :=
| OpCanPass (name : string) (now : Z)
| OpSuccess (name : string)
| OpFailure (name : string) (now : Z).

Definition step (o : op) (breakers : gmap string breaker) : gmap string breaker :=
  match o with
  | OpCanPass n now => (canPass n now breakers).2
  | OpSuccess n => reportSuccess n breakers
  | OpFailure n now => reportFailure n now breakers
  end.

(** Runs the calls of [ops] in order, head first. *)
Definition run (ops : list op) (breakers : gmap string breaker) : gmap string breaker :=
  foldl (fun st o => step o st) breakers ops.

(** The service a call is about. *)
Definition op_name (o : op) : string :=
  match o with
  | OpCanPass n _ | OpSuccess n | OpFailure n _ => n
  end.

(** [o] reports neither a success nor a failure of [name]: it is a call
    for another service, or a [canPass] check. *)
Definition no_report (name : string) (o : op) : Prop :=
  match o with
  | OpCanPass _ _ => True
  | OpSuccess n | OpFailure n _ => n ≠ name
  end.

(** The stored count of [name] is below the threshold, or [name] has no
    entry. *)
Definition below_threshold (name : string) (st : gmap string breaker) : Prop :=
  match st !! name with
  | None => True
  | Some b => failures b < MAX_FAILS
  end.

End Breaker.

(** ** The gateway: resolution, proxying and aggregation *)

Module Gateway.

Definition FALLBACKS : gmap string string :=
  {[ "user-service" := "http://localhost:3001";
     "list-service" := "http://localhost:3002";
     "item-service" := "http://localhost:3003" ]}.

(** What [await serviceRegistry.lookup(name)] gives the gateway: a URL or
    [null], or an exception. *)
Inductive RegistryReply : Type :=
| Resolved (u : option string)
| LookupThrew.

(** The gateway's [lookup(name)]: [url || FALLBACKS[name]], and
    [FALLBACKS[name]] again when the registry throws. [None] is
    [undefined]. *)
Definition lookup (r : RegistryReply) (name : string) : option string :=
  match r with
  | Resolved (Some u) => if String.eqb u "" then FALLBACKS !! name else Some u
  | Resolved None => FALLBACKS !! name
  | LookupThrew => FALLBACKS !! name
  end.

(** [extractBearer(req)], on the [authorization] header ([None] when the
    request has none): [None] is [null]. *)
Definition extractBearer (authorization : option string) : option string :=
  let h := default "" authorization in
  if startsWith "Bearer " h
  then Some (string_of_list_ascii (drop 7 (list_ascii_of_string h)))
  else None.

(** The test [token ? _ : _] (and [!token] negated): [null] and the empty
    string are falsy. *)
Definition present (token : option string) : bool :=
  match token with
  | Some t => negb (String.eqb t "")
  | None => false
  end.

(** What the proxy middleware observes of the upstream: a response
    ([onProxyRes]) with its status, or an error ([onError]). *)
Inductive Upstream : Type :=
| UpResponse (status : Z)
| UpError.

(** What the client of a proxied route gets: the 503 of [guard], the
    upstream's own response relayed, the 502 of [onError], or the 500 of
    express when the proxy throws while it sets the request up.
    [address] is the address the request was sent to. *)
Inductive ProxyResult : Type :=
| CircuitOpen
| Relayed (address : string) (status : Z)
| BadGateway (address : string)
| ServerError.

(** A target as the proxy library is given it: a URL, or the object
    [{ target: url }] that the [router] of [makeProxy] answers with
    ([None] when the URL is [undefined]). *)
Inductive Target : Type :=
| TargetUrl (u : string)
| TargetWrapped (u : option string).

(** The options of [makeProxy] that decide where a request goes: the
    [target] resolved when the proxy is built, and what [router] answers
    for the request. [changeOrigin] is [true]. *)
Record ProxyOptions : Type := mkProxyOptions {
  target : option string;
  routed : Target
}.

(** [makeProxy(targetName)]: [r_target] and [r_router] are the registry's
    answers to the two resolutions. *)
Definition makeProxy (r_target r_router : RegistryReply) (targetName : string)
  : ProxyOptions :=
  {| target := lookup r_target targetName;
     routed := TargetWrapped (lookup r_router targetName) |}.

(** The proxy library (http-proxy-middleware 2 over http-proxy), by its
    contract: where a request with target [t] is sent, [None] when
    setting the request up throws. A URL is parsed and used. Of an
    object the library reads [protocol], [host] and [port]; with
    [changeOrigin] it evaluates [target.protocol.split(':')], which
    throws on an object without [protocol], as [{ target: url }] is. *)
Definition forwards_to (t : Target) : option string :=
  match t with
  | TargetUrl u => Some u
  | TargetWrapped _ => None
  end.

(** A request on a proxied route of service [targetName]: [guard], then
    [makeProxy] and the proxy it builds. [now] is the clock read by
    [canPass], [r_target] and [r_router] are the registry's answers to
    the two resolutions, [up] is what the upstream does when contacted,
    [t_err] the clock read by [reportFailure]. By the library's contract
    the answer of [router], an object and so truthy, replaces [target]
    for the request; an exception while the request is set up goes to
    [next], so that express answers 500 and neither [onProxyRes] nor
    [onError] is called; otherwise [onProxyRes] is called on a response
    and [onError] on a failure. *)
Definition proxied (targetName : string) (now : Z) (r_target r_router : RegistryReply)
    (up : Upstream) (t_err : Z) (breakers : gmap string Breaker.breaker)
  : ProxyResult * gmap string Breaker.breaker :=
  let '(pass, breakers1) := Breaker.canPass targetName now breakers in
  if pass then
    match forwards_to (routed (makeProxy r_target r_router targetName)) with
    | None => (ServerError, breakers1)
    | Some address =>
        match up with
        | UpResponse status =>
            (Relayed address status, Breaker.reportSuccess targetName breakers1)
        | UpError =>
            (BadGateway address, Breaker.reportFailure targetName t_err breakers1)
        end
    end
  else (CircuitOpen, breakers1).

(** What [await axios.get(_)] gives: the [data] of a response, or a
    rejection. *)
Inductive Axios (A : Type) : Type :=
| AxData (data : A)
| AxFailed.
Arguments AxData {A} data.
Arguments AxFailed {A}.

Section Dashboard.

(** The number type of [estimatedTotal] (a JavaScript double) with its
    addition, zero and truthiness, and [jwt.verify] with the gateway's
    secret, reduced to what the handler reads of the payload, its [id]
    ([None] when [verify] throws). *)
Context {num : Type}.
Variable num_zero : num.
Variable num_add : num → num → num.
Variable num_truthy : num → bool.
Variable verify : string → option string.

(** One element of a list's [items]: the handler reads [purchased]. *)
Record ListItem : Type := mkListItem {
  purchased : bool
}.

(** One list document of the list-service, as the handler reads it:
    [l.items] and [l.summary?.estimatedTotal], each possibly absent. The
    body of the list-service's reply is taken at its type, an array of
    such documents. *)
Record ShoppingList : Type := mkShoppingList {
  items : option (list ListItem);
  estimatedTotal : option num
}.

Record Summary : Type := mkSummary {
  userId : string;
  totalLists : Z;
  totalItems : Z;
  purchasedItems : Z;
  sumEstimated : num;
  catalogCount : Z
}.

Inductive DashResponse : Type :=
| Unauthorized
| UpstreamFailure
| Dashboard (body : Summary).

(** [l.items?.length || 0]. *)
Definition itemCount (l : ShoppingList) : Z :=
  match items l with
  | Some its => Z.of_nat (length its)
  | None => 0
  end.

(** [(l.items || []).filter(i => i.purchased).length]. *)
Definition purchasedCount (l : ShoppingList) : Z :=
  Z.of_nat (length (filter (fun i => purchased i = true) (default [] (items l)))).

(** [l.summary?.estimatedTotal || 0]. *)
Definition estimateOf (l : ShoppingList) : num :=
  match estimatedTotal l with
  | Some x => if num_truthy x then x else num_zero
  | None => num_zero
  end.

(** [Array.isArray(items) ? items.length : 0], [0] when the call fails. *)
Definition countCatalog (r : Axios Json) : Z :=
  match r with
  | AxData (JArr its) => Z.of_nat (length its)
  | AxData _ => 0
  | AxFailed => 0
  end.

(** [GET /api/dashboard]: [lists] is the outcome of the call to the
    list-service, [catalog] of the call to the item-service (issued only
    after the first succeeded). The two address resolutions before them
    cannot throw and only choose where the calls go. *)
Definition dashboard (authorization : option string)
    (lists : Axios (list ShoppingList)) (catalog : Axios Json) : DashResponse :=
  let token := extractBearer authorization in
  if present token then
    match verify (default "" token) with
    | None => Unauthorized
    | Some uid =>
        match lists with
        | AxFailed => UpstreamFailure
        | AxData ls =>
            Dashboard
              {| userId := uid;
                 totalLists := Z.of_nat (length ls);
                 totalItems := foldl (fun acc l => acc + itemCount l) 0 ls;
                 purchasedItems := foldl (fun acc l => acc + purchasedCount l) 0 ls;
                 sumEstimated := foldl (fun acc l => num_add acc (estimateOf l)) num_zero ls;
                 catalogCount := countCatalog catalog |}
        end
    end
  else Unauthorized.

End Dashboard.

(** What a handler does for its client: a JSON response, or an exception
    that leaves the request without response. *)
Inductive HandlerResult : Type :=
| Responded (body : Json)
| Threw.

(** What [Promise.allSettled] reports of one promise: the value it
    fulfilled with, or its rejection. *)
Inductive Settled : Type :=
| Fulfilled (value : Json)
| SettledRejected.

(** The response object of a successful [axios.get], as the handler
    reads it: its [data]. *)
Definition axiosResponse (data : Json) : Json := JObj [("data", data)].

Definition settle (r : Axios Json) : Settled :=
  match r with
  | AxData d => Fulfilled (axiosResponse d)
  | AxFailed => SettledRejected
  end.

(** The object [{ status: 'fulfilled', value: { data: [] } }] that the
    handler resolves the lists branch with when there is no token. *)
Definition sentinel : Json :=
  JObj [("status", JStr "fulfilled"); ("value", JObj [("data", JArr [])])].

(** [r.status === 'fulfilled' ? r.value.data : []]: [None] is
    [undefined]. *)
Definition dataOf (r : Settled) : option Json :=
  match r with
  | Fulfilled v => prop "data" v
  | SettledRejected => Some (JArr [])
  end.

(** [(l.name || '').toLowerCase().includes(q.toLowerCase())]: [None]
    when the expression throws ([l] is [null], or the name is truthy and
    not a string). *)
Definition nameMatches (q : string) (l : Json) : option bool :=
  match l with
  | JNull => None
  | _ =>
      match prop "name" l with
      | Some (JStr s) => Some (includes (toLowerCase q) (toLowerCase s))
      | Some v => if truthy v then None else Some (includes (toLowerCase q) "")
      | None => Some (includes (toLowerCase q) "")
      end
  end.

(** [lists.filter(pred)] for a predicate that may throw. *)
Fixpoint filterMatches (q : string) (ls : list Json) : option (list Json) :=
  match ls with
  | [] => Some []
  | l :: rest =>
      match nameMatches q l with
      | None => None
      | Some keep =>
          match filterMatches q rest with
          | None => None
          | Some kept => Some (if keep then l :: kept else kept)
          end
      end
  end.

(** The body [{ items, lists }]; an [undefined] property is left out by
    [res.json]. *)
Definition searchBody (its : option Json) (ls : list Json) : Json :=
  JObj (match its with
        | Some v => [("items", v)]
        | None => []
        end ++ [("lists", JArr ls)]).

(** [GET /api/search]: [q] is the query parameter, [itemsCall] and
    [listsCall] the outcomes of the two upstream calls (the second is
    issued only with a token); the address resolutions before them cannot
    throw. *)
Definition search (q : string) (authorization : option string)
    (itemsCall listsCall : Axios Json) : HandlerResult :=
  let q := trim q in
  if String.eqb q "" then Responded (searchBody (Some (JArr [])) [])
  else
    let token := extractBearer authorization in
    let itemsRes := settle itemsCall in
    let listsRes := if present token then settle listsCall else Fulfilled sentinel in
    let its := dataOf itemsRes in
    match dataOf listsRes with
    | Some (JArr ls) =>
        match filterMatches q ls with
        | Some kept => Responded (searchBody its kept)
        | None => Threw
        end
    | _ => Threw
    end.

End Gateway.

(** ** Notions used to state the properties *)

Module RegistrySpec.
Import Registry.

(** The time stamp [lookup] sorts on. *)
Definition okStamp (inst : Instance) : Z := or_zero (lastOk inst).

(** The selection policy in the specification's words: [inst], at
    position [i] of [l], is healthy, no healthy instance of [l] has an
    older [lastOk], and every healthy instance in front of it has a
    strictly newer one (ties go to the instance inserted first). *)
Definition oldest_healthy (l : list Instance) (i : nat) (inst : Instance) : Prop :=
  l !! i = Some inst
  ∧ healthy inst = true
  ∧ ∀ j other, l !! j = Some other → healthy other = true →
      okStamp inst ≤ okStamp other ∧ ((j < i)%nat → okStamp inst < okStamp other).

(** A body "signals an ok status", in the specification's words: its
    [status] is the string [ok]. *)
Definition signals_ok (data : Json) : bool :=
  match prop "status" data with
  | Some (JStr s) => String.eqb s "ok"
  | _ => false
  end.

(** The record [checkInstance] leaves after a successful probe. *)
Definition probed_ok (p : Probe) (inst : Instance) : Instance :=
  {| url := url inst; healthy := true; fails := Some 0;
     lastSeen := Some (seen_at p); lastOk := Some (ok_at p); meta := meta inst |}.

(** The record [checkInstance] leaves after a failed probe. *)
Definition probed_failed (inst : Instance) : Instance :=
  {| url := url inst;
     healthy := if FAIL_OPEN_AFTER <=? or_zero (fails inst) + 1 then false else healthy inst;
     fails := Some (or_zero (fails inst) + 1);
     lastSeen := lastSeen inst; lastOk := lastOk inst; meta := meta inst |}.

(** [load] meets an I/O error: the file exists and cannot be read, or is
    missing and cannot be created. *)
Definition load_fails (io : LoadIO) (st : State) : Prop :=
  match disk st with
  | File _ => read_ok io = false
  | NoFile => init_write_ok io = false
  end.

(** Every key of the table is a normalised service name, as [getList]
    writes them. *)
Definition normalised (svcs : Services) : Prop :=
  ∀ k, is_Some (svcs !! k) → key k = k.

(** A list as [register] builds them: one record per URL, no negative
    failure counter. *)
Definition wellformed_list (l : list Instance) : Prop :=
  NoDup (url <$> l) ∧ Forall (fun i => 0 ≤ or_zero (fails i)) l.

(** A table as the registry's operations build them. *)
Definition wellformed (svcs : Services) : Prop :=
  normalised svcs ∧ ∀ k l, svcs !! k = Some l → wellformed_list l.

(** The module's state when it is first loaded without a registry file. *)
Definition initial : State := {| memory := ∅; disk := NoFile; log := [] |}.

(** Every instance of service [n] at address [u] has at least [j]
    failures on its counter, and once a failed probe was counted ([1 ≤ j])
    an instance at or beyond the threshold is unhealthy. *)
Definition counted (j : Z) (n u : string) (svcs : Services) : Prop :=
  ∀ inst, inst ∈ instances n svcs → url inst = u →
    j ≤ or_zero (fails inst)
    ∧ (1 ≤ j → FAIL_OPEN_AFTER ≤ or_zero (fails inst) → healthy inst = false).

(** [P] holds of the table in memory and of the table in the file. *)
Definition both (P : Services → Prop) (st : State) : Prop :=
  P (memory st) ∧ ∀ d, disk st = File (Some d) → P d.

(** Normalised keys and, for address [u] of service [n], at least [j]
    counted failures, in memory and in the file. *)
Definition tracked_from (j : Z) (n u : string) (st : State) : Prop :=
  both (fun svcs => normalised svcs ∧ counted j n u svcs) st.

(** The state the tracking of address [u] of service [n] starts from:
    normalised keys and no negative failure counter there. *)
Definition tracked (n u : string) (st : State) : Prop := tracked_from 0 n u st.



End RegistrySpec.

(** ** Characters: the predicates of the proofs about strings *)

(** One character as [chars] cuts it, before the bytes [follow]: a first
    byte with the continuation bytes it announces, or a single byte that
    the bytes after it do not complete. *)
Definition unit_ok (ch follow : list ascii) : Prop :=
  match ch with
  | [] => False
  | c :: t =>
      (length t = trail c ∧ forallb is_cont t = true)
      ∨ (t = [] ∧ complete c follow = false)
  end.

(** A list of characters as [chars] cuts them. *)
Fixpoint segmented (l : list (list ascii)) : Prop :=
  match l with
  | [] => True
  | ch :: rest => unit_ok ch (concat rest) ∧ segmented rest
  end.

(** What the proofs need of a code point that a mapping produces: its
    sequence is well formed and reads back as the code point, it maps to
    itself, and it is neither the capital sigma nor white space. *)
Definition settled (o : Z) : bool :=
  well_formed (utf8 o)
  && bool_decide (code_point (utf8 o) = Some o)
  && bool_decide (lower_cp o = None)
  && negb (o =? 931)
  && negb (existsb (Z.eqb o) white_space).

Definition settled_outs (outs : list Z) : bool :=
  negb (bool_decide (outs = [])) && forallb settled outs.

(** A character that lowering leaves as it is, in every context. *)
Definition stable (ch : list ascii) : Prop :=
  is_sigma ch = false ∧ lower_char ch = [ch].

(** What lowering puts out for one character, in either context. *)
Definition lowered (ch : list ascii) (out : list (list ascii)) : Prop :=
  (is_sigma ch = true ∧ out = [utf8 962]) ∨ out = lower_char ch.

(** Trailing spaces dropped, by [drop_spaces] on the reversed list. *)
Definition drop_end (l : list (list ascii)) : list (list ascii) :=
  reverse (drop_spaces (reverse l)).

(** ** Further notions used to state properties *)

Module RegistrySpecMore.
Import Registry.

(** The probes of successive health-check cycles applied to one record,
    nothing else touching it in between. *)
Definition probeMany (ps : list Probe) (inst : Instance) : Instance :=
  foldl (fun i p => checkInstance p i) inst ps.

End RegistrySpecMore.

Module BreakerSpecMore.
Import Breaker.

(** The number of failures of [name] reported in a trace of calls. *)
Fixpoint reported (name : string) (ops : list op) : nat :=
  match ops with
  | [] => 0
  | OpFailure n _ :: rest =>
      if decide (n = name) then S (reported name rest) else reported name rest
  | _ :: rest => reported name rest
  end.

(** The stored failure count of [name], [0] without entry. *)
Definition count (name : string) (st : gmap string breaker) : Z :=
  from_option failures 0 (st !! name).

End BreakerSpecMore.

(** ** The gateway: path rewriting and the periodic health check *)

Module GatewayMore.

(** The services the gateway proxies and checks. *)
Definition names : list string := ["user-service"; "list-service"; "item-service"].

(** The alternatives of the pattern of [pathRewrite], in its order. *)
Definition areas : list string := ["auth"; "users"; "items"; "lists"].

(** [path.slice(n)]. *)
Definition slice (n : nat) (path : string) : string :=
  string_of_list_ascii (drop n (list_ascii_of_string path)).

(** The replacement at the first alternative [g1] for which the path
    starts with [/api/g1]: the match is replaced by [/g1], the rest of
    the path is kept; without match the path is returned as it is. *)
Fixpoint rewriteAt (alts : list string) (path : string) : string :=
  match alts with
  | [] => path
  | g1 :: rest =>
      if startsWith ("/api/" ++ g1) path
      then "/" ++ g1 ++ slice (String.length ("/api/" ++ g1)) path
      else rewriteAt rest path
  end.

(** [pathRewrite]:
    [path.replace(/^\/api\/(auth|users|items|lists)/, (m, g1) => `/${g1}`)]. *)
Definition pathRewrite (path : string) : string := rewriteAt areas path.

(** What the health request of [periodicHealth] gives for a service: a
    response, or a failure, with the clock [reportFailure] then reads. *)
Inductive HealthReply : Type :=
| HealthUp
| HealthDown (now : Z).

(** [periodicHealth()]: for each service in turn, one health request and
    one report to the breaker. (The address resolution before the request
    cannot throw and only chooses where the request goes.) *)
Definition periodicHealth (health : string → HealthReply)
    (breakers : gmap string Breaker.breaker) : gmap string Breaker.breaker :=
  foldl (fun b n =>
           match health n with
           | HealthUp => Breaker.reportSuccess n b
           | HealthDown now => Breaker.reportFailure n now b
           end)
        breakers names.

(** One request on a proxied route, with what its environment does:
    the route's service, the clock at [canPass], the registry's two
    answers, the upstream, the clock at [reportFailure]. *)
Record Request : Type := mkRequest {
  route : string;
  arrival : Z;
  r_target : Gateway.RegistryReply;
  r_router : Gateway.RegistryReply;
  upstream : Gateway.Upstream;
  t_err : Z
}.

Definition serve (q : Request) (breakers : gmap string Breaker.breaker)
  : Gateway.ProxyResult * gmap string Breaker.breaker :=
  Gateway.proxied (route q) (arrival q) (r_target q) (r_router q) (upstream q) (t_err q)
                  breakers.

(** The breaker table after the requests of [qs], served in order. *)
Definition serveAll (qs : list Request) (breakers : gmap string Breaker.breaker)
  : gmap string Breaker.breaker :=
  foldl (fun b q => (serve q b).2) breakers qs.

End GatewayMore.

(** ** The list service: the items of a shopping list
    ([services/list-service/server.js]) *)

Module ListService.

Section Handlers.

(** JavaScript numbers (doubles) with the operations the handlers use:
    the constants [0] and [1], [+], [*] and truthiness ([0] and [NaN] are
    falsy); the values a request body or an upstream answer may hold,
    with their truthiness and [Number(v)]. The record store behind
    [listsDb] is outside the handlers: a handler gets what [findById]
    found and yields the document it passes to [update]. *)
Context {num val : Type}.
Variable num_zero : num.
Variable num_one : num.
Variable num_add : num → num → num.
Variable num_mul : num → num → num.
Variable num_truthy : num → bool.
Variable val_truthy : val → bool.
Variable toNumber : val → num.

(** One element of [list.items], as the handlers build it. *)
Record Entry : Type := mkEntry {
  itemId : string;
  itemName : string;
  quantity : num;
  unit : string;
  estimatedPrice : num;
  purchased : bool;
  addedAt : Z
}.

Record Summary : Type := mkSummary {
  totals : Z;
  purchasedItems : Z;
  estimatedTotal : num
}.

(** A list document, as [POST /lists] creates it. *)
Record ListDoc : Type := mkListDoc {
  id : string;
  userId : string;
  name : string;
  description : string;
  status : string;
  items : list Entry;
  summary : Summary;
  createdAt : Z;
  updatedAt : Z
}.

(** What the item service answers to [GET /items/:id], as the handler
    reads it. *)
Record CatalogItem : Type := mkCatalogItem {
  catalogName : string;
  catalogUnit : string;
  averagePrice : val
}.

(** [x || d] on numbers. *)
Definition orNum (x d : num) : num := if num_truthy x then x else d.

(** [s || d] on strings. *)
Definition orStr (s d : string) : string := if String.eqb s "" then d else s.

(** The summary [recomputeSummary] computes from the items. *)
Definition summarise (its : list Entry) : Summary :=
  {| totals := Z.of_nat (length its);
     purchasedItems := Z.of_nat (length (filter (fun i => purchased i = true) its));
     estimatedTotal :=
       foldl (fun acc i =>
                num_add acc (num_mul (orNum (quantity i) num_zero)
                                     (orNum (estimatedPrice i) num_zero)))
             num_zero its |}.

(** The document with [list.items] replaced. *)
Definition withItems (its : list Entry) (l : ListDoc) : ListDoc :=
  {| id := id l; userId := userId l; name := name l; description := description l;
     status := status l; items := its; summary := summary l;
     createdAt := createdAt l; updatedAt := updatedAt l |}.

(** [recomputeSummary(list)] at clock reading [now], on the document it
    mutates. *)
Definition recomputeSummary (now : Z) (l : ListDoc) : ListDoc :=
  {| id := id l; userId := userId l; name := name l; description := description l;
     status := status l; items := items l; summary := summarise (items l);
     createdAt := createdAt l; updatedAt := now |}.

(** [canAccess(list, userId)]. *)
Definition canAccess (l : option ListDoc) (uid : string) : bool :=
  match l with
  | Some d => String.eqb (userId d) uid
  | None => false
  end.

(** [list.items.findIndex(i => i.itemId === itemId)]: [None] is [-1]. *)
Fixpoint findIndex (iid : string) (its : list Entry) : option nat :=
  match its with
  | [] => None
  | e :: rest => if String.eqb (itemId e) iid then Some 0%nat else S <$> findIndex iid rest
  end.

(** What a handler answers: the list or the item is not found (404), the
    request is refused (400), or the document is passed to
    [listsDb.update] and the request answered with [status]. The store
    is taken to accept the update. *)
Inductive Result : Type :=
| ListNotFound
| ItemNotFound
| BadRequest
| Saved (status : Z) (doc : ListDoc).

Definition setQuantity (q : num) (e : Entry) : Entry :=
  {| itemId := itemId e; itemName := itemName e; quantity := q; unit := unit e;
     estimatedPrice := estimatedPrice e; purchased := purchased e;
     addedAt := addedAt e |}.

(** [Number(quantity || 0)] for the [quantity] of the body, which is [1]
    when the body has none. *)
Definition addedQuantity (qty : option val) : num :=
  match qty with
  | Some v => if val_truthy v then toNumber v else num_zero
  | None => num_one
  end.

(** [Number(quantity) || 1] for the [quantity] of the body, which is [1]
    when the body has none. *)
Definition firstQuantity (qty : option val) : num :=
  match qty with
  | Some v => orNum (toNumber v) num_one
  | None => num_one
  end.

(** [POST /lists/:id/items]. [found] is what [findById] gave, [uid] the
    authenticated user, [iid] and [qty] the [itemId] and [quantity] of
    the body ([None] when absent), [reply] the item service's answer,
    [t_added] and [t_updated] the two clock readings. *)
Definition addItem (uid : string) (found : option ListDoc)
    (iid : option string) (qty : option val)
    (reply : Gateway.Axios (option CatalogItem)) (t_added t_updated : Z) : Result :=
  match found with
  | Some l =>
      if canAccess found uid then
        match iid with
        | Some i =>
            if String.eqb i "" then BadRequest
            else
              match findIndex i (items l) with
              | Some idx =>
                  let bump e :=
                    setQuantity
                      (num_add (orNum (quantity e) num_zero) (addedQuantity qty)) e in
                  Saved 200 (recomputeSummary t_updated
                               (withItems (alter bump idx (items l)) l))
              | None =>
                  match reply with
                  | Gateway.AxFailed => BadRequest
                  | Gateway.AxData item =>
                      let entry :=
                        {| itemId := i;
                           itemName := from_option catalogName "" item;
                           quantity := firstQuantity qty;
                           unit := orStr (from_option catalogUnit "" item) "un";
                           estimatedPrice :=
                             match item with
                             | Some c => orNum (toNumber (averagePrice c)) num_zero
                             | None => num_zero
                             end;
                           purchased := false;
                           addedAt := t_added |} in
                      Saved 201 (recomputeSummary t_updated
                                   (withItems (items l ++ [entry]) l))
                  end
              end
        | None => BadRequest
        end
      else ListNotFound
  | None => ListNotFound
  end.

(** The fields [PUT /lists/:id/items/:itemId] sets when the body has
    them. *)
Definition patchEntry (qty bought price : option val) (e : Entry) : Entry :=
  {| itemId := itemId e; itemName := itemName e;
     quantity := from_option toNumber (quantity e) qty;
     unit := unit e;
     estimatedPrice := from_option toNumber (estimatedPrice e) price;
     purchased := from_option val_truthy (purchased e) bought;
     addedAt := addedAt e |}.

(** [PUT /lists/:id/items/:itemId]. *)
Definition updateItem (uid : string) (found : option ListDoc) (iid : string)
    (qty bought price : option val) (t_updated : Z) : Result :=
  match found with
  | Some l =>
      if canAccess found uid then
        match findIndex iid (items l) with
        | Some idx =>
            Saved 200 (recomputeSummary t_updated
                         (withItems (alter (patchEntry qty bought price) idx (items l)) l))
        | None => ItemNotFound
        end
      else ListNotFound
  | None => ListNotFound
  end.

(** [DELETE /lists/:id/items/:itemId]. *)
Definition deleteItem (uid : string) (found : option ListDoc) (iid : string)
    (t_updated : Z) : Result :=
  match found with
  | Some l =>
      if canAccess found uid then
        let kept := filter (fun e => itemId e ≠ iid) (items l) in
        if (length kept =? length (items l))%nat then ItemNotFound
        else Saved 204 (recomputeSummary t_updated (withItems kept l))
      else ListNotFound
  | None => ListNotFound
  end.

(** [GET /lists/:id/summary]. *)
Definition getSummary (uid : string) (found : option ListDoc) (t_updated : Z) : Result :=
  match found with
  | Some l =>
      if canAccess found uid then Saved 200 (recomputeSummary t_updated l)
      else ListNotFound
  | None => ListNotFound
  end.

(** The requests on the items of one list. *)
Inductive request : Type :=
| Add (iid : option string) (qty : option val)
      (reply : Gateway.Axios (option CatalogItem)) (t_added : Z)
| Update (iid : string) (qty bought price : option val)
| Delete (iid : string)
| GetSummary.

Definition handle (uid : string) (found : option ListDoc) (r : request) (t_updated : Z)
  : Result :=
  match r with
  | Add iid qty reply t_added => addItem uid found iid qty reply t_added t_updated
  | Update iid qty bought price => updateItem uid found iid qty bought price t_updated
  | Delete iid => deleteItem uid found iid t_updated
  | GetSummary => getSummary uid found t_updated
  end.

End Handlers.

End ListService.

(** ** The item service: search ([GET /search]) *)

Module ItemService.

(** A catalog item, as the search reads it: the four text fields it
    matches on, each possibly absent; [id] stands for the rest of the
    document, which is carried along unread. *)
Record Item : Type := mkItem {
  id : string;
  name : option string;
  brand : option string;
  description : option string;
  barcode : option string
}.

(** [matches(term, value)]:
    [String(value || '').toLowerCase().includes(String(term || '').toLowerCase())]. *)
Definition matches (term : string) (value : option string) : bool :=
  includes (toLowerCase term) (toLowerCase (default "" value)).

(** [GET /search?q=]: [all] is what [itemsDb.find()] gave. *)
Definition search (q : string) (all : list Item) : list Item :=
  let q := trim q in
  if String.eqb q "" then []
  else filter (fun i => matches q (name i) || matches q (brand i)
                        || matches q (description i) || matches q (barcode i) = true)
              all.

End ItemService.

(** * Part II: properties *)

(** ** Circuit breaker *)

Module BreakerFacts.
Import Breaker.

Lemma canPass_other name n now (st : gmap string breaker) :
  n ≠ name → (canPass n now st).2 !! name = st !! name.
Proof.
  intros Hne. unfold canPass.
  destruct (st !! n) as [b|]; [|done].
  destruct (failures b <? MAX_FAILS); [done|].
  cbn. destruct (_ <? _); [|done].
  cbn. by rewrite lookup_insert_ne.
Qed.

Lemma step_other name o (st : gmap string breaker) :
  op_name o ≠ name → step o st !! name = st !! name.
Proof.
  destruct o as [n now|n|n now]; cbn; intros Hne.
  - by apply canPass_other.
  - unfold reportSuccess. by rewrite lookup_insert_ne.
  - unfold reportFailure. by rewrite lookup_insert_ne.
Qed.

(** While the stored count is below the threshold, checks and the traffic
    of other services leave the entry as it is. *)
Lemma step_no_report name o (st : gmap string breaker) :
  below_threshold name st → no_report name o → step o st !! name = st !! name.
Proof.
  unfold below_threshold.
  destruct o as [n now|n|n now]; cbn; intros Hlow Hq.
  - destruct (decide (n = name)) as [->|Hne]; [|by apply canPass_other].
    unfold canPass. destruct (st !! name) as [b|] eqn:Hb; [|exact Hb].
    rewrite (proj2 (Z.ltb_lt _ _) Hlow). exact Hb.
  - unfold reportSuccess. by rewrite lookup_insert_ne.
  - unfold reportFailure. by rewrite lookup_insert_ne.
Qed.

Lemma run_no_report name ops (st : gmap string breaker) :
  below_threshold name st → Forall (no_report name) ops →
  run ops st !! name = st !! name.
Proof.
  unfold run. revert st.
  induction ops as [|o ops IH]; intros st Hlow Hall; [done|].
  inversion Hall as [|? ? Ho Hops]; subst. cbn.
  assert (Hstep : step o st !! name = st !! name) by by apply step_no_report.
  rewrite IH; [done| |done].
  unfold below_threshold in *. by rewrite Hstep.
Qed.

Lemma reportFailure_lookup name now (st : gmap string breaker) :
  reportFailure name now st !! name =
  Some {| failures := from_option failures 0 (st !! name) + 1;
          openedAt := if MAX_FAILS <=? from_option failures 0 (st !! name) + 1
                      then Some now
                      else or_null (st !! name ≫= openedAt) |}.
Proof. unfold reportFailure. by rewrite lookup_insert_eq. Qed.

(** What [canPass] does is a function of the entry alone. *)
Lemma canPass_entry name now (st : gmap string breaker) b :
  st !! name = Some b →
  canPass name now st =
  if failures b <? MAX_FAILS then (true, st)
  else if COOLDOWN_MS <? now - or_zero (openedAt b)
       then (true, <[name := closed]> st)
       else (false, st).
Proof. intros Hb. unfold canPass. by rewrite Hb. Qed.

Lemma canPass_after_success name now (st : gmap string breaker) :
  canPass name now (reportSuccess name st) = (true, reportSuccess name st).
Proof.
  unfold canPass, reportSuccess. by rewrite lookup_insert_eq.
Qed.

(** The entry after three failures counted from no entry, with checks
    and foreign traffic in between. *)
Lemma third_failure_entry name (st : gmap string breaker) t1 t2 t3 ops1 ops2 :
  st !! name = None →
  Forall (no_report name) ops1 → Forall (no_report name) ops2 →
  reportFailure name t3 (run ops2 (reportFailure name t2
    (run ops1 (reportFailure name t1 st)))) !! name
  = Some {| failures := 3; openedAt := Some t3 |}.
Proof.
  intros Hnone H1 H2.
  assert (E1 : reportFailure name t1 st !! name
               = Some {| failures := 1; openedAt := None |}).
  { rewrite reportFailure_lookup, Hnone. done. }
  assert (E1' : run ops1 (reportFailure name t1 st) !! name
                = Some {| failures := 1; openedAt := None |}).
  { rewrite run_no_report; [done| |done].
    unfold below_threshold. rewrite E1. done. }
  assert (E2 : reportFailure name t2 (run ops1 (reportFailure name t1 st)) !! name
               = Some {| failures := 2; openedAt := None |}).
  { rewrite reportFailure_lookup, E1'. done. }
  assert (E2' : run ops2 (reportFailure name t2 (run ops1 (reportFailure name t1 st)))
                  !! name = Some {| failures := 2; openedAt := None |}).
  { rewrite run_no_report; [done| |done].
    unfold below_threshold. rewrite E2. done. }
  rewrite reportFailure_lookup, E2'. done.
Qed.

(** C1. Starting without an entry for [name], after exactly three
    [reportFailure] calls for [name] (checks and traffic of other
    services may come in between, reports for [name] may not), with the
    third at clock reading [t3]: [canPass name] answers false at once and
    as long as no more than 30000 ms have passed since [t3], leaving the
    table as it is; it answers true exactly when more than 30000 ms have
    passed, and that check resets the entry to [closed]; and after a
    [reportSuccess name], whatever came before it, [canPass name]
    answers true. *)
Theorem C1_breaker_opens_after_three_failures
    (name : string) (st : gmap string breaker) (t1 t2 t3 : Z) (ops1 ops2 : list op) :
  st !! name = None →
  Forall (no_report name) ops1 →
  Forall (no_report name) ops2 →
  let st3 := reportFailure name t3 (run ops2 (reportFailure name t2
               (run ops1 (reportFailure name t1 st)))) in
  canPass name t3 st3 = (false, st3)
  ∧ (∀ now, now - t3 ≤ COOLDOWN_MS → canPass name now st3 = (false, st3))
  ∧ (∀ now, COOLDOWN_MS < now - t3 →
       canPass name now st3 = (true, <[name := closed]> st3))
  ∧ (∀ now, (canPass name now st3).1 = true ↔ COOLDOWN_MS < now - t3)
  ∧ (∀ ops now, canPass name now (reportSuccess name (run ops st3))
                = (true, reportSuccess name (run ops st3))).
Proof.
  intros Hnone H1 H2 st3.
  pose proof (third_failure_entry name st t1 t2 t3 ops1 ops2 Hnone H1 H2) as E3.
  fold st3 in E3.
  assert (Hclosed : ∀ now, now - t3 ≤ COOLDOWN_MS → canPass name now st3 = (false, st3)).
  { intros now Hle. rewrite (canPass_entry _ _ _ _ E3). cbn.
    destruct (COOLDOWN_MS <? now - t3) eqn:Hlt; [|done].
    apply Z.ltb_lt in Hlt. lia. }
  assert (Hopen : ∀ now, COOLDOWN_MS < now - t3 →
                    canPass name now st3 = (true, <[name := closed]> st3)).
  { intros now Hlt. rewrite (canPass_entry _ _ _ _ E3). cbn.
    by rewrite (proj2 (Z.ltb_lt _ _) Hlt). }
  split; [|split; [|split; [|split]]].
  - apply Hclosed. unfold COOLDOWN_MS. lia.
  - exact Hclosed.
  - exact Hopen.
  - intros now. split.
    + intros Htrue. destruct (Z.lt_ge_cases COOLDOWN_MS (now - t3)) as [|Hge]; [done|].
      rewrite Hclosed in Htrue by lia. discriminate.
    + intros Hlt. by rewrite Hopen.
  - intros ops now. apply canPass_after_success.
Qed.

Lemma C1_breaker_opens_witness :
  let st3 := reportFailure "item-service" 3000
               (run [] (reportFailure "item-service" 2000
                 (run [OpCanPass "item-service" 1500; OpFailure "user-service" 1600]
                   (reportFailure "item-service" 1000 ∅)))) in
  (canPass "item-service" 3000 st3).1 = false
  ∧ (canPass "item-service" 33000 st3).1 = false
  ∧ (canPass "item-service" 33001 st3).1 = true.
Proof.
  destruct (C1_breaker_opens_after_three_failures "item-service" ∅ 1000 2000 3000
              [OpCanPass "item-service" 1500; OpFailure "user-service" 1600] [])
    as (Hnow & Hclosed & Hopen & _).
  - reflexivity.
  - repeat constructor. discriminate.
  - constructor.
  - cbv zeta. rewrite Hnow, (Hclosed 33000), (Hopen 33001); [done| |]; unfold COOLDOWN_MS; lia.
Defined.

(** C2, as the specification states it, fails: a fourth failure, reported
    while the count is already 3, moves [openedAt] from the time of the
    third failure to its own. *)
Lemma C2_openedAt_refreshed_counterexample :
  let st3 := reportFailure "item-service" 3000 (reportFailure "item-service" 2000
               (reportFailure "item-service" 1000 ∅)) in
  st3 !! "item-service" = Some {| failures := 3; openedAt := Some 3000 |}
  ∧ reportFailure "item-service" 4000 st3 !! "item-service"
    = Some {| failures := 4; openedAt := Some 4000 |}
  ∧ (reportFailure "item-service" 4000 st3 !! "item-service" ≫= openedAt)
    ≠ (st3 !! "item-service" ≫= openedAt).
Proof. repeat split; vm_compute; congruence. Qed.

(** C2, amended. [reportFailure] adds one to the stored count ([0]
    without an entry) and leaves the other services alone; [openedAt]
    becomes the current time on every call whose new count is 3 or more,
    so each failure reported while the breaker is open restarts the
    cooldown; below 3 the stored [openedAt] is kept ([null] without
    entry or when falsy). *)
Theorem C2_reportFailure_stamps_every_failure_at_threshold
    (name : string) (now : Z) (st : gmap string breaker) :
  let prev := from_option failures 0 (st !! name) in
  ∃ b, reportFailure name now st !! name = Some b
    ∧ failures b = prev + 1
    ∧ (MAX_FAILS ≤ prev + 1 → openedAt b = Some now)
    ∧ (prev + 1 < MAX_FAILS → openedAt b = or_null (st !! name ≫= openedAt))
    ∧ (∀ other, other ≠ name → reportFailure name now st !! other = st !! other).
Proof.
  intros prev. eexists. split; [apply reportFailure_lookup|]. cbn. fold prev.
  split; [done|]. split; [|split].
  - intros Hge. by rewrite (proj2 (Z.leb_le _ _) Hge).
  - intros Hlt. by rewrite (proj2 (Z.leb_gt _ _) Hlt).
  - intros other Hne. unfold reportFailure. by rewrite lookup_insert_ne.
Qed.

End BreakerFacts.

(** ** Strings *)

Lemma conts_app t follow :
  forallb is_cont t = true → conts (t ++ follow) = t ++ conts follow.
Proof.
  induction t as [|c t IH]; [done|]. cbn. intros H.
  apply andb_true_iff in H as [Hc Ht]. rewrite Hc. by rewrite IH.
Qed.

Lemma conts_all l : forallb is_cont (conts l) = true.
Proof.
  induction l as [|c l IH]; [done|]. cbn.
  destruct (is_cont c) eqn:Hc; [|done]. cbn. by rewrite Hc.
Qed.

Lemma conts_prefix l : ∃ r, l = conts l ++ r.
Proof.
  induction l as [|c l [r IH]]; [by exists []|]. cbn.
  destruct (is_cont c); [|by eexists]. exists r. cbn. by rewrite <- IH.
Qed.

(** When the sequence is complete, the bytes taken are continuation
    bytes, as many as announced. *)
Lemma complete_take c rest :
  complete c rest = true →
  length (take (trail c) rest) = trail c
  ∧ forallb is_cont (take (trail c) rest) = true.
Proof.
  unfold complete. intros H. apply Nat.leb_le in H.
  destruct (conts_prefix rest) as [r Hr].
  assert (Ht : take (trail c) rest = take (trail c) (conts rest)).
  { rewrite Hr at 1. by rewrite take_app_le. }
  rewrite Ht. split.
  - rewrite length_take. lia.
  - pose proof (conts_all rest) as Hall.
    rewrite <- (take_drop (trail c) (conts rest)) in Hall.
    rewrite forallb_app in Hall. by apply andb_true_iff in Hall as [? _].
Qed.

Lemma concat_chars_from k l : concat (chars_from k l) = drop k l.
Proof.
  revert k. induction l as [|c l IH]; intros k; [by destruct k|].
  destruct k as [|k]; cbn; [|apply IH].
  destruct (complete c l); cbn; rewrite IH.
  - by rewrite take_drop.
  - by rewrite drop_0.
Qed.

Lemma concat_chars l : concat (chars l) = l.
Proof. unfold chars. by rewrite concat_chars_from, drop_0. Qed.

Lemma chars_from_skip t follow :
  chars_from (length t) (t ++ follow) = chars_from 0 follow.
Proof. induction t as [|c t IH]; [done|]. apply IH. Qed.

Lemma chars_from_segmented k l : segmented (chars_from k l).
Proof.
  revert k. induction l as [|c l IH]; intros k; [by destruct k|].
  destruct k as [|k]; cbn; [|apply IH].
  destruct (complete c l) eqn:Hc; cbn; (split; [|apply IH]).
  - left. by apply complete_take.
  - right. split; [done|]. by rewrite concat_chars_from, drop_0.
Qed.

Lemma chars_segmented l : segmented (chars l).
Proof. apply chars_from_segmented. Qed.

(** Cutting the bytes of characters gives the characters back. *)
Lemma chars_concat l : segmented l → chars (concat l) = l.
Proof.
  unfold chars. induction l as [|ch l IH]; [done|]. intros [Hch Hl].
  destruct ch as [|c t]; [done|]. cbn in Hch |- *.
  destruct Hch as [[Hlen Ht]|[-> Hc]].
  - assert (Hcomplete : complete c (t ++ concat l) = true).
    { unfold complete. rewrite conts_app by done. rewrite length_app.
      apply Nat.leb_le. lia. }
    rewrite Hcomplete. rewrite <- Hlen.
    rewrite take_app_length, chars_from_skip. by rewrite IH.
  - cbn. rewrite Hc. by rewrite IH.
Qed.

Lemma segmented_app l1 l2 : segmented (l1 ++ l2) → segmented l1 ∧ segmented l2.
Proof.
  induction l1 as [|ch l1 IH]; [done|]. cbn. intros [Hch Hl].
  destruct (IH Hl) as [H1 H2]. split; [|done]. split; [|done].
  destruct ch as [|c t]; [done|]. cbn in Hch |- *.
  destruct Hch as [?|[-> Hc]]; [by left|]. right. split; [done|].
  rewrite concat_app in Hc. unfold complete in Hc |- *.
  apply Nat.leb_gt in Hc. apply Nat.leb_gt.
  destruct (conts_prefix (concat l1)) as [r Hr].
  destruct r as [|b r].
  - rewrite app_nil_r in Hr. rewrite Hr in Hc.
    rewrite conts_app in Hc by apply conts_all. rewrite length_app in Hc. lia.
  - (* the continuation bytes of [concat l1] end before its end *)
    assert (Hb : conts (concat l1 ++ concat l2) = conts (concat l1)).
    { clear -Hr. revert r b Hr. induction (concat l1) as [|a x IHx]; intros r b Hr.
      - done.
      - cbn in Hr |- *. destruct (is_cont a) eqn:Ha; [|done].
        cbn in Hr. injection Hr as Hr. f_equal. by eapply IHx. }
    by rewrite Hb in Hc.
Qed.

(** *** The lower-case table *)

Lemma lower_table_settled : forallb (fun kv => settled_outs kv.2) lower_table = true.
Proof. vm_compute. reflexivity. Qed.

Lemma ascii_settled : forallb (fun z => settled (z + 32)) (seqZ 65 26) = true.
Proof. vm_compute. reflexivity. Qed.

Lemma lookup_cp_elem z table outs :
  lookup_cp z table = Some outs → (z, outs) ∈ table.
Proof.
  induction table as [|[k v] table IH]; [done|]. cbn.
  destruct (z =? k) eqn:Hk.
  - intros [= ->]. apply Z.eqb_eq in Hk as ->. apply elem_of_cons. by left.
  - intros H. apply elem_of_cons. right. by apply IH.
Qed.

Lemma lower_cp_settled z outs : lower_cp z = Some outs → settled_outs outs = true.
Proof.
  unfold lower_cp. destruct (z <? 128).
  - destruct ((65 <=? z) && (z <=? 90)) eqn:Hz; [|done]. intros [= <-].
    apply andb_true_iff in Hz as [H1 H2].
    apply Z.leb_le in H1. apply Z.leb_le in H2.
    pose proof ascii_settled as Hall.
    rewrite forallb_forall in Hall.
    assert (Hin : In z (seqZ 65 26)).
    { apply list_elem_of_In, elem_of_seqZ. lia. }
    specialize (Hall z Hin). unfold settled_outs. cbn [forallb]. by rewrite Hall.
  - intros H. apply lookup_cp_elem in H.
    pose proof lower_table_settled as Hall.
    rewrite forallb_forall in Hall.
    by apply (Hall (z, outs)), list_elem_of_In.
Qed.

Lemma code_point_well_formed ch z : code_point ch = Some z → well_formed ch = true.
Proof. unfold code_point. by destruct (well_formed ch). Qed.

Lemma well_formed_unit ch follow : well_formed ch = true → unit_ok ch follow.
Proof.
  destruct ch as [|c t]; [done|]. cbn. intros H.
  apply andb_true_iff in H as [H Ht]. apply andb_true_iff in H as [_ Hlen].
  apply Nat.eqb_eq in Hlen. by left.
Qed.

Lemma well_formed_head ch :
  well_formed ch = true → ∃ c t, ch = c :: t ∧ is_cont c = false.
Proof.
  destruct ch as [|c t]; [done|]. cbn. intros H.
  apply andb_true_iff in H as [H _]. apply andb_true_iff in H as [Hc _].
  exists c, t. split; [done|]. by apply negb_true_iff.
Qed.

Lemma settled_spec o :
  settled o = true →
  well_formed (utf8 o) = true ∧ stable (utf8 o) ∧ js_space (utf8 o) = false.
Proof.
  unfold settled. intros H.
  apply andb_true_iff in H as [H Hws]. apply andb_true_iff in H as [H Hsig].
  apply andb_true_iff in H as [H Hlow]. apply andb_true_iff in H as [Hwf Hcp].
  apply bool_decide_eq_true in Hcp. apply bool_decide_eq_true in Hlow.
  split; [done|]. unfold stable, is_sigma, lower_char, js_space.
  rewrite Hcp. cbn. rewrite Hlow. apply negb_true_iff in Hsig, Hws. done.
Qed.

Lemma final_sigma_settled : settled 962 = true.
Proof. vm_compute. reflexivity. Qed.

Lemma sigma_mapped : lower_cp 931 = Some [963].
Proof. vm_compute. reflexivity. Qed.

Lemma lowered_cases ch out :
  lowered ch out →
  (out = [ch] ∧ stable ch)
  ∨ (out ≠ [] ∧ Forall (fun o => well_formed o = true ∧ stable o ∧ js_space o = false) out).
Proof.
  intros [[_ ->]| ->].
  - right. split; [done|]. apply Forall_singleton, settled_spec, final_sigma_settled.
  - unfold lower_char.
    destruct (code_point ch ≫= lower_cp) as [outs|] eqn:Hlow.
    + right. destruct (code_point ch) as [z|]; [|done]. cbn in Hlow.
      apply lower_cp_settled in Hlow. unfold settled_outs in Hlow.
      apply andb_true_iff in Hlow as [Hne Hall].
      apply negb_true_iff, bool_decide_eq_false in Hne.
      split; [by destruct outs|].
      apply Forall_fmap, Forall_forall. intros o Ho.
      apply settled_spec. rewrite forallb_forall in Hall.
      by apply Hall, list_elem_of_In.
    + left. split; [done|]. split.
      * unfold is_sigma. destruct (code_point ch) as [z|]; [|done].
        cbn in Hlow. destruct (z =? 931) eqn:Hz; [|done].
        apply Z.eqb_eq in Hz as ->. by rewrite sigma_mapped in Hlow.
      * unfold lower_char. by rewrite Hlow.
Qed.

Lemma lower_chars_cons p ch rest :
  ∃ out, lowered ch out
         ∧ lower_chars p (ch :: rest)
           = out ++ lower_chars (if ignorable ch then p else cased ch) rest.
Proof.
  cbn. destruct (is_sigma ch) eqn:Hs; cbn.
  2: { exists (lower_char ch). split; [by right|done]. }
  destruct (p && negb (followed_by_cased rest)).
  - exists [utf8 962]. split; [by left|done].
  - exists (lower_char ch). split; [by right|done].
Qed.

Lemma lowered_stable ch out : lowered ch out → Forall stable out.
Proof.
  intros H. destruct (lowered_cases ch out H) as [[-> Hs]|[_ Hall]].
  - by apply Forall_singleton.
  - eapply Forall_impl; [exact Hall|]. by intros o (_ & ? & _).
Qed.

Lemma lower_chars_stable p l : Forall stable l → lower_chars p l = l.
Proof.
  intros H. revert p. induction H as [|ch l [Hsig Hlow] _ IH]; intros p; [done|].
  cbn. rewrite Hsig, Hlow. cbn. by rewrite IH.
Qed.

Lemma lower_chars_out_stable p l : Forall stable (lower_chars p l).
Proof.
  revert p. induction l as [|ch l IH]; intros p; [constructor|].
  destruct (lower_chars_cons p ch l) as (out & Hout & ->).
  apply Forall_app. split; [by eapply lowered_stable|apply IH].
Qed.

Lemma lower_chars_idemp p q l : lower_chars p (lower_chars q l) = lower_chars q l.
Proof. apply lower_chars_stable, lower_chars_out_stable. Qed.

(** *** Lowering keeps the cut into characters *)

Lemma unit_ok_nonempty ch follow : unit_ok ch follow → ch ≠ [].
Proof. by destruct ch. Qed.

(** A character that starts with a continuation byte is that byte alone,
    and no code point. *)
Lemma cont_unit c t follow :
  is_cont c = true → unit_ok (c :: t) follow → t = [] ∧ code_point [c] = None.
Proof.
  intros Hc Hu.
  assert (Hcp : code_point [c] = None).
  { unfold code_point. cbn. by rewrite Hc. }
  split; [|done]. cbn in Hu. destruct Hu as [[Hlen _]|[-> _]]; [|done].
  unfold is_cont in Hc. apply andb_true_iff in Hc as [_ Hlt].
  unfold trail in Hlen. rewrite Hlt in Hlen. by destruct t.
Qed.

Lemma conts_lower_chars p l :
  segmented l → conts (concat (lower_chars p l)) = conts (concat l).
Proof.
  revert p. induction l as [|ch l IH]; intros p; [done|]. intros [Hch Hl].
  destruct ch as [|c t]; [done|].
  destruct (lower_chars_cons p (c :: t) l) as (out & Hout & ->).
  rewrite concat_app. destruct (is_cont c) eqn:Hc.
  - destruct (cont_unit c t _ Hc Hch) as [-> Hcp].
    assert (Hout' : out = [[c]]).
    { destruct Hout as [[Hs _]| ->].
      - unfold is_sigma in Hs. by rewrite Hcp in Hs.
      - unfold lower_char. by rewrite Hcp. }
    rewrite Hout'. cbn. rewrite Hc. by rewrite IH.
  - assert (Hhead : ∃ b r, concat out = b :: r ∧ is_cont b = false).
    { destruct (lowered_cases _ _ Hout) as [[-> _]|[Hne Hall]].
      - exists c, t. cbn. by rewrite app_nil_r.
      - destruct out as [|o out]; [done|].
        apply Forall_cons in Hall as [(Hwf & _) _].
        apply well_formed_head in Hwf as (b & r & -> & Hb).
        by exists b, (r ++ concat out). }
    destruct Hhead as (b & r & -> & Hb). cbn. by rewrite Hb, Hc.
Qed.

Lemma lowered_segmented ch out follow follow' :
  lowered ch out → unit_ok ch follow → conts follow' = conts follow →
  Forall (fun o => ∀ f, unit_ok o f) out ∨ (out = [ch] ∧ unit_ok ch follow').
Proof.
  intros Hout Hch Hconts.
  destruct (lowered_cases _ _ Hout) as [[-> _]|[_ Hall]].
  - right. split; [done|]. destruct ch as [|c t]; [done|]. cbn in Hch |- *.
    destruct Hch as [?|[-> Hc]]; [by left|]. right. split; [done|].
    unfold complete in *. by rewrite Hconts.
  - left. eapply Forall_impl; [exact Hall|]. intros o (Hwf & _) f.
    by apply well_formed_unit.
Qed.

Lemma segmented_units out l :
  Forall (fun o => ∀ f, unit_ok o f) out → segmented l → segmented (out ++ l).
Proof. induction 1 as [|o out Ho _ IH]; [done|]. intros Hl. cbn. split; [apply Ho|by apply IH]. Qed.

Lemma lower_chars_segmented p l : segmented l → segmented (lower_chars p l).
Proof.
  revert p. induction l as [|ch l IH]; intros p; [done|]. intros [Hch Hl].
  destruct (lower_chars_cons p ch l) as (out & Hout & ->).
  set (p' := if ignorable ch then p else cased ch).
  destruct (lowered_segmented ch out (concat l) (concat (lower_chars p' l)) Hout Hch)
    as [Hall|[-> Hu]].
  - by apply conts_lower_chars.
  - apply segmented_units; [done|]. by apply IH.
  - cbn. split; [done|]. by apply IH.
Qed.

(** *** White space *)

Lemma js_space_code ch :
  js_space ch = true → ∃ z, code_point ch = Some z ∧ z ∈ white_space.
Proof.
  unfold js_space. destruct (code_point ch) as [z|]; [|done]. intros H.
  exists z. split; [done|]. apply existsb_exists in H as (y & Hy & Heq).
  apply Z.eqb_eq in Heq as ->. by apply list_elem_of_In.
Qed.

Lemma white_space_plain :
  forallb (fun z => bool_decide (lower_cp z = None) && negb (z =? 931)
                    && negb (in_ranges z cased_ranges)) white_space = true.
Proof. vm_compute. reflexivity. Qed.

Lemma js_space_plain ch :
  js_space ch = true → stable ch ∧ cased ch = false.
Proof.
  intros H. apply js_space_code in H as (z & Hcp & Hz).
  pose proof white_space_plain as Hall. rewrite forallb_forall in Hall.
  specialize (Hall z (proj1 (list_elem_of_In _ _) Hz)).
  apply andb_true_iff in Hall as [Hall Hcased].
  apply andb_true_iff in Hall as [Hlow Hsig].
  apply bool_decide_eq_true in Hlow. apply negb_true_iff in Hsig, Hcased.
  unfold stable, is_sigma, lower_char, cased. rewrite Hcp. cbn. by rewrite Hlow.
Qed.

Lemma followed_by_spaces l w :
  Forall (fun ch => js_space ch = true) w →
  followed_by_cased (l ++ w) = followed_by_cased l.
Proof.
  intros Hw. induction l as [|ch l IH]; cbn.
  - induction Hw as [|ch w Hch _ IH]; [done|]. cbn.
    destruct (ignorable ch); [done|]. by apply js_space_plain.
  - by rewrite IH.
Qed.

(** White space at the end is left where it is. *)
Lemma lower_chars_spaces_end p l w :
  Forall (fun ch => js_space ch = true) w →
  lower_chars p (l ++ w) = lower_chars p l ++ w.
Proof.
  intros Hw. revert p. induction l as [|ch l IH]; intros p.
  - cbn. apply lower_chars_stable. eapply Forall_impl; [exact Hw|].
    intros ch Hch. by apply js_space_plain.
  - cbn. rewrite followed_by_spaces by done. rewrite IH. by rewrite app_assoc.
Qed.

(** What lowering puts out for a character that is no white space is
    not empty and holds no white space. *)
Lemma lowered_no_space ch out :
  lowered ch out → js_space ch = false →
  out ≠ [] ∧ Forall (fun o => js_space o = false) out.
Proof.
  intros Hout Hch. destruct (lowered_cases _ _ Hout) as [[-> _]|[Hne Hall]].
  - split; [done|]. by apply Forall_singleton.
  - split; [done|]. eapply Forall_impl; [exact Hall|]. by intros o (_ & _ & ?).
Qed.

(** *** Trimming *)

Lemma drop_spaces_idemp l : drop_spaces (drop_spaces l) = drop_spaces l.
Proof.
  induction l as [|c l IH]; [done|]. cbn.
  destruct (js_space c) eqn:Hc; [done|]. cbn. by rewrite Hc.
Qed.

(** Dropping leading spaces keeps a non-space last character last. *)
Lemma drop_spaces_snoc l c :
  js_space c = false → drop_spaces (l ++ [c]) = drop_spaces l ++ [c].
Proof.
  intros Hc. induction l as [|a l IH]; cbn; [by rewrite Hc|].
  by destruct (js_space a).
Qed.

Lemma drop_spaces_length l : (length (drop_spaces l) ≤ length l)%nat.
Proof. induction l as [|a l IH]; cbn; [lia|]. destruct (js_space a); cbn; lia. Qed.

Lemma drop_spaces_rev_fixed l :
  drop_spaces l = l →
  drop_spaces (reverse (drop_spaces (reverse l))) = reverse (drop_spaces (reverse l)).
Proof.
  destruct l as [|c l]; [done|]. rewrite reverse_cons. cbn.
  destruct (js_space c) eqn:Hc.
  - intros Heq. exfalso. pose proof (drop_spaces_length l) as Hlen.
    rewrite Heq in Hlen. cbn in Hlen. lia.
  - intros _. rewrite drop_spaces_snoc by done.
    rewrite reverse_app. cbn. by rewrite Hc.
Qed.

Lemma trim_chars_idemp l : trim_chars (trim_chars l) = trim_chars l.
Proof.
  unfold trim_chars.
  rewrite (drop_spaces_rev_fixed (drop_spaces l)) by apply drop_spaces_idemp.
  by rewrite reverse_involutive, drop_spaces_idemp.
Qed.

(** The leading spaces and the rest. *)
Lemma drop_spaces_split l :
  ∃ w, l = w ++ drop_spaces l ∧ Forall (fun ch => js_space ch = true) w.
Proof.
  induction l as [|c l (w & Hl & Hw)]; [by exists []|]. cbn.
  destruct (js_space c) eqn:Hc.
  - exists (c :: w). split; [by rewrite Hl at 1|]. by constructor.
  - by exists [].
Qed.

Lemma drop_spaces_spaces w l :
  Forall (fun ch => js_space ch = true) w → drop_spaces (w ++ l) = drop_spaces l.
Proof. induction 1 as [|c w Hc _ IH]; [done|]. cbn. by rewrite Hc. Qed.

Lemma drop_end_split l :
  ∃ w, l = drop_end l ++ w ∧ Forall (fun ch => js_space ch = true) w.
Proof.
  destruct (drop_spaces_split (reverse l)) as (w & Hl & Hw).
  exists (reverse w). split.
  - unfold drop_end. rewrite <- reverse_app, <- Hl. by rewrite reverse_involutive.
  - by apply Forall_reverse.
Qed.

Lemma drop_end_spaces l w :
  Forall (fun ch => js_space ch = true) w → drop_end (l ++ w) = drop_end l.
Proof.
  intros Hw. unfold drop_end. rewrite reverse_app.
  rewrite drop_spaces_spaces; [done|]. by apply Forall_reverse.
Qed.

Lemma drop_end_snoc l o : js_space o = false → drop_end (l ++ [o]) = l ++ [o].
Proof.
  intros Ho. unfold drop_end. rewrite reverse_app, reverse_singleton.
  change ([o] ++ reverse l) with (o :: reverse l).
  assert (Hd : drop_spaces (o :: reverse l) = o :: reverse l)
    by (cbn [drop_spaces]; by rewrite Ho).
  by rewrite Hd, reverse_cons, reverse_involutive.
Qed.

Lemma drop_end_last l :
  drop_end l = [] ∨ ∃ l' o, drop_end l = l' ++ [o] ∧ js_space o = false.
Proof.
  unfold drop_end. destruct (drop_spaces (reverse l)) as [|o r] eqn:Hd; [by left|].
  right. exists (reverse r), o. split; [by rewrite reverse_cons|].
  clear -Hd. induction (reverse l) as [|c x IH]; [done|]. cbn in Hd.
  destruct (js_space c) eqn:Hc; [by apply IH|]. by injection Hd as <- _.
Qed.

(** *** Lowering and trimming commute *)

Lemma lower_chars_spaces_start w l :
  Forall (fun ch => js_space ch = true) w →
  lower_chars false (w ++ l) = w ++ lower_chars false l.
Proof.
  induction 1 as [|ch w Hch _ IH]; [done|].
  destruct (js_space_plain ch Hch) as [[Hsig Hlow] Hcased].
  cbn. rewrite Hsig, Hlow, Hcased. cbn. f_equal.
  by destruct (ignorable ch).
Qed.

Lemma lower_chars_head p ch rest :
  js_space ch = false →
  ∃ o r, lower_chars p (ch :: rest) = o :: r ∧ js_space o = false.
Proof.
  intros Hch. destruct (lower_chars_cons p ch rest) as (out & Hout & ->).
  destruct (lowered_no_space _ _ Hout Hch) as [Hne Hall].
  destruct out as [|o out]; [done|]. apply Forall_cons in Hall as [Ho _].
  by exists o, (out ++ lower_chars (if ignorable ch then p else cased ch) rest).
Qed.

Lemma drop_spaces_lower l :
  drop_spaces (lower_chars false l) = lower_chars false (drop_spaces l).
Proof.
  destruct (drop_spaces_split l) as (w & Hl & Hw).
  rewrite Hl at 1. rewrite lower_chars_spaces_start by done.
  rewrite drop_spaces_spaces by done.
  destruct (drop_spaces l) as [|ch rest] eqn:Hd; [done|].
  assert (Hch : js_space ch = false).
  { clear -Hd. induction l as [|c l IH]; [done|]. cbn in Hd.
    destruct (js_space c) eqn:Hc; [by apply IH|]. by injection Hd as <- _. }
  destruct (lower_chars_head false ch rest Hch) as (o & r & -> & Ho).
  cbn. by rewrite Ho.
Qed.

Lemma lower_chars_last p l ch :
  js_space ch = false →
  ∃ r o, lower_chars p (l ++ [ch]) = r ++ [o] ∧ js_space o = false.
Proof.
  intros Hch. revert p. induction l as [|c l IH]; intros p.
  - cbn [app]. destruct (lower_chars_cons p ch []) as (out & Hout & ->).
    cbn [lower_chars]. rewrite app_nil_r.
    destruct (lowered_no_space _ _ Hout Hch) as [Hne Hall].
    destruct (exists_last Hne) as (r & o & ->).
    exists r, o. split; [done|].
    apply Forall_app in Hall as [_ Ho]. by apply (proj1 (Forall_singleton _ _)) in Ho.
  - destruct (lower_chars_cons p c (l ++ [ch])) as (out & _ & Heq).
    change ((c :: l) ++ [ch]) with (c :: (l ++ [ch])). rewrite Heq.
    destruct (IH (if ignorable c then p else cased c)) as (r & o & -> & Ho).
    exists (out ++ r), o. by rewrite app_assoc.
Qed.

Lemma drop_end_lower p l :
  drop_end (lower_chars p l) = lower_chars p (drop_end l).
Proof.
  destruct (drop_end_split l) as (w & Hl & Hw).
  rewrite Hl at 1. rewrite lower_chars_spaces_end by done.
  rewrite drop_end_spaces by done.
  destruct (drop_end_last l) as [->|(l' & ch & -> & Hch)]; [done|].
  destruct (lower_chars_last p l' ch Hch) as (r & o & -> & Ho).
  by apply drop_end_snoc.
Qed.

Lemma trim_chars_lower l :
  trim_chars (lower_chars false l) = lower_chars false (trim_chars l).
Proof.
  change (drop_end (drop_spaces (lower_chars false l))
          = lower_chars false (drop_end (drop_spaces l))).
  by rewrite drop_spaces_lower, drop_end_lower.
Qed.

Lemma drop_spaces_segmented l : segmented l → segmented (drop_spaces l).
Proof.
  destruct (drop_spaces_split l) as (w & Hl & _). intros H.
  rewrite Hl in H. by apply segmented_app in H as [_ ?].
Qed.

Lemma drop_end_segmented l : segmented l → segmented (drop_end l).
Proof.
  destruct (drop_end_split l) as (w & Hl & _). intros H.
  rewrite Hl in H. by apply segmented_app in H as [? _].
Qed.

Lemma trim_chars_segmented l : segmented l → segmented (trim_chars l).
Proof.
  intros H. change (segmented (drop_end (drop_spaces l))).
  by apply drop_end_segmented, drop_spaces_segmented.
Qed.

(** *** [trim] and [toLowerCase] *)

Lemma chars_of_string l :
  segmented l →
  chars (list_ascii_of_string (string_of_list_ascii (concat l))) = l.
Proof.
  intros H. rewrite list_ascii_of_string_of_list_ascii. by apply chars_concat.
Qed.

Lemma toLowerCase_idemp s : toLowerCase (toLowerCase s) = toLowerCase s.
Proof.
  unfold toLowerCase.
  rewrite chars_of_string by apply lower_chars_segmented, chars_segmented.
  by rewrite lower_chars_idemp.
Qed.

Lemma trim_idemp s : trim (trim s) = trim s.
Proof.
  unfold trim.
  rewrite chars_of_string by apply trim_chars_segmented, chars_segmented.
  by rewrite trim_chars_idemp.
Qed.

Lemma trim_toLowerCase s : trim (toLowerCase s) = toLowerCase (trim s).
Proof.
  unfold trim, toLowerCase.
  rewrite chars_of_string by apply lower_chars_segmented, chars_segmented.
  rewrite chars_of_string by apply trim_chars_segmented, chars_segmented.
  by rewrite trim_chars_lower.
Qed.

Lemma string_of_list_ascii_nil l : string_of_list_ascii l = "" → l = [].
Proof. by destruct l. Qed.

Lemma toLowerCase_empty s : toLowerCase s = "" ↔ s = "".
Proof.
  split; [|by intros ->]. unfold toLowerCase. intros H.
  apply string_of_list_ascii_nil in H.
  destruct s as [|c s]; [done|]. exfalso.
  cbn [list_ascii_of_string] in H. unfold chars in H. cbn [chars_from] in H.
  set (first := if complete c (list_ascii_of_string s)
                then c :: take (trail c) (list_ascii_of_string s) else [c]).
  assert (Hcut : ∃ rest, (if complete c (list_ascii_of_string s)
                 then (c :: take (trail c) (list_ascii_of_string s))
                      :: chars_from (trail c) (list_ascii_of_string s)
                 else [c] :: chars_from 0 (list_ascii_of_string s))
                = first :: rest ∧ first ≠ []).
  { subst first. destruct (complete c _); by eexists. }
  destruct Hcut as (rest & Hcut & Hne). rewrite Hcut in H.
  destruct (lower_chars_cons false first rest) as (out & Hout & Heq).
  rewrite Heq, concat_app in H. apply app_eq_nil in H as [H _].
  destruct (lowered_cases _ _ Hout) as [[-> _]|[Hne' Hall]].
  - cbn in H. rewrite app_nil_r in H. done.
  - destruct out as [|o out]; [done|]. apply Forall_cons in Hall as [(Hwf & _) _].
    apply well_formed_head in Hwf as (b & r & -> & _). done.
Qed.

Lemma key_idemp name : Registry.key (Registry.key name) = Registry.key name.
Proof.
  unfold Registry.key.
  by rewrite trim_toLowerCase, trim_idemp, toLowerCase_idemp.
Qed.

(** [trim] and [toLowerCase] beyond ASCII: accented letters, the two
    lower-case sigmas, the dotted capital I, and the white space of
    Unicode (here a no-break space, a byte-order mark and an em space). *)
Example strings_beyond_ascii :
  toLowerCase "SÁBADO, AÇÚCAR" = "sábado, açúcar"
  ∧ toLowerCase "ΟΔΟΣ ΣΟΦΟΣ" = "οδος σοφος"
  ∧ toLowerCase "İ" = "i̇"
  ∧ trim " ﻿ pão de ló  " = "pão de ló"
  ∧ Registry.key " CafÉ " = "café".
Proof. vm_compute. repeat split. Qed.

(** ** Registry: selection, probes and registration *)

Module RegistryFacts.
Import Registry RegistrySpec.

Lemma sort_insert_nonempty x l : sort_insert x l ≠ [].
Proof. destruct l as [|y l]; cbn; [done|]. by destruct (_ <=? _). Qed.

Lemma sort_nil_inv l : sort l = [] → l = [].
Proof.
  destruct l as [|x l]; [done|]. cbn. intros H.
  by apply sort_insert_nonempty in H.
Qed.

(** The head of the sorted healthy instances is the first of the oldest. *)
Lemma sort_filter_head l x rest :
  sort (filter (fun i => healthy i = true) l) = x :: rest →
  ∃ i, oldest_healthy l i x.
Proof.
  revert x rest. induction l as [|a l IH]; intros x rest; [done|].
  rewrite filter_cons. destruct (decide (healthy a = true)) as [Ha|Ha].
  - cbn [sort].
    destruct (sort (filter (fun i => healthy i = true) l)) as [|y r] eqn:Hs.
    + cbn. intros [= <- <-]. exists 0%nat. split; [done|]. split; [done|].
      intros [|j] other Hj Ho.
      * injection Hj as <-. unfold okStamp. lia.
      * exfalso. apply sort_nil_inv in Hs.
        assert (Hin : other ∈ filter (fun i => healthy i = true) l).
        { apply list_elem_of_filter. split; [done|].
          apply list_elem_of_lookup. by exists j. }
        rewrite Hs in Hin. by apply not_elem_of_nil in Hin.
    + destruct (IH y r eq_refl) as (i & Hi & Hy & Hmin).
      cbn [sort_insert]. unfold compare_lastOk.
      destruct (_ <=? _) eqn:Hcmp.
      * apply Z.leb_le in Hcmp. intros [= <- <-].
        exists 0%nat. split; [done|]. split; [done|].
        intros [|j] other Hj Ho.
        -- injection Hj as <-. unfold okStamp. lia.
        -- cbn in Hj. destruct (Hmin j other Hj Ho) as [Hle _].
           unfold okStamp in *. lia.
      * apply Z.leb_gt in Hcmp. intros [= <- <-].
        exists (S i). split; [done|]. split; [done|].
        intros [|j] other Hj Ho.
        -- injection Hj as <-. unfold okStamp. lia.
        -- cbn in Hj. destruct (Hmin j other Hj Ho) as [Hle Hlt].
           split; [done|]. intros Hlt'. apply Hlt. lia.
  - intros Hs. destruct (IH x rest Hs) as (i & Hi & Hx & Hmin).
    exists (S i). split; [done|]. split; [done|].
    intros [|j] other Hj Ho.
    + injection Hj as <-. done.
    + cbn in Hj. destruct (Hmin j other Hj Ho) as [Hle Hlt].
      split; [done|]. intros Hlt'. apply Hlt. lia.
Qed.

Lemma oldest_healthy_unique l i i' inst inst' :
  oldest_healthy l i inst → oldest_healthy l i' inst' → i = i' ∧ inst = inst'.
Proof.
  intros (Hi & Hh & Hmin) (Hi' & Hh' & Hmin').
  assert (i = i') as ->.
  { destruct (Hmin i' inst' Hi' Hh') as [Hle Hlt].
    destruct (Hmin' i inst Hi Hh) as [Hle' Hlt'].
    destruct (Nat.lt_trichotomy i i') as [H|[H|H]]; [|done|].
    - specialize (Hlt' H). lia.
    - specialize (Hlt H). lia. }
  split; [done|]. congruence.
Qed.

Lemma pick_None l : pick l = None ↔ ∀ inst, inst ∈ l → healthy inst = false.
Proof.
  unfold pick. split.
  - destruct (sort _) as [|x r] eqn:Hs; [|done]. intros _ inst Hin.
    apply sort_nil_inv in Hs.
    destruct (healthy inst) eqn:Hh; [|done]. exfalso.
    assert (Hf : inst ∈ filter (fun i => healthy i = true) l)
      by by apply list_elem_of_filter.
    rewrite Hs in Hf. by apply not_elem_of_nil in Hf.
  - intros Hall. destruct (sort _) as [|x r] eqn:Hs; [done|]. exfalso.
    destruct (sort_filter_head _ _ _ Hs) as (i & Hi & Hx & _).
    assert (Hin : x ∈ l) by (apply list_elem_of_lookup; by exists i).
    rewrite (Hall x Hin) in Hx. done.
Qed.

Lemma pick_Some l u :
  pick l = Some u ↔ ∃ i inst, oldest_healthy l i inst ∧ url inst = u.
Proof.
  unfold pick. split.
  - destruct (sort _) as [|x r] eqn:Hs; [done|]. intros [= <-].
    destruct (sort_filter_head _ _ _ Hs) as (i & Hi). by exists i, x.
  - intros (i & inst & Hold & <-).
    destruct (sort _) as [|x r] eqn:Hs.
    + exfalso. apply sort_nil_inv in Hs.
      destruct Hold as (Hi & Hh & _).
      assert (Hf : inst ∈ filter (fun i => healthy i = true) l).
      { apply list_elem_of_filter. split; [done|].
        apply list_elem_of_lookup. by exists i. }
      rewrite Hs in Hf. by apply not_elem_of_nil in Hf.
    + destruct (sort_filter_head _ _ _ Hs) as (i' & Hold').
      by destruct (oldest_healthy_unique _ _ _ _ _ Hold Hold') as [_ ->].
Qed.

Lemma lookup_pick name io st :
  (lookup name io st).1 = pick (instances name (memory (load io st))).
Proof.
  unfold lookup, getList, instances.
  by destruct (memory (load io st) !! key name).
Qed.

(** C6. [lookup(name)] answers with the list of the service as it is
    after [load]: it returns the sentinel ([None]) exactly when no
    instance of the list is healthy, and otherwise the URL of the healthy
    instance with the oldest [lastOk], the first in insertion order among
    equally old ones; that instance is unique. *)
Theorem C6_lookup_picks_oldest_healthy (name : string) (io : LoadIO) (st : State) :
  let l := instances name (memory (load io st)) in
  ((lookup name io st).1 = None ↔ ∀ inst, inst ∈ l → healthy inst = false)
  ∧ (∀ u, (lookup name io st).1 = Some u ↔
          ∃ i inst, oldest_healthy l i inst ∧ url inst = u)
  ∧ (∀ i i' inst inst',
       oldest_healthy l i inst → oldest_healthy l i' inst' → i = i' ∧ inst = inst').
Proof.
  intros l. rewrite lookup_pick. fold l.
  split; [apply pick_None|]. split; [intros u; apply pick_Some|].
  intros i i' inst inst'. apply oldest_healthy_unique.
Qed.

Lemma checkInstance_ok p inst :
  probe_ok (reply p) = true → checkInstance p inst = probed_ok p inst.
Proof. intros H. unfold checkInstance. by rewrite H. Qed.

Lemma checkInstance_failed p inst :
  probe_ok (reply p) = false → checkInstance p inst = probed_failed inst.
Proof. intros H. unfold checkInstance. by rewrite H. Qed.

Lemma checkInstance_url p inst : url (checkInstance p inst) = url inst.
Proof. unfold checkInstance. by destruct (probe_ok _). Qed.

(** C3 (defect of the code). The comment in [checkInstance] takes a
    probe as successful when the service answered a JSON with
    [{status:'ok'}], and so does the specification; the test
    [data.status === 'ok' || data.service] also accepts a body whose
    status is not [ok] but that names a service: at the body
    [{status:'down', service:'item-service'}] the unhealthy instance
    with two failures is healthy again, its counter at zero and both
    time stamps refreshed. *)
Lemma C3_service_field_counts_as_success :
  let data := JObj [("status", JStr "down"); ("service", JStr "item-service")] in
  let inst := {| url := "http://localhost:3003"; healthy := false; fails := Some 2;
                 lastSeen := Some 1000; lastOk := Some 1000; meta := ∅ |} in
  signals_ok data = false
  ∧ checkInstance {| reply := ProbeBody data; seen_at := 5000; ok_at := 5001 |} inst
    = {| url := "http://localhost:3003"; healthy := true; fails := Some 0;
         lastSeen := Some 5000; lastOk := Some 5001; meta := ∅ |}.
Proof. split; reflexivity. Qed.

(** What the code counts as a success: a body that is truthy and either
    has the status [ok] or a truthy [service] property; a success sets
    [healthy], zeroes [fails] and refreshes [lastSeen] and [lastOk].
    Every other probe (transport error, timeout, any other body) counts
    as a failure: [fails] grows by one, [healthy] becomes false once it
    reaches 3, the time stamps stay. *)
Lemma probe_succeeds_on_ok_status_or_service (p : Probe) (inst : Instance) :
  (probe_ok (reply p) = true ↔
     ∃ data, reply p = ProbeBody data ∧ truthy data = true
             ∧ (signals_ok data = true ∨ truthy_opt (prop "service" data) = true))
  ∧ (probe_ok (reply p) = true → checkInstance p inst = probed_ok p inst)
  ∧ (probe_ok (reply p) = false → checkInstance p inst = probed_failed inst)
  ∧ (reply p = ProbeError → checkInstance p inst = probed_failed inst).
Proof.
  split; [|split; [apply checkInstance_ok|split; [apply checkInstance_failed|]]].
  - destruct (reply p) as [|data]; cbn.
    + split; [done|]. by intros (? & ? & _).
    + unfold body_ok, signals_ok. split.
      * intros H. apply andb_true_iff in H as [Ht Hor].
        apply orb_true_iff in Hor. by exists data.
      * intros (d & [= <-] & Ht & Hor).
        apply andb_true_iff. split; [done|]. by apply orb_true_iff.
  - intros H. apply checkInstance_failed. by rewrite H.
Qed.

(** *** Registration *)

Lemma findIndex_Some u l idx :
  findIndex u l = Some idx → ∃ old, l !! idx = Some old ∧ url old = u.
Proof.
  revert idx. induction l as [|a l IH]; intros idx; [done|]. cbn.
  destruct (String.eqb (url a) u) eqn:Heq.
  - intros [= <-]. exists a. split; [done|]. by apply String.eqb_eq.
  - destruct (findIndex u l) as [j|]; [|done]. cbn. intros [= <-].
    destruct (IH j eq_refl) as (old & Hold & Hu). by exists old.
Qed.

Lemma findIndex_None u l :
  findIndex u l = None → ∀ inst, inst ∈ l → url inst ≠ u.
Proof.
  induction l as [|a l IH]; intros Hnone inst Hin.
  - by apply not_elem_of_nil in Hin.
  - cbn in Hnone. destruct (String.eqb (url a) u) eqn:Heq; [done|].
    destruct (findIndex u l); [done|].
    apply elem_of_cons in Hin as [->|Hin]; [by apply String.eqb_neq|by apply IH].
Qed.

(** After [upsert] the list holds a healthy record of [u] stamped [now]. *)
Lemma upsert_registered u now m l :
  ∃ inst, inst ∈ upsert u now m l ∧ url inst = u ∧ healthy inst = true
          ∧ fails inst = Some 0 ∧ lastSeen inst = Some now ∧ lastOk inst = Some now.
Proof.
  unfold upsert. destruct (findIndex u l) as [idx|] eqn:Hidx.
  - destruct (findIndex_Some _ _ _ Hidx) as (old & Hold & Hu).
    exists (heartbeat now m old). split; [|by rewrite <- Hu].
    apply list_elem_of_lookup. exists idx.
    by rewrite list_lookup_alter_eq, Hold.
  - exists (fresh u now m). split; [|done].
    apply elem_of_app. right. by apply list_elem_of_singleton.
Qed.

Lemma load_log_failed io st :
  load_fails io st → log (load io st) = log st ++ [WarnLoad].
Proof.
  unfold load_fails, load, persist. destruct (disk st); intros ->; done.
Qed.

Lemma load_log_fine io st :
  ¬ load_fails io st → log (load io st) = log st.
Proof.
  unfold load_fails, load, persist. destruct (disk st) as [|[d|]].
  - by destruct (init_write_ok io).
  - by destruct (read_ok io).
  - by destruct (read_ok io).
Qed.

(** C7, as stated, fails: when the final [persist] cannot write, the
    call is rejected, and nothing is logged. *)
Lemma C7_register_rejected_counterexample :
  let st := {| memory := ∅; disk := File (Some ∅); log := [] |} in
  let io := {| read_ok := true; init_write_ok := true |} in
  (register "list-service" "http://localhost:3002" ∅ 1000 io false st).1 = Rejected
  ∧ log (register "list-service" "http://localhost:3002" ∅ 1000 io false st).2 = [].
Proof. split; reflexivity. Qed.

(** C7, amended. [register] completes with [true] exactly when its final
    [persist] succeeds, and is rejected when that write fails: only the
    errors of [load] (a file that cannot be read, or cannot be created)
    are logged and swallowed. Whatever the I/O does, the instance is
    registered in memory, healthy, with no failure and stamped [now]; a
    successful call leaves the file equal to the memory. *)
Theorem C7_register_swallows_load_errors_only
    (name u : string) (m : gmap string Json) (now : Z)
    (io : LoadIO) (write_ok : bool) (st : State) :
  let r := register name u m now io write_ok st in
  r.1 = (if write_ok then Returned true else Rejected)
  ∧ (load_fails io st → log r.2 = log st ++ [WarnLoad])
  ∧ (¬ load_fails io st → log r.2 = log st)
  ∧ (write_ok = true → disk r.2 = File (Some (memory r.2)))
  ∧ (∃ inst, inst ∈ instances name (memory r.2) ∧ url inst = u
             ∧ healthy inst = true ∧ fails inst = Some 0
             ∧ lastSeen inst = Some now ∧ lastOk inst = Some now).
Proof.
  intros r. subst r. unfold register, persist.
  destruct write_ok; cbn [fst snd memory disk log].
  - split; [done|]. split; [apply load_log_failed|]. split; [apply load_log_fine|].
    split; [done|]. unfold instances. rewrite lookup_insert_eq. apply upsert_registered.
  - split; [done|]. split; [apply load_log_failed|]. split; [apply load_log_fine|].
    split; [done|]. unfold instances. rewrite lookup_insert_eq. apply upsert_registered.
Qed.

(** *** The health-check cycle *)

Lemma cycleService_eq env n (svcs : Services) :
  cycleService env n svcs !! key n
  = Some (cleanupAged (cleanup_now env n) (probeAll env n (instances n svcs))).
Proof. unfold cycleService. by rewrite lookup_insert_eq. Qed.

Lemma cycleService_ne env n k (svcs : Services) :
  k ≠ key n → cycleService env n svcs !! k = svcs !! k.
Proof. intros Hne. unfold cycleService. by rewrite lookup_insert_ne. Qed.

(** Over distinct normalised names, the loop handles each service once. *)
Lemma cycleServices_lookup env names (svcs : Services) k :
  NoDup names → Forall (fun n => key n = n) names →
  cycleServices env names svcs !! k =
  if decide (k ∈ names)
  then Some (cleanupAged (cleanup_now env k) (probeAll env k (default [] (svcs !! k))))
  else svcs !! k.
Proof.
  unfold cycleServices. revert svcs.
  induction names as [|n names IH]; intros svcs Hnd Hkeys.
  - cbn. case_decide as Hin; [|done]. by apply not_elem_of_nil in Hin.
  - apply NoDup_cons in Hnd as [Hn Hnd].
    inversion Hkeys as [|? ? Hkn Hkeys']; subst. cbn [foldl].
    rewrite IH by done.
    destruct (decide (k = n)) as [->|Hne].
    + rewrite decide_False by done. rewrite decide_True by (apply elem_of_cons; by left).
      rewrite <- Hkn at 1. rewrite cycleService_eq. unfold instances. by rewrite Hkn.
    + rewrite cycleService_ne by by rewrite Hkn.
      destruct (decide (k ∈ names)) as [Hin|Hin].
      * by rewrite decide_True by (apply elem_of_cons; by right).
      * rewrite decide_False; [done|].
        intros [->|?]%elem_of_cons; done.
Qed.

Lemma persist_memory w st : memory (persist w st).2 = memory st.
Proof. unfold persist. by destruct w. Qed.

(** The table a cycle leaves in memory: every list probed, then cleaned. *)
Lemma healthCycle_memory env io w st k :
  normalised (memory (load io st)) →
  memory (healthCycle env io w st) !! k
  = (fun l => cleanupAged (cleanup_now env k) (probeAll env k l))
      <$> memory (load io st) !! k.
Proof.
  intros Hnorm. unfold healthCycle.
  set (st1 := load io st) in *.
  set (st2 := {| memory := _; disk := disk st1; log := log st1 |}).
  assert (Hmem : memory (match persist w st2 with
                         | (Returned _, st3) => st3
                         | (Rejected, st3) => warn WarnHealthLoop st3
                         end) = memory st2).
  { unfold persist. by destruct w. }
  rewrite Hmem. subst st2. cbn [memory].
  rewrite cycleServices_lookup.
  - destruct (memory st1 !! k) as [l|] eqn:Hk.
    + rewrite decide_True; [done|].
      apply list_elem_of_fmap. exists (k, l). split; [done|].
      by apply elem_of_map_to_list.
    + rewrite decide_False; [done|].
      intros ([k' l] & -> & Hin)%list_elem_of_fmap.
      apply elem_of_map_to_list in Hin. cbn in Hk. congruence.
  - apply NoDup_fst_map_to_list.
  - apply Forall_forall. intros n ([k' l] & -> & Hin)%list_elem_of_fmap.
    apply elem_of_map_to_list in Hin. apply Hnorm. by exists l.
Qed.

Lemma healthCycle_disk env io st :
  disk (healthCycle env io true st) = File (Some (memory (healthCycle env io true st))).
Proof. done. Qed.

(** Reading back a file that equals the memory changes no table. *)
Lemma dump_synced io st :
  disk st = File (Some (memory st)) → (dump io st).1 = memory st.
Proof.
  intros Hd. unfold dump, load. rewrite Hd. cbn. by destruct (read_ok io).
Qed.

Lemma elem_of_cleanupAged now l inst :
  inst ∈ cleanupAged now l ↔ now - or_zero (lastSeen inst) ≤ INSTANCE_TTL_MS ∧ inst ∈ l.
Proof. unfold cleanupAged. by rewrite list_elem_of_filter. Qed.

Lemma elem_of_probeAll env n l inst' :
  inst' ∈ probeAll env n l ↔
  ∃ i inst, l !! i = Some inst ∧ inst' = checkInstance (probe env n i (url inst)) inst.
Proof.
  unfold probeAll. rewrite elem_of_lookup_imap.
  split; intros (i & inst & H1 & H2); by exists i, inst.
Qed.

(** C5, as stated, fails: an instance last seen at 0 is older than the
    TTL when the cycle runs at 400000, yet its probe in that cycle
    succeeds and refreshes [lastSeen], so the cycle keeps it and [dump]
    shows it. *)
Lemma C5_probed_instance_kept_counterexample :
  let inst := {| url := "http://localhost:3003"; healthy := true; fails := Some 0;
                 lastSeen := Some 0; lastOk := Some 0; meta := ∅ |} in
  let table : Services := {[ "item-service" := [inst] ]} in
  let st := {| memory := table; disk := File (Some table); log := [] |} in
  let env := {| probe := fun _ _ _ =>
                  {| reply := ProbeBody (JObj [("status", JStr "ok")]);
                     seen_at := 400000; ok_at := 400000 |};
                cleanup_now := fun _ => 400000 |} in
  let io := {| read_ok := true; init_write_ok := true |} in
  INSTANCE_TTL_MS < 400000 - or_zero (lastSeen inst)
  ∧ instances "item-service" (dump io (healthCycle env io true st)).1
    = [ {| url := "http://localhost:3003"; healthy := true; fails := Some 0;
           lastSeen := Some 400000; lastOk := Some 400000; meta := ∅ |} ].
Proof. split; [done|]. vm_compute. reflexivity. Qed.

(** C5, amended. In a table with normalised keys, an instance whose
    probe in a cycle does not succeed and whose [lastSeen] is older than
    the TTL when [cleanupAged] runs for its service is removed by that
    cycle, whatever its [healthy] flag: no record of the cleaned list has
    its URL (URLs being unique in the list), and no record left is older
    than the TTL. When the cycle's [persist] succeeds, a following [dump]
    returns that very table, so the instance is absent from it. *)
Theorem C5_stale_instance_evicted_unless_probed
    (env : CycleEnv) (io : LoadIO) (st : State) (n : string)
    (l : list Instance) (i : nat) (inst : Instance) :
  normalised (memory (load io st)) →
  memory (load io st) !! key n = Some l →
  NoDup (url <$> l) →
  l !! i = Some inst →
  probe_ok (reply (probe env (key n) i (url inst))) = false →
  INSTANCE_TTL_MS < cleanup_now env (key n) - or_zero (lastSeen inst) →
  let st' := healthCycle env io true st in
  (∀ inst', inst' ∈ instances n (memory st') → url inst' ≠ url inst)
  ∧ (∀ inst', inst' ∈ instances n (memory st') →
       cleanup_now env (key n) - or_zero (lastSeen inst') ≤ INSTANCE_TTL_MS)
  ∧ (∀ io', (dump io' st').1 = memory st'
            ∧ ∀ inst', inst' ∈ instances n (dump io' st').1 → url inst' ≠ url inst).
Proof.
  intros Hnorm Hl Hnd Hi Hfail Hstale st'.
  assert (Hlist : instances n (memory st')
                  = cleanupAged (cleanup_now env (key n)) (probeAll env (key n) l)).
  { unfold instances. subst st'. rewrite healthCycle_memory by done. by rewrite Hl. }
  assert (Hgone : ∀ inst', inst' ∈ instances n (memory st') → url inst' ≠ url inst).
  { intros inst' Hin Hurl. rewrite Hlist in Hin.
    apply elem_of_cleanupAged in Hin as [Hfresh Hin].
    apply elem_of_probeAll in Hin as (j & old & Hj & ->).
    rewrite checkInstance_url in Hurl.
    assert (j = i) as ->.
    { eapply NoDup_lookup; [exact Hnd| |].
      - by rewrite list_lookup_fmap, Hj.
      - rewrite list_lookup_fmap, Hi. cbn. by rewrite Hurl. }
    assert (old = inst) as -> by congruence.
    rewrite checkInstance_failed in Hfresh by done. cbn in Hfresh. lia. }
  split; [exact Hgone|]. split.
  - intros inst' Hin. rewrite Hlist in Hin.
    by apply elem_of_cleanupAged in Hin as [Hfresh _].
  - intros io'.
    assert (Hdump : (dump io' st').1 = memory st')
      by (apply dump_synced; subst st'; apply healthCycle_disk).
    split; [done|]. by rewrite Hdump.
Qed.

Lemma C5_stale_instance_evicted_witness :
  let inst := {| url := "http://localhost:3003"; healthy := true; fails := Some 0;
                 lastSeen := Some 0; lastOk := Some 0; meta := ∅ |} in
  let table : Services := {[ "item-service" := [inst] ]} in
  let st := {| memory := table; disk := File (Some table); log := [] |} in
  let env := {| probe := fun _ _ _ =>
                  {| reply := ProbeError; seen_at := 400000; ok_at := 400000 |};
                cleanup_now := fun _ => 400000 |} in
  let io := {| read_ok := true; init_write_ok := true |} in
  Forall (fun inst' => url inst' ≠ "http://localhost:3003")
         (instances "item-service" (memory (healthCycle env io true st)))
  ∧ (dump io (healthCycle env io true st)).1 = memory (healthCycle env io true st).
Proof.
  cbv zeta.
  destruct (C5_stale_instance_evicted_unless_probed
    {| probe := fun _ _ _ => {| reply := ProbeError; seen_at := 400000; ok_at := 400000 |};
       cleanup_now := fun _ => 400000 |}
    {| read_ok := true; init_write_ok := true |}
    {| memory := {[ "item-service" :=
         [ {| url := "http://localhost:3003"; healthy := true; fails := Some 0;
              lastSeen := Some 0; lastOk := Some 0; meta := ∅ |} ] ]};
       disk := File (Some {[ "item-service" :=
         [ {| url := "http://localhost:3003"; healthy := true; fails := Some 0;
              lastSeen := Some 0; lastOk := Some 0; meta := ∅ |} ] ]});
       log := [] |}
    "item-service"
    [ {| url := "http://localhost:3003"; healthy := true; fails := Some 0;
         lastSeen := Some 0; lastOk := Some 0; meta := ∅ |} ]
    0%nat
    {| url := "http://localhost:3003"; healthy := true; fails := Some 0;
       lastSeen := Some 0; lastOk := Some 0; meta := ∅ |})
    as (Hgone & _ & Hdump).
  - intros k [l Hk]. cbn in Hk.
    apply lookup_singleton_Some in Hk as [<- _]. reflexivity.
  - reflexivity.
  - repeat constructor. intros H. by apply not_elem_of_nil in H.
  - reflexivity.
  - reflexivity.
  - reflexivity.
  - split; [by apply Forall_forall|]. apply Hdump.
Defined.

(** *** Three failed probes take an instance out of rotation *)


Lemma getList_instances name (svcs : Services) :
  (getList name svcs).1 = instances name svcs.
Proof. unfold getList, instances. by destruct (svcs !! key name). Qed.

Lemma instances_insert_eq n n' l (svcs : Services) :
  key n' = key n → instances n (<[key n' := l]> svcs) = l.
Proof. intros ->. unfold instances. by rewrite lookup_insert_eq. Qed.

Lemma instances_insert_ne n n' l (svcs : Services) :
  key n' ≠ key n → instances n (<[key n' := l]> svcs) = instances n svcs.
Proof. intros Hne. unfold instances. by rewrite lookup_insert_ne. Qed.

Lemma normalised_insert n l (svcs : Services) :
  normalised svcs → normalised (<[key n := l]> svcs).
Proof.
  intros Hn k Hk. destruct (decide (key n = k)) as [<-|Hne]; [apply key_idemp|].
  rewrite lookup_insert_ne in Hk by done. by apply Hn.
Qed.


Lemma upsert_other u' now m l inst :
  inst ∈ upsert u' now m l → url inst ≠ u' → inst ∈ l.
Proof.
  unfold upsert. destruct (findIndex u' l) as [idx|] eqn:Hidx.
  - destruct (findIndex_Some _ _ _ Hidx) as (old & Hold & Hu).
    intros (j & Hj)%list_elem_of_lookup Hne.
    destruct (decide (idx = j)) as [<-|Hij].
    + rewrite list_lookup_alter_eq, Hold in Hj. injection Hj as <-.
      cbn in Hne. congruence.
    + rewrite list_lookup_alter_ne in Hj by done.
      apply list_elem_of_lookup. by exists j.
  - intros [Hin|Hin%list_elem_of_singleton]%elem_of_app Hne; [done|].
    subst inst. cbn in Hne. congruence.
Qed.

Section Tracking.

Variables n u : string.


Lemma both_load (P : Services → Prop) io st : both P st → both P (load io st).
Proof.
  intros [Hm Hd]. unfold both, load, persist.
  destruct (disk st) as [|[d|]] eqn:Hdisk.
  - destruct (init_write_ok io); cbn; (split; [exact Hm|]);
      intros d' Heq; rewrite ?Hdisk in Heq; by simplify_eq.
  - destruct (read_ok io); cbn; (split; [by auto|]);
      intros d' Heq; rewrite ?Hdisk in Heq; simplify_eq; by auto.
  - destruct (read_ok io); cbn; (split; [exact Hm|]);
      intros d' Heq; rewrite ?Hdisk in Heq; by simplify_eq.
Qed.

(** An operation that rewrites the loaded table and persists it. *)
Lemma both_persist (P : Services → Prop) w st (m : Services) :
  both P st → P m →
  both P (persist w {| memory := m; disk := disk st; log := log st |}).2.
Proof.
  intros [_ Hd] Hm. unfold persist. destruct w; split; cbn; try done.
  intros d [= <-]. done.
Qed.

Lemma both_warn (P : Services → Prop) w st : both P st → both P (warn w st).
Proof. done. Qed.




(** The table after the loop of a cycle over its own keys. *)
Lemma cycle_table_lookup env (svcs : Services) k :
  normalised svcs →
  cycleServices env (map_to_list svcs).*1 svcs !! k
  = (fun l => cleanupAged (cleanup_now env k) (probeAll env k l)) <$> svcs !! k.
Proof.
  intros Hnorm. rewrite cycleServices_lookup.
  - destruct (svcs !! k) as [l|] eqn:Hk.
    + rewrite decide_True; [done|].
      apply list_elem_of_fmap. exists (k, l). split; [done|].
      by apply elem_of_map_to_list.
    + rewrite decide_False; [done|].
      intros ([k' l] & -> & Hin)%list_elem_of_fmap.
      apply elem_of_map_to_list in Hin. cbn in Hk. congruence.
  - apply NoDup_fst_map_to_list.
  - apply Forall_forall. intros n' ([k' l] & -> & Hin)%list_elem_of_fmap.
    apply elem_of_map_to_list in Hin. apply Hnorm. by exists l.
Qed.








End Tracking.




(** *** Well-formed tables are what the registry builds *)

Lemma wellformed_list_nil : wellformed_list [].
Proof. split; [apply NoDup_nil_2|apply Forall_nil_2]. Qed.

Lemma wellformed_list_filter (P : Instance → Prop) `{∀ x, Decision (P x)} l :
  wellformed_list l → wellformed_list (filter P l).
Proof.
  intros [Hnd Hf]. split.
  - eapply sublist_NoDup; [exact Hnd|]. apply fmap_sublist, sublist_filter.
  - apply Forall_forall. intros inst [_ Hin]%list_elem_of_filter.
    by apply (proj1 (Forall_forall _ _) Hf).
Qed.

Lemma upsert_urls_known u now m l idx :
  findIndex u l = Some idx →
  url <$> alter (heartbeat now m) idx l = url <$> l.
Proof.
  intros _. rewrite (list_fmap_alter url (heartbeat now m) id).
  - by apply list_alter_id.
  - by apply Forall_forall.
Qed.

Lemma wellformed_list_upsert u now m l :
  wellformed_list l → wellformed_list (upsert u now m l).
Proof.
  intros [Hnd Hf]. unfold upsert.
  destruct (findIndex u l) as [idx|] eqn:Hidx.
  - split; [by rewrite (upsert_urls_known u)|].
    apply Forall_lookup. intros j inst Hj.
    destruct (decide (idx = j)) as [<-|Hne].
    + rewrite list_lookup_alter_eq in Hj.
      destruct (l !! idx); [|done]. by injection Hj as <-.
    + rewrite list_lookup_alter_ne in Hj by done.
      by apply (proj1 (Forall_lookup _ _) Hf j).
  - split.
    + rewrite fmap_app. apply NoDup_app. split; [done|]. split; [|apply NoDup_singleton].
      intros u' (inst & -> & Hin)%list_elem_of_fmap Hu'%list_elem_of_singleton.
      by apply (findIndex_None _ _ Hidx inst).
    + apply Forall_app. split; [done|]. by apply Forall_singleton.
Qed.

Lemma probeAll_urls env n l : url <$> probeAll env n l = url <$> l.
Proof.
  unfold probeAll. rewrite fmap_imap, <- imap_const.
  apply imap_ext. intros i inst _. cbn. apply checkInstance_url.
Qed.

Lemma checkInstance_fails p inst :
  0 ≤ or_zero (fails inst) → 0 ≤ or_zero (fails (checkInstance p inst)).
Proof. unfold checkInstance. destruct (probe_ok _); cbn; lia. Qed.

Lemma wellformed_list_probeAll env n l :
  wellformed_list l → wellformed_list (probeAll env n l).
Proof.
  intros [Hnd Hf]. split; [by rewrite probeAll_urls|].
  apply Forall_forall. intros inst (i & old & Hi & ->)%elem_of_probeAll.
  apply checkInstance_fails. by apply (proj1 (Forall_lookup _ _) Hf i).
Qed.

Lemma wellformed_insert n l (svcs : Services) :
  wellformed svcs → wellformed_list l → wellformed (<[key n := l]> svcs).
Proof.
  intros [Hn Hl] Hwf. split; [by apply normalised_insert|].
  intros k l' Hk. destruct (decide (key n = k)) as [<-|Hne].
  - rewrite lookup_insert_eq in Hk. by injection Hk as <-.
  - rewrite lookup_insert_ne in Hk by done. by eapply Hl.
Qed.

Lemma wellformed_instances n (svcs : Services) :
  wellformed svcs → wellformed_list (instances n svcs).
Proof.
  intros [_ Hl]. unfold instances.
  destruct (svcs !! key n) as [l|] eqn:Hk; [by eapply Hl|apply wellformed_list_nil].
Qed.

Lemma wellformed_cycle env (svcs : Services) :
  wellformed svcs → wellformed (cycleServices env (map_to_list svcs).*1 svcs).
Proof.
  intros [Hn Hl]. split.
  - intros k Hk. rewrite cycle_table_lookup in Hk by done.
    apply Hn. by apply fmap_is_Some in Hk.
  - intros k l Hk. rewrite cycle_table_lookup in Hk by done.
    destruct (svcs !! k) as [l0|] eqn:Hk0; [|done]. injection Hk as <-.
    apply wellformed_list_filter, wellformed_list_probeAll. by eapply Hl.
Qed.

Lemma wellformed_empty : wellformed ∅.
Proof.
  split.
  - intros k [l Hk]. by rewrite lookup_empty in Hk.
  - intros k l Hk. by rewrite lookup_empty in Hk.
Qed.

(** Every call on the registry keeps memory and file well formed. *)
Lemma step_wellformed e st : both wellformed st → both wellformed (step e st).
Proof.
  intros Hst.
  pose proof (fun io => both_load wellformed io st Hst) as Hload.
  destruct e as [n' u' m now io w|n' u' io w|n' io|io|env io w]; cbn [step].
  - unfold register. set (st1 := load io st).
    assert (Hm : wellformed (<[key n' := upsert u' now m (getList n' (memory st1)).1]>
                               (memory st1))).
    { apply wellformed_insert; [apply Hload|].
      rewrite getList_instances.
      apply wellformed_list_upsert, wellformed_instances, Hload. }
    pose proof (both_persist wellformed w st1 _ (Hload io) Hm) as H2.
    by destruct w.
  - unfold deregister. set (st1 := load io st).
    assert (Hm : wellformed (<[key n' := filter (fun i => url i ≠ u')
                                           (getList n' (memory st1)).1]> (memory st1))).
    { apply wellformed_insert; [apply Hload|].
      rewrite getList_instances.
      apply wellformed_list_filter, wellformed_instances, Hload. }
    pose proof (both_persist wellformed w st1 _ (Hload io) Hm) as H2.
    by destruct w.
  - unfold lookup. set (st1 := load io st).
    destruct (Hload io) as [Hm Hd]. fold st1 in Hm, Hd.
    unfold getList. destruct (memory st1 !! key n') as [l|] eqn:Hl; [by split|].
    split; [|exact Hd]. cbn.
    apply wellformed_insert; [done|apply wellformed_list_nil].
  - apply Hload.
  - unfold healthCycle. set (st1 := load io st).
    destruct (Hload io) as [Hm Hd]. fold st1 in Hm, Hd.
    pose proof (wellformed_cycle env _ Hm) as Hc.
    destruct w; (split; cbn; [done|]); [by intros d [= <-]|exact Hd].
Qed.

Lemma run_wellformed evs : ∀ st, both wellformed st → both wellformed (run evs st).
Proof.
  induction evs as [|e evs IH]; intros st Hst; [done|].
  apply (IH (step e st)). by apply step_wellformed.
Qed.

(** Every state the registry reaches from its initial state is well
    formed, and every well-formed state is one from which any address can
    be tracked. *)
Lemma reachable_wellformed evs : both wellformed (run evs initial).
Proof.
  apply run_wellformed. split; [apply wellformed_empty|done].
Qed.

Lemma wellformed_counted n u (svcs : Services) :
  wellformed svcs → normalised svcs ∧ counted 0 n u svcs.
Proof.
  intros Hwf. split; [apply Hwf|].
  intros inst Hin _. split; [|lia].
  destruct (wellformed_instances n svcs Hwf) as [_ Hf].
  by apply (proj1 (Forall_forall _ _) Hf).
Qed.

Lemma wellformed_tracked n u st : both wellformed st → tracked n u st.
Proof.
  intros [Hm Hd]. split; [by apply wellformed_counted|].
  intros d Hdisk. by apply wellformed_counted, Hd.
Qed.

Lemma reachable_tracked n u evs : tracked n u (run evs initial).
Proof. apply wellformed_tracked, reachable_wellformed. Qed.

End RegistryFacts.

(** ** Gateway: resolution, proxying and aggregation *)

Module GatewayFacts.
Import Gateway.

(** C8, as stated, fails: with no healthy instance in the registry, a
    request for the item-service is given the static fallback address as
    its target; it is not answered with the upstream-unavailable error
    and no failure is counted against the breaker. *)
Lemma C8_fallback_address_counterexample :
  let r := proxied "item-service" 0 (Resolved None) (Resolved None) UpError 0 ∅ in
  target (makeProxy (Resolved None) (Resolved None) "item-service")
  = Some "http://localhost:3003"
  ∧ r.1 = ServerError
  ∧ r.2 !! "item-service" = None.
Proof. repeat split. Qed.

(** C8, amended. For a service that has a fallback address (each of the
    three proxied services has one), a registry that finds no healthy
    instance makes the gateway's [lookup] return that address, and the
    request is handled exactly as a request for which the registry
    resolved that address: the proxy is built with the same options, and
    answer and breaker table are the same, whatever the breaker and the
    upstream do. No failure is counted on account of the missing
    instance. *)
Theorem C8_no_instance_resolves_to_fallback
    (name fallback : string) (now : Z) (up : Upstream) (t_err : Z)
    (breakers : gmap string Breaker.breaker) :
  FALLBACKS !! name = Some fallback →
  lookup (Resolved None) name = Some fallback
  ∧ makeProxy (Resolved None) (Resolved None) name
    = makeProxy (Resolved (Some fallback)) (Resolved (Some fallback)) name
  ∧ target (makeProxy (Resolved None) (Resolved None) name) = Some fallback
  ∧ routed (makeProxy (Resolved None) (Resolved None) name)
    = TargetWrapped (Some fallback)
  ∧ proxied name now (Resolved None) (Resolved None) up t_err breakers
    = proxied name now (Resolved (Some fallback)) (Resolved (Some fallback))
              up t_err breakers.
Proof.
  intros Hf.
  assert (Hsame : lookup (Resolved (Some fallback)) name = Some fallback).
  { cbn. destruct (String.eqb fallback ""); [exact Hf|done]. }
  assert (Hnone : lookup (Resolved None) name = Some fallback) by exact Hf.
  unfold proxied, makeProxy. rewrite Hnone, Hsame. done.
Qed.

Lemma C8_no_instance_resolves_witness :
  lookup (Resolved None) "list-service" = Some "http://localhost:3002"
  ∧ routed (makeProxy (Resolved None) (Resolved None) "list-service")
    = TargetWrapped (Some "http://localhost:3002").
Proof.
  destruct (C8_no_instance_resolves_to_fallback
              "list-service" "http://localhost:3002" 0 UpError 5 ∅)
    as (Hl & _ & _ & Hr & _).
  - reflexivity.
  - split; [exact Hl|exact Hr].
Defined.

Lemma fallbacks_routes :
  FALLBACKS !! "user-service" = Some "http://localhost:3001"
  ∧ FALLBACKS !! "list-service" = Some "http://localhost:3002"
  ∧ FALLBACKS !! "item-service" = Some "http://localhost:3003".
Proof. repeat split. Qed.

Section DashboardFacts.

Context {num : Type}.
Variable num_zero : num.
Variable num_add : num → num → num.
Variable num_truthy : num → bool.
Variable verify : string → option string.

(** C9. For a request whose bearer token [verify] accepts: when the call
    for the lists fails the answer is the upstream error, whatever the
    catalog would do; when it succeeds, the answer carries the user and
    the four figures computed from the lists, the same whether the
    catalog call fails or not, and [catalogCount] is [0] when the catalog
    call fails. *)
Theorem C9_dashboard_lists_required_catalog_optional
    (authorization : option string) (token uid : string) :
  extractBearer authorization = Some token →
  token ≠ "" →
  verify token = Some uid →
  (∀ catalog,
     dashboard num_zero num_add num_truthy verify authorization AxFailed catalog
     = UpstreamFailure)
  ∧ (∀ ls catalog,
       dashboard num_zero num_add num_truthy verify authorization (AxData ls) catalog
       = Dashboard
           {| userId := uid;
              totalLists := Z.of_nat (length ls);
              totalItems := foldl (fun acc l => acc + itemCount l) 0 ls;
              purchasedItems := foldl (fun acc l => acc + purchasedCount l) 0 ls;
              sumEstimated :=
                foldl (fun acc l => num_add acc (estimateOf num_zero num_truthy l))
                      num_zero ls;
              catalogCount := countCatalog catalog |})
  ∧ countCatalog AxFailed = 0.
Proof.
  intros Htok Hne Hver.
  assert (Hpresent : present (extractBearer authorization) = true).
  { rewrite Htok. cbn. by apply negb_true_iff, String.eqb_neq. }
  unfold dashboard. rewrite Hpresent, Htok. cbn. rewrite Hver.
  done.
Qed.

End DashboardFacts.

Lemma C9_dashboard_witness :
  let verify t := if String.eqb t "good" then Some "user-1" else None in
  let ls := [ {| items := Some [ {| purchased := true |}; {| purchased := false |} ];
                 estimatedTotal := Some 1250 |};
              {| items := None; estimatedTotal := None |} ] in
  dashboard 0 Z.add (fun x => negb (x =? 0)) verify (Some "Bearer good") AxFailed AxFailed
  = UpstreamFailure
  ∧ dashboard 0 Z.add (fun x => negb (x =? 0)) verify (Some "Bearer good") (AxData ls) AxFailed
    = Dashboard {| userId := "user-1"; totalLists := 2; totalItems := 2;
                   purchasedItems := 1; sumEstimated := 1250; catalogCount := 0 |}.
Proof.
  cbv zeta.
  destruct (C9_dashboard_lists_required_catalog_optional
              0 Z.add (fun x => negb (x =? 0))
              (fun t => if String.eqb t "good" then Some "user-1" else None)
              (Some "Bearer good") "good" "user-1") as (Hfail & Hok & _).
  - reflexivity.
  - discriminate.
  - reflexivity.
  - split; [apply Hfail|]. rewrite Hok. reflexivity.
Defined.

Lemma sentinel_has_no_data : dataOf (Fulfilled sentinel) = None.
Proof. reflexivity. Qed.

(** C10. For a query that is not empty once trimmed and a request
    without bearer token, the handler throws, whatever the two upstream
    calls would do: the value of the lists branch is the sentinel object,
    whose [data] is [undefined], so [lists.filter] is a call on
    [undefined]; in particular the answer is not [{ items, lists: [] }]. *)
Theorem C10_search_without_token_throws
    (q : string) (authorization : option string) (itemsCall listsCall : Axios Json) :
  trim q ≠ "" →
  present (extractBearer authorization) = false →
  search q authorization itemsCall listsCall = Threw
  ∧ dataOf (Fulfilled sentinel) = None
  ∧ ∀ its, search q authorization itemsCall listsCall ≠ Responded (searchBody its []).
Proof.
  intros Hq Htok.
  assert (Hthrew : search q authorization itemsCall listsCall = Threw).
  { unfold search. rewrite (proj2 (String.eqb_neq _ _) Hq), Htok. done. }
  split; [done|]. split; [done|]. intros its. by rewrite Hthrew.
Qed.

Lemma C10_search_without_token_witness :
  search "arroz" None (AxData (JArr [JObj [("name", JStr "Arroz")]])) AxFailed = Threw
  ∧ search "arroz" (Some "Bearer ") AxFailed AxFailed = Threw.
Proof.
  split.
  - apply (C10_search_without_token_throws "arroz" None); [discriminate|reflexivity].
  - apply (C10_search_without_token_throws "arroz" (Some "Bearer ")); [discriminate|reflexivity].
Defined.

(** The scenarios of the specification, run on the model. *)

(** Three calls to the item-service whose upstream is down: none of
    them reaches the upstream or the breaker, so a fourth call is not
    refused either. *)
Example proxy_scenario :
  let none := Resolved None in
  let call t b := proxied "item-service" t none none UpError t b in
  let b3 := (call 2000 (call 1000 (call 0 ∅).2).2).2 in
  (call 0 ∅).1 = ServerError
  ∧ b3 = ∅
  ∧ (call 3000 b3).1 = ServerError.
Proof. repeat split. Qed.

(** A search with a token and a failing catalog call answers with no
    items and the lists whose name matches, whatever the case. *)
Example search_scenario :
  search "Feira" (Some "Bearer t0k3n") AxFailed
    (AxData (JArr [ JObj [("name", JStr "feira de sabado")];
                    JObj [("name", JStr "Mercado")];
                    JObj [("name", JStr "FEIRA livre")] ]))
  = Responded (JObj [ ("items", JArr []);
                      ("lists", JArr [ JObj [("name", JStr "feira de sabado")];
                                       JObj [("name", JStr "FEIRA livre")] ]) ]).
Proof. reflexivity. Qed.

End GatewayFacts.

(** * Part III: further properties of the code *)

(** ** Registry: registration, removal and selection *)

Module RegistryMore.
Import Registry RegistrySpec RegistryFacts.

Lemma register_memory name u m now io w st :
  memory (register name u m now io w st).2
  = <[key name := upsert u now m (instances name (memory (load io st)))]>
      (memory (load io st)).
Proof.
  unfold register, persist. rewrite getList_instances. by destruct w.
Qed.

Lemma deregister_memory name u io w st :
  memory (deregister name u io w st).2
  = <[key name := filter (fun i => url i ≠ u) (instances name (memory (load io st)))]>
      (memory (load io st)).
Proof.
  unfold deregister, persist. rewrite getList_instances. by destruct w.
Qed.

Lemma register_synced name u m now io st :
  disk (register name u m now io true st).2
  = File (Some (memory (register name u m now io true st).2)).
Proof. done. Qed.

Lemma deregister_synced name u io st :
  disk (deregister name u io true st).2
  = File (Some (memory (deregister name u io true st).2)).
Proof. done. Qed.

(** In a state whose file equals the memory, [load] changes no table. *)
Lemma load_synced io st :
  disk st = File (Some (memory st)) →
  memory (load io st) = memory st ∧ disk (load io st) = disk st.
Proof.
  intros Hd. unfold load. rewrite Hd. destruct (read_ok io); cbn; by rewrite ?Hd.
Qed.

Lemma instances_key n n' (svcs : Services) :
  key n' = key n → instances n' svcs = instances n svcs.
Proof. intros Hk. unfold instances. by rewrite Hk. Qed.

Lemma findIndex_is_Some u l : u ∈ url <$> l → is_Some (findIndex u l).
Proof.
  intros Hin. destruct (findIndex u l) as [idx|] eqn:Hidx; [by eexists|]. exfalso.
  apply list_elem_of_fmap in Hin as (inst & -> & Hin).
  by apply (findIndex_None _ _ Hidx inst).
Qed.

Lemma upsert_urls u now m l :
  url <$> upsert u now m l
  = if decide (u ∈ url <$> l) then url <$> l else (url <$> l) ++ [u].
Proof.
  unfold upsert. destruct (findIndex u l) as [idx|] eqn:Hidx.
  - destruct (findIndex_Some _ _ _ Hidx) as (old & Hold & Hu).
    rewrite decide_True.
    + by apply (upsert_urls_known u).
    + apply list_elem_of_fmap. exists old. split; [done|].
      apply list_elem_of_lookup. by exists idx.
  - rewrite decide_False.
    + by rewrite fmap_app.
    + intros Hin. apply findIndex_is_Some in Hin as [idx Hin]. congruence.
Qed.

(** X1. [register] never duplicates an address: the URLs of the
    service's list after the call are the URLs before it when [u] was
    among them (a heartbeat, in place), and those URLs followed by [u]
    otherwise; the lists of the other services are untouched. This holds
    whether or not the final write succeeds. *)
Theorem register_keeps_one_record_per_url
    (name u : string) (m : gmap string Json) (now : Z)
    (io : LoadIO) (write_ok : bool) (st : State) :
  let before := instances name (memory (load io st)) in
  let st' := (register name u m now io write_ok st).2 in
  url <$> instances name (memory st')
  = (if decide (u ∈ url <$> before) then url <$> before else (url <$> before) ++ [u])
  ∧ (length before ≤ length (instances name (memory st')) ≤ S (length before))%nat
  ∧ ∀ other, key other ≠ key name →
      instances other (memory st') = instances other (memory (load io st)).
Proof.
  intros before st'. subst st'. rewrite register_memory.
  rewrite instances_insert_eq by done. fold before.
  split; [apply upsert_urls|]. split.
  - pose proof (upsert_urls u now m before) as Hu.
    apply (f_equal length) in Hu. rewrite length_fmap in Hu. rewrite Hu.
    destruct (decide _); rewrite ?length_app, !length_fmap; cbn; lia.
  - intros other Hne. by rewrite instances_insert_ne.
Qed.

(** The list [lookup] reads after a call that persisted its table. *)
Lemma lookup_after_synced name io st :
  disk st = File (Some (memory st)) →
  (lookup name io st).1 = pick (instances name (memory st)).
Proof.
  intros Hd. rewrite lookup_pick. by rewrite (proj1 (load_synced io st Hd)).
Qed.

(** What [lookup] picks from a list right after [upsert]. *)
Lemma pick_upsert u now m l :
  is_Some (pick (upsert u now m l))
  ∧ ((∀ inst, inst ∈ l → url inst ≠ u → healthy inst = false) →
     pick (upsert u now m l) = Some u).
Proof.
  destruct (upsert_registered u now m l) as (mine & Hin & Hu & Hh & _).
  split.
  - destruct (pick _) as [v|] eqn:Hp; [by eexists|]. exfalso.
    rewrite (proj1 (pick_None _) Hp mine Hin) in Hh. done.
  - intros Hothers.
    destruct (pick _) as [v|] eqn:Hp.
    + apply pick_Some in Hp as (i & inst & (Hi & Hhi & _) & <-).
      destruct (decide (url inst = u)) as [->|Hne]; [done|]. exfalso.
      assert (Hold : inst ∈ l).
      { eapply upsert_other; [|done]. apply list_elem_of_lookup. by exists i. }
      rewrite (Hothers inst Hold Hne) in Hhi. done.
    + exfalso. rewrite (proj1 (pick_None _) Hp mine Hin) in Hh. done.
Qed.

Lemma lookup_after_register name name' u m now io io' st :
  key name' = key name →
  (lookup name' io' (register name u m now io true st).2).1
  = pick (upsert u now m (instances name (memory (load io st)))).
Proof.
  intros Hk. rewrite lookup_after_synced by apply register_synced.
  rewrite (instances_key name name') by done.
  rewrite register_memory. by rewrite instances_insert_eq.
Qed.

(** X2. After a [register] that persisted, [lookup] of the service,
    under any spelling [name'] of its name with the same key and
    whatever the file system does, returns an address; it returns [u]
    itself when no other instance of the service is healthy. *)
Theorem registered_instance_is_resolvable
    (name name' u : string) (m : gmap string Json) (now : Z)
    (io io' : LoadIO) (st : State) :
  key name' = key name →
  let st' := (register name u m now io true st).2 in
  is_Some (lookup name' io' st').1
  ∧ ((∀ inst, inst ∈ instances name (memory (load io st)) →
        url inst ≠ u → healthy inst = false) →
     (lookup name' io' st').1 = Some u).
Proof.
  intros Hk st'. subst st'. rewrite lookup_after_register by done.
  apply pick_upsert.
Qed.

Lemma registered_instance_is_resolvable_witness :
  let st := {| memory := ∅; disk := NoFile; log := [] |} in
  let io := {| read_ok := true; init_write_ok := false |} in
  let st' := (register "List-Service " "http://localhost:3002" ∅ 1000 io true st).2 in
  (lookup "list-service" io st').1 = Some "http://localhost:3002".
Proof.
  cbv zeta.
  refine (proj2 (registered_instance_is_resolvable
                   "List-Service " "list-service" "http://localhost:3002" ∅ 1000
                   {| read_ok := true; init_write_ok := false |}
                   {| read_ok := true; init_write_ok := false |}
                   {| memory := ∅; disk := NoFile; log := [] |} _) _).
  - reflexivity.
  - intros inst Hin. by apply not_elem_of_nil in Hin.
Defined.

Lemma filter_all {A} (P : A → Prop) `{∀ x, Decision (P x)} (l : list A) :
  (∀ x, x ∈ l → P x) → filter P l = l.
Proof.
  induction l as [|x l IH]; intros Hall; [done|].
  rewrite filter_cons_True by (apply Hall, elem_of_cons; by left).
  f_equal. apply IH. intros y Hy. apply Hall, elem_of_cons. by right.
Qed.

(** X3. [deregister] removes the records of [u] from the service's list
    and nothing else: no record of [u] is left, the other records keep
    their order, a list without [u] is unchanged, and the other services
    are untouched; the call is rejected exactly when its write fails, and
    after a call that persisted [lookup] never returns [u]. *)
Theorem deregister_removes_only_that_url
    (name u : string) (io : LoadIO) (write_ok : bool) (st : State) :
  let before := instances name (memory (load io st)) in
  let r := deregister name u io write_ok st in
  r.1 = (if write_ok then Returned true else Rejected)
  ∧ instances name (memory r.2) = filter (fun i => url i ≠ u) before
  ∧ (∀ inst, inst ∈ instances name (memory r.2) → url inst ≠ u)
  ∧ (u ∉ url <$> before → instances name (memory r.2) = before)
  ∧ (∀ other, key other ≠ key name →
       instances other (memory r.2) = instances other (memory (load io st)))
  ∧ (write_ok = true → ∀ io', (lookup name io' r.2).1 ≠ Some u).
Proof.
  intros before r.
  assert (Hlist : instances name (memory r.2) = filter (fun i => url i ≠ u) before).
  { subst r. rewrite deregister_memory. by rewrite instances_insert_eq. }
  assert (Hgone : ∀ inst, inst ∈ instances name (memory r.2) → url inst ≠ u).
  { intros inst Hin. rewrite Hlist in Hin. by apply list_elem_of_filter in Hin as [? _]. }
  split; [subst r; unfold deregister, persist; by destruct write_ok|].
  split; [done|]. split; [done|]. split; [|split].
  - intros Hnot. rewrite Hlist. apply filter_all.
    intros inst Hin Hu. apply Hnot. apply list_elem_of_fmap. by exists inst.
  - intros other Hne. subst r. rewrite deregister_memory.
    by rewrite instances_insert_ne.
  - intros -> io' Hlook.
    rewrite lookup_after_synced in Hlook by (subst r; apply deregister_synced).
    apply pick_Some in Hlook as (i & inst & (Hi & _) & Hu).
    apply (Hgone inst); [|done]. apply list_elem_of_lookup. by exists i.
Qed.

(** X4. Registering a new address and deregistering it again gives back
    the list the service had: for an address [u] that was not in the
    list, after a [register] that persisted, [deregister] leaves in
    memory exactly the records that were there before, in their order. *)
Theorem register_then_deregister_restores_list
    (name u : string) (m : gmap string Json) (now : Z)
    (io io' : LoadIO) (write_ok : bool) (st : State) :
  u ∉ url <$> instances name (memory (load io st)) →
  let st1 := (register name u m now io true st).2 in
  let st2 := (deregister name u io' write_ok st1).2 in
  instances name (memory st2) = instances name (memory (load io st)).
Proof.
  intros Hnew st1 st2. subst st2. rewrite deregister_memory.
  rewrite instances_insert_eq by done.
  rewrite (proj1 (load_synced io' st1 (register_synced _ _ _ _ _ _))).
  subst st1. rewrite register_memory, instances_insert_eq by done.
  unfold upsert.
  destruct (findIndex u _) as [idx|] eqn:Hidx.
  - exfalso. destruct (findIndex_Some _ _ _ Hidx) as (old & Hold & Hu).
    apply Hnew, list_elem_of_fmap. exists old. split; [done|].
    apply list_elem_of_lookup. by exists idx.
  - rewrite filter_app, (filter_cons_False _ (fresh u now m)) by (cbn; intros H; by apply H).
    rewrite filter_nil, app_nil_r. apply filter_all.
    intros inst Hin. by apply (findIndex_None _ _ Hidx).
Qed.

Lemma register_then_deregister_witness :
  let a := {| url := "http://localhost:4001"; healthy := false; fails := Some 4;
              lastSeen := Some 1000; lastOk := Some 1000; meta := ∅ |} in
  let table : Services := {[ "list-service" := [a] ]} in
  let st := {| memory := table; disk := File (Some table); log := [] |} in
  let io := {| read_ok := true; init_write_ok := true |} in
  instances "list-service"
    (memory (deregister "list-service" "http://localhost:4002" io false
               (register "list-service" "http://localhost:4002" ∅ 5000 io true st).2).2)
  = [a].
Proof.
  cbv zeta.
  apply (register_then_deregister_restores_list
           "list-service" "http://localhost:4002" ∅ 5000
           {| read_ok := true; init_write_ok := true |}
           {| read_ok := true; init_write_ok := true |} false).
  intros Hin. vm_compute in Hin.
  apply list_elem_of_singleton in Hin. discriminate.
Defined.

(** X5. [lookup] does not rotate: it changes neither a time stamp nor a
    health flag, so from a state whose file equals the memory a second
    [lookup] returns what the first returned, whatever the file system
    does at either call, and the file is left as it was. *)
Theorem lookup_twice_same_answer
    (name : string) (io1 io2 : LoadIO) (st : State) :
  disk st = File (Some (memory st)) →
  (lookup name io2 (lookup name io1 st).2).1 = (lookup name io1 st).1
  ∧ disk (lookup name io1 st).2 = disk st.
Proof.
  intros Hd.
  destruct (load_synced io1 st Hd) as [Hm1 Hd1].
  assert (Hdisk : disk (lookup name io1 st).2 = disk st).
  { unfold lookup. by destruct (getList name (memory (load io1 st))). }
  split; [|done].
  rewrite (lookup_pick name io1 st), Hm1.
  rewrite lookup_pick. f_equal.
  assert (Hmem : memory (lookup name io1 st).2 = (getList name (memory st)).2).
  { unfold lookup. rewrite Hm1. by destruct (getList name (memory st)). }
  unfold load. rewrite Hdisk, Hd.
  destruct (read_ok io2); cbn; [done|].
  rewrite Hmem. unfold getList, instances.
  destruct (memory st !! key name) as [l|] eqn:Hl; cbn; [by rewrite Hl|].
  by rewrite lookup_insert_eq.
Qed.

Lemma lookup_twice_same_answer_witness :
  let a := {| url := "http://localhost:4001"; healthy := true; fails := Some 0;
              lastSeen := Some 1000; lastOk := Some 1000; meta := ∅ |} in
  let b := {| url := "http://localhost:4002"; healthy := true; fails := Some 0;
              lastSeen := Some 2000; lastOk := Some 2000; meta := ∅ |} in
  let table : Services := {[ "list-service" := [a; b] ]} in
  let st := {| memory := table; disk := File (Some table); log := [] |} in
  let io := {| read_ok := true; init_write_ok := true |} in
  (lookup "list-service" io (lookup "list-service" io st).2).1
  = Some "http://localhost:4001".
Proof.
  cbv zeta.
  rewrite (proj1 (lookup_twice_same_answer "list-service"
    {| read_ok := true; init_write_ok := true |}
    {| read_ok := true; init_write_ok := true |}
    {| memory := {[ "list-service" :=
         [ {| url := "http://localhost:4001"; healthy := true; fails := Some 0;
              lastSeen := Some 1000; lastOk := Some 1000; meta := ∅ |};
           {| url := "http://localhost:4002"; healthy := true; fails := Some 0;
              lastSeen := Some 2000; lastOk := Some 2000; meta := ∅ |} ] ]};
       disk := File (Some {[ "list-service" :=
         [ {| url := "http://localhost:4001"; healthy := true; fails := Some 0;
              lastSeen := Some 1000; lastOk := Some 1000; meta := ∅ |};
           {| url := "http://localhost:4002"; healthy := true; fails := Some 0;
              lastSeen := Some 2000; lastOk := Some 2000; meta := ∅ |} ] ]});
       log := [] |} eq_refl)).
  reflexivity.
Defined.

(** X6. A registration whose write fails is kept in memory only: the
    file is as [load] left it, and the next call that reads the file
    forgets the registration, so [lookup] answers from the file's table. *)
Theorem failed_register_is_lost_at_next_load
    (name u : string) (m : gmap string Json) (now : Z)
    (io io' : LoadIO) (st : State) (d : Services) :
  disk st = File (Some d) →
  read_ok io' = true →
  let st' := (register name u m now io false st).2 in
  disk st' = File (Some d)
  ∧ memory (load io' st') = d
  ∧ (lookup name io' st').1 = pick (instances name d).
Proof.
  intros Hd Hread st'.
  assert (Hdisk : disk st' = File (Some d)).
  { subst st'. unfold register, persist. cbn. unfold load. rewrite Hd.
    destruct (read_ok io); cbn; by rewrite ?Hd. }
  assert (Hload : memory (load io' st') = d).
  { unfold load. by rewrite Hdisk, Hread. }
  split; [done|]. split; [done|]. by rewrite lookup_pick, Hload.
Qed.

Lemma failed_register_is_lost_witness :
  let st := {| memory := ∅; disk := File (Some ∅); log := [] |} in
  let io := {| read_ok := true; init_write_ok := true |} in
  let st' := (register "item-service" "http://localhost:3003" ∅ 1000 io false st).2 in
  (lookup "item-service" io st').1 = None
  ∧ pick (instances "item-service" (memory st')) = Some "http://localhost:3003".
Proof.
  cbv zeta. split; [|reflexivity].
  destruct (failed_register_is_lost_at_next_load
              "item-service" "http://localhost:3003" ∅ 1000
              {| read_ok := true; init_write_ok := true |}
              {| read_ok := true; init_write_ok := true |}
              {| memory := ∅; disk := File (Some ∅); log := [] |} ∅ eq_refl eq_refl)
    as (_ & _ & Hlook).
  rewrite Hlook. reflexivity.
Defined.

(** *** Probes, cycles and eviction *)

Import RegistrySpecMore.

Lemma probeMany_failed ps : ∀ inst,
  Forall (fun p => probe_ok (reply p) = false) ps →
  or_zero (fails (probeMany ps inst)) = or_zero (fails inst) + Z.of_nat (length ps)
  ∧ healthy (probeMany ps inst)
    = healthy inst && ((length ps =? 0)%nat
                       || (or_zero (fails inst) + Z.of_nat (length ps) <? FAIL_OPEN_AFTER))
  ∧ url (probeMany ps inst) = url inst
  ∧ lastSeen (probeMany ps inst) = lastSeen inst
  ∧ lastOk (probeMany ps inst) = lastOk inst
  ∧ meta (probeMany ps inst) = meta inst.
Proof.
  induction ps as [|p ps IH]; intros inst Hall.
  - cbn. rewrite Z.add_0_r, andb_true_r. done.
  - inversion Hall as [|? ? Hp Hps]; subst.
    unfold probeMany. cbn [foldl]. fold (probeMany ps (checkInstance p inst)).
    destruct (IH (checkInstance p inst) Hps) as (Hf & Hh & Hu & Hs & Ho & Hm).
    rewrite checkInstance_failed in * by done.
    rewrite Hf, Hh, Hu, Hs, Ho, Hm. cbn [probed_failed fails healthy url lastSeen lastOk meta or_zero length].
    split; [lia|]. split; [|done].
    replace (or_zero (fails inst) + 1 + Z.of_nat (length ps))
      with (or_zero (fails inst) + Z.of_nat (S (length ps))) by lia.
    unfold FAIL_OPEN_AFTER.
    destruct (3 <=? or_zero (fails inst) + 1) eqn:H3.
    + apply Z.leb_le in H3. cbn.
      rewrite (proj2 (Z.ltb_ge _ _)) by lia. by rewrite andb_false_r.
    + apply Z.leb_gt in H3. f_equal. cbn [Nat.eqb orb].
      destruct ps as [|q ps']; [|done]. cbn.
      symmetry. apply Z.ltb_lt. lia.
Qed.

(** X7. Hysteresis of the health flag: after a successful probe, an
    instance stays healthy through one or two failed probes and becomes
    unhealthy with the third; the failure counter equals the number of
    failed probes since the success, and the failed probes leave both
    time stamps as the success set them. *)
Theorem health_flag_flips_at_third_failure
    (p0 : Probe) (ps : list Probe) (inst : Instance) :
  probe_ok (reply p0) = true →
  Forall (fun p => probe_ok (reply p) = false) ps →
  let inst' := probeMany ps (checkInstance p0 inst) in
  (healthy inst' = true ↔ (length ps < 3)%nat)
  ∧ or_zero (fails inst') = Z.of_nat (length ps)
  ∧ lastSeen inst' = Some (seen_at p0)
  ∧ lastOk inst' = Some (ok_at p0)
  ∧ url inst' = url inst.
Proof.
  intros Hok Hall inst'.
  destruct (probeMany_failed ps (checkInstance p0 inst) Hall)
    as (Hf & Hh & Hu & Hs & Ho & _).
  fold inst' in Hf, Hh, Hu, Hs, Ho.
  rewrite checkInstance_ok in * by done. cbn in Hf, Hh, Hu, Hs, Ho.
  split; [|done]. rewrite Hh. unfold FAIL_OPEN_AFTER. split.
  - intros [H|H]%orb_true_iff.
    + apply Nat.eqb_eq in H. lia.
    + apply Z.ltb_lt in H. lia.
  - intros Hlt. apply orb_true_iff. right. apply Z.ltb_lt. lia.
Qed.

Lemma health_flag_flips_witness :
  let up := {| reply := ProbeBody (JObj [("status", JStr "ok")]);
               seen_at := 100; ok_at := 101 |} in
  let down := {| reply := ProbeError; seen_at := 0; ok_at := 0 |} in
  let inst := {| url := "http://localhost:3001"; healthy := false; fails := Some 7;
                 lastSeen := None; lastOk := None; meta := ∅ |} in
  healthy (probeMany [down; down] (checkInstance up inst)) = true
  ∧ or_zero (fails (probeMany [down; down; down] (checkInstance up inst))) = 3.
Proof.
  cbv zeta. split.
  - apply (health_flag_flips_at_third_failure
             {| reply := ProbeBody (JObj [("status", JStr "ok")]);
                seen_at := 100; ok_at := 101 |}
             [ {| reply := ProbeError; seen_at := 0; ok_at := 0 |};
               {| reply := ProbeError; seen_at := 0; ok_at := 0 |} ]).
    + reflexivity.
    + by repeat constructor.
    + cbn. lia.
  - reflexivity.
Defined.

(** X8. An instance that answers its probe is kept by the cycle and
    stays selectable: in a table with normalised keys, when the probe of
    the [i]-th instance of service [n] succeeds and [cleanupAged] reads
    the clock no more than the TTL after the probe did, the cycle leaves
    its record in the list, healthy and with no failure, and after a
    cycle that persisted [lookup(n)] returns an address. *)
Theorem answering_instance_survives_cycle
    (env : CycleEnv) (io : LoadIO) (write_ok : bool) (st : State) (n : string)
    (l : list Instance) (i : nat) (inst : Instance) :
  normalised (memory (load io st)) →
  memory (load io st) !! key n = Some l →
  l !! i = Some inst →
  probe_ok (reply (probe env (key n) i (url inst))) = true →
  cleanup_now env (key n) - seen_at (probe env (key n) i (url inst)) ≤ INSTANCE_TTL_MS →
  let st' := healthCycle env io write_ok st in
  probed_ok (probe env (key n) i (url inst)) inst ∈ instances n (memory st')
  ∧ (write_ok = true → ∀ io', is_Some (lookup n io' st').1).
Proof.
  intros Hnorm Hl Hi Hok Hfresh st'.
  assert (Hin : probed_ok (probe env (key n) i (url inst)) inst
                ∈ instances n (memory st')).
  { unfold instances. subst st'. rewrite healthCycle_memory by done. rewrite Hl. cbn.
    apply elem_of_cleanupAged. split; [done|].
    apply elem_of_probeAll. exists i, inst. split; [done|].
    by rewrite checkInstance_ok. }
  split; [done|]. intros -> io'.
  rewrite lookup_after_synced by (subst st'; apply healthCycle_disk).
  destruct (pick _) as [v|] eqn:Hp; [by eexists|]. exfalso.
  pose proof (proj1 (pick_None _) Hp _ Hin) as Hh. done.
Qed.

Lemma answering_instance_survives_witness :
  let inst := {| url := "http://localhost:3003"; healthy := false; fails := Some 9;
                 lastSeen := Some 0; lastOk := Some 0; meta := ∅ |} in
  let table : Services := {[ "item-service" := [inst] ]} in
  let st := {| memory := table; disk := File (Some table); log := [] |} in
  let env := {| probe := fun _ _ _ =>
                  {| reply := ProbeBody (JObj [("service", JStr "item-service")]);
                     seen_at := 400000; ok_at := 400001 |};
                cleanup_now := fun _ => 400002 |} in
  let io := {| read_ok := true; init_write_ok := true |} in
  is_Some (lookup "item-service" io (healthCycle env io true st)).1.
Proof.
  cbv zeta.
  refine (proj2 (answering_instance_survives_cycle
    {| probe := fun _ _ _ =>
         {| reply := ProbeBody (JObj [("service", JStr "item-service")]);
            seen_at := 400000; ok_at := 400001 |};
       cleanup_now := fun _ => 400002 |}
    {| read_ok := true; init_write_ok := true |} true
    {| memory := {[ "item-service" :=
         [ {| url := "http://localhost:3003"; healthy := false; fails := Some 9;
              lastSeen := Some 0; lastOk := Some 0; meta := ∅ |} ] ]};
       disk := File (Some {[ "item-service" :=
         [ {| url := "http://localhost:3003"; healthy := false; fails := Some 9;
              lastSeen := Some 0; lastOk := Some 0; meta := ∅ |} ] ]});
       log := [] |}
    "item-service"
    [ {| url := "http://localhost:3003"; healthy := false; fails := Some 9;
         lastSeen := Some 0; lastOk := Some 0; meta := ∅ |} ]
    0%nat
    {| url := "http://localhost:3003"; healthy := false; fails := Some 9;
       lastSeen := Some 0; lastOk := Some 0; meta := ∅ |} _ _ _ _ _) eq_refl _).
  - intros k [l Hk]. cbn in Hk.
    apply lookup_singleton_Some in Hk as [<- _]. reflexivity.
  - reflexivity.
  - reflexivity.
  - reflexivity.
  - cbn. unfold INSTANCE_TTL_MS. lia.
Defined.

(** X9. A health-check cycle adds nothing: in a table with normalised
    keys it keeps exactly the service keys it found (a service whose
    instances are all evicted keeps an empty list), and the URLs of every
    list after the cycle are a sub-list, in order, of the URLs before. *)
Theorem cycle_keeps_keys_and_adds_no_instance
    (env : CycleEnv) (io : LoadIO) (write_ok : bool) (st : State) :
  normalised (memory (load io st)) →
  let st' := healthCycle env io write_ok st in
  (∀ k, is_Some (memory st' !! k) ↔ is_Some (memory (load io st) !! k))
  ∧ (∀ n, (url <$> instances n (memory st'))
          `sublist_of` (url <$> instances n (memory (load io st)))).
Proof.
  intros Hnorm st'. split.
  - intros k. subst st'. rewrite healthCycle_memory by done. apply fmap_is_Some.
  - intros n. unfold instances. subst st'. rewrite healthCycle_memory by done.
    destruct (memory (load io st) !! key n) as [l|]; cbn; [|done].
    rewrite <- (probeAll_urls env (key n) l).
    apply fmap_sublist. unfold cleanupAged. apply sublist_filter.
Qed.

Lemma cycle_keeps_keys_witness :
  let inst := {| url := "http://localhost:3003"; healthy := true; fails := Some 0;
                 lastSeen := Some 0; lastOk := Some 0; meta := ∅ |} in
  let table : Services := {[ "item-service" := [inst] ]} in
  let st := {| memory := table; disk := File (Some table); log := [] |} in
  let env := {| probe := fun _ _ _ =>
                  {| reply := ProbeError; seen_at := 0; ok_at := 0 |};
                cleanup_now := fun _ => 400000 |} in
  let io := {| read_ok := true; init_write_ok := true |} in
  is_Some (memory (healthCycle env io true st) !! "item-service")
  ∧ instances "item-service" (memory (healthCycle env io true st)) = [].
Proof.
  cbv zeta. split; [|reflexivity].
  refine (proj2 (proj1 (cycle_keeps_keys_and_adds_no_instance
    {| probe := fun _ _ _ => {| reply := ProbeError; seen_at := 0; ok_at := 0 |};
       cleanup_now := fun _ => 400000 |}
    {| read_ok := true; init_write_ok := true |} true
    {| memory := {[ "item-service" :=
         [ {| url := "http://localhost:3003"; healthy := true; fails := Some 0;
              lastSeen := Some 0; lastOk := Some 0; meta := ∅ |} ] ]};
       disk := File (Some {[ "item-service" :=
         [ {| url := "http://localhost:3003"; healthy := true; fails := Some 0;
              lastSeen := Some 0; lastOk := Some 0; meta := ∅ |} ] ]});
       log := [] |} _) "item-service") _).
  - intros k [l Hk]. cbn in Hk.
    apply lookup_singleton_Some in Hk as [<- _]. reflexivity.
  - by eexists.
Defined.

(** X10. Eviction is monotone in time: cleaning a list at [now1] and
    again at a later [now2] gives what cleaning it once at [now2] gives,
    and that is a sub-list, in order, of what was kept at [now1]. *)
Theorem cleanupAged_later_subsumes_earlier (now1 now2 : Z) (l : list Instance) :
  now1 ≤ now2 →
  cleanupAged now2 (cleanupAged now1 l) = cleanupAged now2 l
  ∧ cleanupAged now2 l `sublist_of` cleanupAged now1 l.
Proof.
  intros Hle.
  assert (Heq : cleanupAged now2 (cleanupAged now1 l) = cleanupAged now2 l).
  { unfold cleanupAged. rewrite list_filter_filter.
    apply list_filter_iff. intros inst. split; [by intros [? _]|].
    intros H2. split; [done|]. lia. }
  split; [done|]. rewrite <- Heq. unfold cleanupAged at 1. apply sublist_filter.
Qed.

Lemma cleanupAged_later_subsumes_witness :
  let a := {| url := "a"; healthy := true; fails := Some 0;
              lastSeen := Some 100000; lastOk := None; meta := ∅ |} in
  let b := {| url := "b"; healthy := false; fails := Some 3;
              lastSeen := Some 0; lastOk := None; meta := ∅ |} in
  cleanupAged 400000 (cleanupAged 300000 [a; b]) = cleanupAged 400000 [a; b]
  ∧ cleanupAged 300000 [a; b] = [a; b]
  ∧ cleanupAged 400000 [a; b] = [a].
Proof.
  cbv zeta. split; [|split; reflexivity].
  apply (cleanupAged_later_subsumes_earlier 300000 400000). lia.
Defined.

(** X11. Whatever calls are made on a registry that starts empty and
    without file, and whatever the file system and the probes answer,
    every list of the table in memory holds at most one record per URL
    and no negative failure counter, every key of the table is a
    normalised name, and the same holds of the table in the file. *)
Theorem registry_tables_stay_well_formed (evs : list event) (n : string) :
  let st := run evs initial in
  NoDup (url <$> instances n (memory st))
  ∧ Forall (fun i => 0 ≤ or_zero (fails i)) (instances n (memory st))
  ∧ normalised (memory st)
  ∧ ∀ d, disk st = File (Some d) → wellformed d.
Proof.
  intros st. destruct (reachable_wellformed evs) as [Hm Hd]. fold st in Hm, Hd.
  destruct (wellformed_instances n _ Hm) as [Hnd Hf].
  split; [done|]. split; [done|]. split; [apply Hm|done].
Qed.

(** X12. Service names are compared up to letter case and surrounding
    white space, over all of Unicode as [toLowerCase] and [trim] read
    them: [key] gives the same key for a name, for the name trimmed, for
    the name in lower case and for the key itself, so all of them denote
    the same list of instances. *)
Theorem key_ignores_case_and_outer_space (name : string) :
  key (key name) = key name
  ∧ key (trim name) = key name
  ∧ key (toLowerCase name) = key name
  ∧ ∀ svcs : Services, instances (key name) svcs = instances name svcs.
Proof.
  split; [apply key_idemp|]. split; [|split].
  - unfold key. by rewrite trim_idemp.
  - unfold key. by rewrite trim_toLowerCase, toLowerCase_idemp.
  - intros svcs. apply instances_key, key_idemp.
Qed.
End RegistryMore.

(** ** Circuit breaker: counting, isolation and the periodic check *)

Module BreakerMore.
Import Breaker BreakerFacts BreakerSpecMore.

Lemma count_step name o (st : gmap string breaker) :
  0 ≤ count name st → count name st < MAX_FAILS →
  0 ≤ count name (step o st) ≤ count name st + Z.of_nat (reported name [o]).
Proof.
  unfold count. intros H0 Hlt.
  destruct o as [n now|n|n now]; cbn [step reported].
  - destruct (decide (n = name)) as [->|Hne].
    + unfold canPass. destruct (st !! name) as [b|] eqn:Hb; cbn in *.
      * rewrite (proj2 (Z.ltb_lt _ _) Hlt). cbn. rewrite Hb. cbn. lia.
      * rewrite Hb. cbn. lia.
    + rewrite canPass_other by done. lia.
  - unfold reportSuccess. destruct (decide (n = name)) as [->|Hne].
    + rewrite lookup_insert_eq. cbn. lia.
    + rewrite lookup_insert_ne by done. lia.
  - destruct (decide (n = name)) as [->|Hne].
    + rewrite reportFailure_lookup. cbn. lia.
    + unfold reportFailure. rewrite lookup_insert_ne by done. lia.
Qed.

Lemma reported_cons name o ops :
  reported name (o :: ops) = (reported name [o] + reported name ops)%nat.
Proof. destruct o as [| |n now]; cbn; [done..|]. by destruct (decide _). Qed.

Lemma count_run name ops : ∀ st : gmap string breaker,
  0 ≤ count name st →
  count name st + Z.of_nat (reported name ops) < MAX_FAILS →
  0 ≤ count name (run ops st) ≤ count name st + Z.of_nat (reported name ops).
Proof.
  induction ops as [|o ops IH]; intros st H0 Hlt; [cbn; lia|].
  rewrite reported_cons in *.
  assert (Hstep := count_step name o st H0 ltac:(lia)).
  unfold run. cbn [foldl]. fold (run ops (step o st)).
  specialize (IH (step o st) ltac:(lia) ltac:(lia)). lia.
Qed.

Lemma canPass_below name now (st : gmap string breaker) :
  count name st < MAX_FAILS → canPass name now st = (true, st).
Proof.
  unfold count, canPass. destruct (st !! name) as [b|]; cbn; [|done].
  intros Hlt. by rewrite (proj2 (Z.ltb_lt _ _) Hlt).
Qed.

(** X13. The circuit of a service stays closed as long as fewer than
    three failures were reported for it: from a count of zero (no entry,
    or an entry just reset), after any traffic on the table that holds
    fewer than three failure reports of that service, [canPass] answers
    true at any time and changes nothing. *)
Theorem fewer_than_three_failures_never_block
    (name : string) (ops : list op) (st : gmap string breaker) (now : Z) :
  count name st = 0 →
  (reported name ops < 3)%nat →
  canPass name now (run ops st) = (true, run ops st).
Proof.
  intros H0 Hlt. apply canPass_below.
  pose proof (count_run name ops st) as H. unfold MAX_FAILS in *.
  rewrite H0 in H. lia.
Qed.

Lemma fewer_than_three_failures_witness :
  canPass "item-service" 99
    (run [OpFailure "item-service" 1; OpFailure "list-service" 2;
          OpFailure "list-service" 3; OpSuccess "user-service";
          OpFailure "item-service" 4; OpCanPass "item-service" 5] ∅)
  = (true, run [OpFailure "item-service" 1; OpFailure "list-service" 2;
                OpFailure "list-service" 3; OpSuccess "user-service";
                OpFailure "item-service" 4; OpCanPass "item-service" 5] ∅).
Proof.
  apply fewer_than_three_failures_never_block; [reflexivity|vm_compute; lia].
Defined.

(** X14. After the cooldown the breaker starts from zero: once a check
    made more than 30000 ms after the stamp has passed, the circuit is
    closed again and it takes three new failure reports to open it; with
    fewer, every later check passes. *)
Theorem reopening_takes_three_new_failures
    (name : string) (b : breaker) (st : gmap string breaker)
    (now now' : Z) (ops : list op) :
  st !! name = Some b →
  MAX_FAILS ≤ failures b →
  COOLDOWN_MS < now - or_zero (openedAt b) →
  (reported name ops < 3)%nat →
  let st1 := (canPass name now st).2 in
  (canPass name now st).1 = true
  ∧ st1 !! name = Some closed
  ∧ canPass name now' (run ops st1) = (true, run ops st1).
Proof.
  intros Hb Hge Hcool Hlt st1.
  assert (Hpass : canPass name now st = (true, <[name := closed]> st)).
  { rewrite (canPass_entry _ _ _ _ Hb).
    rewrite (proj2 (Z.ltb_ge _ _) Hge). by rewrite (proj2 (Z.ltb_lt _ _) Hcool). }
  subst st1. rewrite Hpass. cbn [fst snd].
  split; [done|]. split; [by rewrite lookup_insert_eq|].
  assert (H0 : count name (<[name := closed]> st) = 0)
    by (unfold count; by rewrite lookup_insert_eq).
  apply canPass_below.
  pose proof (count_run name ops (<[name := closed]> st)) as H.
  unfold MAX_FAILS in *. rewrite H0 in H. lia.
Qed.

Lemma reopening_takes_three_new_failures_witness :
  let st : gmap string breaker :=
    {[ "item-service" := {| failures := 5; openedAt := Some 1000 |} ]} in
  (canPass "item-service" 31001 st).1 = true
  ∧ (canPass "item-service" 31002
       (run [OpFailure "item-service" 31001; OpFailure "item-service" 31001]
            (canPass "item-service" 31001 st).2)).1 = true.
Proof.
  cbv zeta.
  destruct (reopening_takes_three_new_failures
              "item-service" {| failures := 5; openedAt := Some 1000 |}
              {[ "item-service" := {| failures := 5; openedAt := Some 1000 |} ]}
              31001 31002
              [OpFailure "item-service" 31001; OpFailure "item-service" 31001])
    as (H1 & _ & H2).
  - reflexivity.
  - cbn. unfold MAX_FAILS. lia.
  - cbn. unfold COOLDOWN_MS. lia.
  - vm_compute. lia.
  - split; [exact H1|]. by rewrite H2.
Defined.

Lemma run_other name ops : ∀ st : gmap string breaker,
  Forall (fun o => op_name o ≠ name) ops → run ops st !! name = st !! name.
Proof.
  induction ops as [|o ops IH]; intros st Hall; [done|].
  inversion Hall as [|? ? Ho Hops]; subst.
  unfold run. cbn [foldl]. fold (run ops (step o st)).
  rewrite IH by done. by apply step_other.
Qed.

Lemma canPass_answer name now (st st' : gmap string breaker) :
  st !! name = st' !! name → (canPass name now st).1 = (canPass name now st').1.
Proof.
  intros Heq. unfold canPass. rewrite Heq.
  destruct (st' !! name) as [b|]; [|done].
  destruct (failures b <? MAX_FAILS); [done|]. cbn.
  by destruct (_ <? _).
Qed.

(** X15. The breakers of different services are independent: checks,
    successes and failures of other services never change the entry of
    [name], nor what [canPass name] answers at any time. *)
Theorem breaker_entries_are_independent
    (name : string) (ops : list op) (st : gmap string breaker) :
  Forall (fun o => op_name o ≠ name) ops →
  run ops st !! name = st !! name
  ∧ ∀ now, (canPass name now (run ops st)).1 = (canPass name now st).1.
Proof.
  intros Hall. pose proof (run_other name ops st Hall) as Heq.
  split; [done|]. intros now. by apply canPass_answer.
Qed.

Lemma breaker_entries_are_independent_witness :
  (canPass "user-service" 10
     (run [OpFailure "item-service" 1; OpFailure "item-service" 2;
           OpFailure "item-service" 3; OpCanPass "item-service" 4] ∅)).1 = true
  ∧ (canPass "item-service" 10
       (run [OpFailure "item-service" 1; OpFailure "item-service" 2;
             OpFailure "item-service" 3; OpCanPass "item-service" 4] ∅)).1 = false.
Proof.
  split; [|reflexivity].
  rewrite (proj2 (breaker_entries_are_independent "user-service"
             [OpFailure "item-service" 1; OpFailure "item-service" 2;
              OpFailure "item-service" 3; OpCanPass "item-service" 4] ∅
             ltac:(repeat constructor; discriminate)) 10).
  reflexivity.
Defined.

(** X16. Every failure reported at or beyond the threshold shuts the
    circuit for the next 30000 ms: when the stored count is 2 or more, a
    [reportFailure] at clock reading [t] makes [canPass] answer false,
    and change nothing, at every time up to [t + 30000], and answer true
    after it. *)
Theorem failure_at_threshold_blocks_for_cooldown
    (name : string) (b : breaker) (st : gmap string breaker) (t : Z) :
  st !! name = Some b →
  MAX_FAILS - 1 ≤ failures b →
  let st' := reportFailure name t st in
  (∀ now, now - t ≤ COOLDOWN_MS → canPass name now st' = (false, st'))
  ∧ (∀ now, COOLDOWN_MS < now - t → (canPass name now st').1 = true).
Proof.
  intros Hb Hge st'. unfold MAX_FAILS in Hge.
  assert (Hentry : st' !! name
                   = Some {| failures := failures b + 1; openedAt := Some t |}).
  { subst st'. rewrite reportFailure_lookup, Hb. cbn. unfold MAX_FAILS.
    by rewrite (proj2 (Z.leb_le _ _)) by lia. }
  split; intros now Hnow; rewrite (canPass_entry _ _ _ _ Hentry); cbn;
    unfold MAX_FAILS.
  - rewrite (proj2 (Z.ltb_ge _ _)) by lia.
    by rewrite (proj2 (Z.ltb_ge _ _)) by lia.
  - rewrite (proj2 (Z.ltb_ge _ _)) by lia.
    by rewrite (proj2 (Z.ltb_lt _ _)) by lia.
Qed.

Lemma failure_at_threshold_blocks_witness :
  let st : gmap string breaker :=
    {[ "list-service" := {| failures := 7; openedAt := Some 0 |} ]} in
  (canPass "list-service" 130000 (reportFailure "list-service" 100000 st)).1 = false
  ∧ (canPass "list-service" 130001 (reportFailure "list-service" 100000 st)).1 = true.
Proof.
  cbv zeta.
  destruct (failure_at_threshold_blocks_for_cooldown
              "list-service" {| failures := 7; openedAt := Some 0 |}
              {[ "list-service" := {| failures := 7; openedAt := Some 0 |} ]} 100000)
    as [Hshut Hopen].
  - reflexivity.
  - cbn. unfold MAX_FAILS. lia.
  - split.
    + rewrite Hshut; [done|]. unfold COOLDOWN_MS. lia.
    + apply Hopen. unfold COOLDOWN_MS. lia.
Defined.

Import GatewayMore.

Lemma periodic_step_other health n name (b : gmap string breaker) :
  n ≠ name →
  match health n with
  | HealthUp => reportSuccess n b
  | HealthDown now => reportFailure n now b
  end !! name = b !! name.
Proof.
  intros Hne. destruct (health n).
  - unfold reportSuccess. by rewrite lookup_insert_ne.
  - unfold reportFailure. by rewrite lookup_insert_ne.
Qed.

(** X17. [periodicHealth] makes exactly one report per proxied service
    and touches no other entry: a service whose health request succeeds
    has its circuit closed at once, whatever its entry was, so requests
    pass again without waiting for the cooldown; a service whose request
    fails gets one more failure, stamped and counted as [reportFailure]
    does. *)
Theorem periodicHealth_reports_each_service_once
    (health : string → HealthReply) (breakers : gmap string breaker) (name : string) :
  let after := periodicHealth health breakers in
  (name ∈ names → health name = HealthUp →
     after !! name = Some closed ∧ ∀ now, canPass name now after = (true, after))
  ∧ (name ∈ names → ∀ t, health name = HealthDown t →
       after !! name = reportFailure name t breakers !! name)
  ∧ (name ∉ names → after !! name = breakers !! name).
Proof.
  intros after. subst after. unfold periodicHealth, names. cbn [foldl].
  assert (Hcases : name ∈ names →
            name = "user-service" ∨ name = "list-service" ∨ name = "item-service").
  { unfold names. rewrite !elem_of_cons, elem_of_nil. tauto. }
  split; [|split].
  - intros Hin Hup.
    set (b1 := match health "user-service" with
               | HealthUp => reportSuccess "user-service" breakers
               | HealthDown now => reportFailure "user-service" now breakers
               end).
    set (b2 := match health "list-service" with
               | HealthUp => reportSuccess "list-service" b1
               | HealthDown now => reportFailure "list-service" now b1
               end).
    set (b3 := match health "item-service" with
               | HealthUp => reportSuccess "item-service" b2
               | HealthDown now => reportFailure "item-service" now b2
               end).
    assert (H3 : b3 !! name = Some closed).
    { destruct (Hcases Hin) as [-> | [-> | ->]].
      - subst b3. rewrite periodic_step_other by done.
        subst b2. rewrite periodic_step_other by done.
        subst b1. rewrite Hup. unfold reportSuccess. by rewrite lookup_insert_eq.
      - subst b3. rewrite periodic_step_other by done.
        subst b2. rewrite Hup. unfold reportSuccess. by rewrite lookup_insert_eq.
      - subst b3. rewrite Hup. unfold reportSuccess. by rewrite lookup_insert_eq. }
    split; [done|]. intros now. by rewrite (canPass_entry _ _ _ _ H3).
  - intros Hin t Hdown.
    destruct (Hcases Hin) as [-> | [-> | ->]].
    + rewrite !periodic_step_other by done. by rewrite Hdown.
    + rewrite periodic_step_other by done. rewrite Hdown.
      rewrite !reportFailure_lookup. by rewrite periodic_step_other.
    + rewrite Hdown. rewrite !reportFailure_lookup.
      by rewrite !periodic_step_other.
  - intros Hnot. unfold names in Hnot.
    rewrite !not_elem_of_cons in Hnot. destruct Hnot as (H1 & H2 & H3 & _).
    by rewrite !periodic_step_other.
Qed.

End BreakerMore.

(** ** Gateway: credentials, paths, resolution, proxying and aggregation *)

Module GatewayExtra.
Import Gateway GatewayMore.

(** String concatenation on a literal prefix, unfolded. *)
Ltac unfold_append := cbv beta iota delta [String.append].

Lemma string_of_list_ascii_app l1 l2 :
  string_of_list_ascii (l1 ++ l2)
  = (string_of_list_ascii l1 ++ string_of_list_ascii l2)%string.
Proof.
  induction l1 as [|c l1 IH]; [done|].
  cbn [app string_of_list_ascii]. rewrite IH. done.
Qed.

Lemma is_prefix_split p s :
  is_prefix p s = true → s = p ++ drop (length p) s.
Proof.
  revert s. induction p as [|a p IH]; intros [|b s]; cbn; try done.
  destruct (Ascii.eqb a b) eqn:Hab; [|done].
  apply Ascii.eqb_eq in Hab as ->. intros H. f_equal. by apply IH.
Qed.

(** X18. [extractBearer] and the [Bearer] scheme are inverse to each
    other: the header [Bearer t] gives the token [t], whatever [t] is
    (the empty token included), and a token is only ever extracted from
    a header that is [Bearer ] followed by exactly that token; a request
    without the header, or with another scheme or another case, has no
    token. *)
Theorem extractBearer_inverts_bearer_scheme :
  (∀ t, extractBearer (Some ("Bearer " ++ t)%string) = Some t)
  ∧ (∀ h t, extractBearer h = Some t → h = Some ("Bearer " ++ t)%string)
  ∧ extractBearer None = None
  ∧ (∀ t, extractBearer (Some ("bearer " ++ t)%string) = None).
Proof.
  split; [|split; [|split]].
  - intros t. unfold extractBearer, startsWith. unfold_append. cbn.
    by rewrite drop_0, string_of_list_ascii_of_string.
  - intros [h|] t; [|done]. unfold extractBearer, startsWith. cbn [default from_option].
    destruct (is_prefix _ _) eqn:Hp; [|done]. intros [= <-].
    apply is_prefix_split in Hp. f_equal.
    rewrite <- (string_of_list_ascii_of_string h) at 1.
    rewrite Hp at 1. rewrite string_of_list_ascii_app. unfold_append. done.
  - done.
  - intros t. unfold extractBearer, startsWith. unfold_append. done.
Qed.

Lemma rewritten_is_fixed a rest :
  a ∈ areas → pathRewrite ("/" ++ a ++ rest) = ("/" ++ a ++ rest)%string.
Proof.
  unfold areas. rewrite !elem_of_cons, elem_of_nil.
  intros [-> | [-> | [-> | [-> | []]]]];
    unfold pathRewrite, areas, rewriteAt, startsWith; unfold_append; reflexivity.
Qed.

(** X19. [pathRewrite] removes the gateway prefix and nothing else: a
    path that starts with [/api/] followed by one of the four areas
    loses exactly its [/api], every other path is returned unchanged,
    and rewriting a rewritten path changes nothing. *)
Theorem pathRewrite_strips_the_api_prefix :
  (∀ a rest, a ∈ areas →
     pathRewrite ("/api/" ++ a ++ rest) = ("/" ++ a ++ rest)%string)
  ∧ (∀ p, Forall (fun a => startsWith ("/api/" ++ a) p = false) areas →
          pathRewrite p = p)
  ∧ (∀ p, pathRewrite (pathRewrite p) = pathRewrite p).
Proof.
  split; [|split].
  - intros a rest. unfold areas. rewrite !elem_of_cons, elem_of_nil.
    intros [-> | [-> | [-> | [-> | []]]]];
      unfold pathRewrite, areas, rewriteAt, startsWith, slice; unfold_append; cbn;
      by rewrite drop_0, string_of_list_ascii_of_string.
  - intros p Hall. unfold areas in Hall.
    inversion Hall as [|? ? H1 Hall1]; subst.
    inversion Hall1 as [|? ? H2 Hall2]; subst.
    inversion Hall2 as [|? ? H3 Hall3]; subst.
    inversion Hall3 as [|? ? H4 _]; subst.
    unfold pathRewrite, areas, rewriteAt. by rewrite H1, H2, H3, H4.
  - intros p.
    assert (Hin : ∀ a, a ∈ ["auth"; "users"; "items"; "lists"] → a ∈ areas) by done.
    destruct (startsWith ("/api/" ++ "auth") p) eqn:H1.
    { replace (pathRewrite p) with
        ("/" ++ "auth" ++ slice (String.length ("/api/" ++ "auth")) p)%string
        by (unfold pathRewrite, areas, rewriteAt; by rewrite H1).
      apply rewritten_is_fixed, Hin. rewrite !elem_of_cons. tauto. }
    destruct (startsWith ("/api/" ++ "users") p) eqn:H2.
    { replace (pathRewrite p) with
        ("/" ++ "users" ++ slice (String.length ("/api/" ++ "users")) p)%string
        by (unfold pathRewrite, areas, rewriteAt; by rewrite H1, H2).
      apply rewritten_is_fixed, Hin. rewrite !elem_of_cons. tauto. }
    destruct (startsWith ("/api/" ++ "items") p) eqn:H3.
    { replace (pathRewrite p) with
        ("/" ++ "items" ++ slice (String.length ("/api/" ++ "items")) p)%string
        by (unfold pathRewrite, areas, rewriteAt; by rewrite H1, H2, H3).
      apply rewritten_is_fixed, Hin. rewrite !elem_of_cons. tauto. }
    destruct (startsWith ("/api/" ++ "lists") p) eqn:H4.
    { replace (pathRewrite p) with
        ("/" ++ "lists" ++ slice (String.length ("/api/" ++ "lists")) p)%string
        by (unfold pathRewrite, areas, rewriteAt; by rewrite H1, H2, H3, H4).
      apply rewritten_is_fixed, Hin. rewrite !elem_of_cons. tauto. }
    replace (pathRewrite p) with p
      by (unfold pathRewrite, areas, rewriteAt; by rewrite H1, H2, H3, H4).
    unfold pathRewrite, areas, rewriteAt. by rewrite H1, H2, H3, H4.
Qed.

Lemma names_cases name :
  name ∈ names →
  name = "user-service" ∨ name = "list-service" ∨ name = "item-service".
Proof. unfold names. rewrite !elem_of_cons, elem_of_nil. tauto. Qed.

Lemma fallback_of_route name :
  name ∈ names → ∃ a, FALLBACKS !! name = Some a ∧ a ≠ "".
Proof.
  intros [-> | [-> | ->]]%names_cases; eexists; (split; [reflexivity|done]).
Qed.

(** X20. The gateway always has an address for its three services: for
    each of them [lookup] returns a non-empty address whatever the
    registry does; it is the registry's answer when that is a non-empty
    URL, and the static fallback when the registry answers [null], the
    empty string, or throws. *)
Theorem gateway_lookup_always_resolves_routes (r : RegistryReply) (name : string) :
  name ∈ names →
  ∃ a, lookup r name = Some a
       ∧ a ≠ ""
       ∧ (∀ u, r = Resolved (Some u) → u ≠ "" → a = u)
       ∧ (r = Resolved None ∨ r = Resolved (Some "") ∨ r = LookupThrew →
          FALLBACKS !! name = Some a).
Proof.
  intros Hin. destruct (fallback_of_route name Hin) as (f & Hf & Hne).
  destruct r as [[u|]|]; cbn.
  - destruct (String.eqb u "") eqn:Hu.
    + apply String.eqb_eq in Hu as ->. exists f. rewrite Hf.
      split; [done|]. split; [done|]. split; [by intros u [= <-]|done].
    + apply String.eqb_neq in Hu. exists u.
      split; [done|]. split; [done|]. split; [by intros u' [= <-]|].
      intros [H|[H|H]]; try done. by injection H as ->.
  - exists f. by rewrite Hf.
  - exists f. by rewrite Hf.
Qed.

Lemma gateway_lookup_always_resolves_witness :
  lookup (Resolved (Some "http://10.0.0.7:3002")) "list-service"
  = Some "http://10.0.0.7:3002"
  ∧ lookup LookupThrew "list-service" = Some "http://localhost:3002".
Proof.
  split.
  - destruct (gateway_lookup_always_resolves_routes
                (Resolved (Some "http://10.0.0.7:3002")) "list-service")
      as (a & Ha & _ & Hreg & _).
    + unfold names. rewrite !elem_of_cons. tauto.
    + rewrite Ha. f_equal. by apply Hreg.
  - reflexivity.
Defined.

Lemma canPass_false_unchanged name now (b : gmap string Breaker.breaker) :
  (Breaker.canPass name now b).1 = false → Breaker.canPass name now b = (false, b).
Proof.
  unfold Breaker.canPass. destruct (b !! name) as [e|]; [|done].
  destruct (Breaker.failures e <? Breaker.MAX_FAILS); [done|]. cbn.
  by destruct (_ <? _).
Qed.

Lemma lookup_on_route r name : name ∈ names → is_Some (lookup r name).
Proof.
  intros Hin. destruct (fallback_of_route name Hin) as (f & Hf & _).
  destruct r as [[u|]|]; cbn; rewrite ?Hf; [|by eexists..].
  destruct (String.eqb u ""); by eexists.
Qed.
Import BreakerSpecMore.

(** The router's answer is no target the library can use. *)
Lemma router_answer_not_forwarded r1 r2 name :
  forwards_to (routed (makeProxy r1 r2 name)) = None.
Proof. reflexivity. Qed.

Lemma proxied_table name now r1 r2 up t (b : gmap string Breaker.breaker) :
  proxied name now r1 r2 up t b
  = (if (Breaker.canPass name now b).1 then ServerError else CircuitOpen,
     (Breaker.canPass name now b).2).
Proof.
  unfold proxied. rewrite router_answer_not_forwarded.
  by destruct (Breaker.canPass name now b) as [[] b1].
Qed.

(** X21. No request on a proxied route reaches an upstream or reports to
    the breaker: the [router] of [makeProxy] answers with the object
    [{ target: url }], which the proxy library cannot use as a target,
    so a request that passes [guard] is answered with the 500 of express
    and a request that does not with the 503; the breaker table is what
    [canPass] left, and neither the registry's answers nor the state of
    the upstream change the outcome. *)
Theorem proxied_request_never_reaches_upstream
    (name : string) (now t : Z) (r1 r2 : RegistryReply) (up : Upstream)
    (breakers : gmap string Breaker.breaker) :
  let r := proxied name now r1 r2 up t breakers in
  forwards_to (routed (makeProxy r1 r2 name)) = None
  ∧ r.1 = (if (Breaker.canPass name now breakers).1 then ServerError else CircuitOpen)
  ∧ r.2 = (Breaker.canPass name now breakers).2
  ∧ (∀ a status, r.1 ≠ Relayed a status ∧ r.1 ≠ BadGateway a)
  ∧ (∀ r1' r2' up' t', proxied name now r1' r2' up' t' breakers = r).
Proof.
  intros r. subst r. rewrite proxied_table. cbn [fst snd].
  split; [done|]. split; [done|]. split; [done|]. split.
  - intros a status. by destruct (Breaker.canPass name now breakers).1.
  - intros r1' r2' up' t'. by rewrite proxied_table.
Qed.

(** A request refused by the breaker changes nothing and reaches
    nobody: when [canPass] answers false, the answer is the circuit-open
    error and the breaker table is left as it was, whatever the registry
    and the upstream would have done. *)
Lemma refused_request_changes_nothing
    (name : string) (now t : Z) (r1 r2 : RegistryReply) (up : Upstream)
    (breakers : gmap string Breaker.breaker) :
  (Breaker.canPass name now breakers).1 = false →
  proxied name now r1 r2 up t breakers = (CircuitOpen, breakers).
Proof.
  intros Hno. unfold proxied. by rewrite (canPass_false_unchanged _ _ _ Hno).
Qed.

Lemma canPass_count name n now (b : gmap string Breaker.breaker) :
  count name (Breaker.canPass n now b).2 ≤ count name b
  ∧ (count name b < Breaker.MAX_FAILS →
     (Breaker.canPass n now b).2 !! name = b !! name).
Proof.
  unfold Breaker.canPass, count.
  destruct (b !! n) as [e|] eqn:He; cbn [snd]; [|split; [lia|done]].
  destruct (Breaker.failures e <? Breaker.MAX_FAILS) eqn:Hlow;
    cbn [snd]; [split; [lia|done]|].
  apply Z.ltb_ge in Hlow.
  destruct (Breaker.COOLDOWN_MS <? now - or_zero (Breaker.openedAt e));
    cbn [snd]; [|split; [lia|done]].
  destruct (decide (n = name)) as [->|Hne].
  - rewrite lookup_insert_eq, He. cbn. unfold Breaker.MAX_FAILS in *.
    split; lia.
  - rewrite lookup_insert_ne by done. split; [lia|done].
Qed.

Lemma serve_table q (b : gmap string Breaker.breaker) :
  (serve q b).2 = (Breaker.canPass (route q) (arrival q) b).2.
Proof. unfold serve. by rewrite proxied_table. Qed.

(** X22. Proxied traffic alone never opens a circuit: whatever requests
    are served, for whatever services, and whatever registry and
    upstreams do, the stored failure count of a service never grows; the
    entry of a service below the threshold stays as it is, and every
    request on its route is let through by [guard] and answered with the
    500, the table unchanged. *)
Theorem proxied_traffic_never_opens_a_circuit
    (qs : list Request) (breakers : gmap string Breaker.breaker) (name : string) :
  count name (serveAll qs breakers) ≤ count name breakers
  ∧ (count name breakers < Breaker.MAX_FAILS →
     serveAll qs breakers !! name = breakers !! name
     ∧ ∀ q, route q = name →
         serve q (serveAll qs breakers) = (ServerError, serveAll qs breakers)).
Proof.
  assert (Hrun : ∀ b, count name (serveAll qs b) ≤ count name b
                      ∧ (count name b < Breaker.MAX_FAILS →
                         serveAll qs b !! name = b !! name)).
  { induction qs as [|q qs IH]; intros b.
    { unfold serveAll. cbn [foldl]. split; [lia|done]. }
    unfold serveAll in *. cbn [foldl]. rewrite serve_table.
    destruct (canPass_count name (route q) (arrival q) b) as [Hle Hsame].
    destruct (IH (Breaker.canPass (route q) (arrival q) b).2) as [IHle IHsame].
    split; [lia|]. intros Hlow. rewrite IHsame.
    - by apply Hsame.
    - unfold count in *. rewrite (Hsame Hlow). exact Hlow. }
  destruct (Hrun breakers) as [Hle Hsame]. split; [done|].
  intros Hlow. split; [by apply Hsame|]. intros q <-.
  unfold serve. rewrite proxied_table.
  assert (Hc : count (route q) (serveAll qs breakers) < Breaker.MAX_FAILS)
    by lia.
  unfold Breaker.canPass. unfold count in Hc.
  destruct (serveAll qs breakers !! route q) as [e|]; [|done].
  cbn in Hc. by rewrite (proj2 (Z.ltb_lt _ _) Hc).
Qed.

Section DashboardFigures.

Context {num : Type}.
Variable num_zero : num.
Variable num_add : num → num → num.
Variable num_truthy : num → bool.
Variable verify : string → option string.

Lemma purchasedCount_bounds (l : ShoppingList (num := num)) :
  0 ≤ purchasedCount l ≤ itemCount l.
Proof.
  unfold purchasedCount, itemCount. destruct (items l) as [its|]; cbn; [|lia].
  pose proof (length_filter (fun i => purchased i = true) its). lia.
Qed.

Lemma foldl_counts (f g : ShoppingList (num := num) → Z) ls : ∀ a b,
  (∀ l, 0 ≤ f l ≤ g l) → 0 ≤ a ≤ b →
  0 ≤ foldl (fun acc l => acc + f l) a ls ≤ foldl (fun acc l => acc + g l) b ls.
Proof.
  induction ls as [|l ls IH]; intros a b Hfg Hab; cbn; [done|].
  apply IH; [done|]. specialize (Hfg l). lia.
Qed.

(** X23. The figures of the dashboard are consistent: whenever the
    handler answers with a summary, the number of purchased items is
    between zero and the total number of items, and the numbers of lists
    and of catalog items are not negative. *)
Theorem dashboard_figures_are_consistent
    (authorization : option string) (lists : Axios (list ShoppingList))
    (catalog : Axios Json) (body : Summary) :
  dashboard num_zero num_add num_truthy verify authorization lists catalog
    = Dashboard body →
  0 ≤ purchasedItems body ≤ totalItems body
  ∧ 0 ≤ totalLists body
  ∧ 0 ≤ catalogCount body.
Proof.
  unfold dashboard.
  destruct (present _); [|done].
  destruct (verify _) as [uid|]; [|done].
  destruct lists as [ls|]; [|done]. intros [= <-]. cbn.
  split; [|split].
  - apply foldl_counts; [apply purchasedCount_bounds|lia].
  - lia.
  - unfold countCatalog. destruct catalog as [[]|]; lia.
Qed.

End DashboardFigures.

Lemma dashboard_figures_witness :
  let body := {| userId := "user-1"; totalLists := 1; totalItems := 2;
                 purchasedItems := 1; sumEstimated := 1250; catalogCount := 3 |} in
  0 ≤ purchasedItems body ≤ totalItems body
  ∧ 0 ≤ totalLists body
  ∧ 0 ≤ catalogCount body.
Proof.
  cbv zeta.
  exact (dashboard_figures_are_consistent 0 Z.add (fun x => negb (x =? 0))
           (fun t => if String.eqb t "good" then Some "user-1" else None)
           (Some "Bearer good")
           (AxData [ {| items := Some [ {| purchased := true |}; {| purchased := false |} ];
                        estimatedTotal := Some 1250 |} ])
           (AxData (JArr [JNull; JNull; JNull]))
           {| userId := "user-1"; totalLists := 1; totalItems := 2;
              purchasedItems := 1; sumEstimated := 1250; catalogCount := 3 |}
           eq_refl).
Defined.

Lemma filterMatches_Some q ls : ∀ kept,
  filterMatches q ls = Some kept →
  kept `sublist_of` ls
  ∧ ∀ l, l ∈ ls → (l ∈ kept ↔ nameMatches q l = Some true).
Proof.
  induction ls as [|x ls IH]; intros kept; cbn.
  - intros [= <-]. split; [done|]. intros l Hl. by apply not_elem_of_nil in Hl.
  - destruct (nameMatches q x) as [keep|] eqn:Hx; [|done].
    destruct (filterMatches q ls) as [kept'|]; [|done].
    destruct (IH kept' eq_refl) as [Hsub Hiff].
    assert (Hmatch : ∀ l, l ∈ kept' → nameMatches q l = Some true).
    { intros l Hl. apply Hiff; [|done]. by eapply elem_of_sublist. }
    intros [= <-]. destruct keep.
    + split; [by apply sublist_skip|].
      intros l. rewrite !elem_of_cons. intros [->|Hl].
      * split; [done|]. by left.
      * rewrite (Hiff l Hl). split; [|tauto].
        intros [->|H]; done.
    + split; [by apply sublist_cons|].
      intros l. rewrite elem_of_cons. intros [->|Hl].
      * split; [|congruence]. intros Hin. rewrite (Hmatch x Hin) in Hx. done.
      * by apply Hiff.
Qed.

Lemma filterMatches_None q ls :
  filterMatches q ls = None → ∃ l, l ∈ ls ∧ nameMatches q l = None.
Proof.
  induction ls as [|x ls IH]; cbn; [done|].
  destruct (nameMatches q x) as [keep|] eqn:Hx.
  - destruct (filterMatches q ls) as [kept'|]; [done|]. intros _.
    destruct (IH eq_refl) as (l & Hl & Hn). exists l. split; [|done].
    apply elem_of_cons. by right.
  - intros _. exists x. split; [|done]. apply elem_of_cons. by left.
Qed.

(** X24. With a token the search is best effort: for a query that is
    not blank, a failed items call contributes an empty items array and a
    failed lists call an empty lists array, the request still being
    answered; and when the lists call gives an array, the answer holds,
    in their order, exactly the lists whose name contains the trimmed
    query up to case, unless reading the name of some element throws. *)
Theorem search_with_token_is_best_effort
    (q : string) (authorization : option string) (itemsCall : Axios Json) :
  trim q ≠ "" →
  present (extractBearer authorization) = true →
  search q authorization itemsCall AxFailed
    = Responded (searchBody (dataOf (settle itemsCall)) [])
  ∧ dataOf (settle AxFailed) = Some (JArr [])
  ∧ ∀ ls,
      match search q authorization itemsCall (AxData (JArr ls)) with
      | Responded body =>
          ∃ kept, body = searchBody (dataOf (settle itemsCall)) kept
                  ∧ kept `sublist_of` ls
                  ∧ ∀ l, l ∈ ls → (l ∈ kept ↔ nameMatches (trim q) l = Some true)
      | Threw => ∃ l, l ∈ ls ∧ nameMatches (trim q) l = None
      end.
Proof.
  intros Hq Htok. unfold search.
  rewrite (proj2 (String.eqb_neq _ _) Hq), Htok. cbn [settle dataOf].
  split; [done|]. split; [done|]. intros ls. cbn.
  destruct (filterMatches (trim q) ls) as [kept|] eqn:Hf.
  - exists kept. split; [done|]. by apply filterMatches_Some.
  - by apply filterMatches_None.
Qed.

Lemma search_with_token_witness :
  search " Feira " (Some "Bearer t0k3n") AxFailed AxFailed
  = Responded (JObj [("items", JArr []); ("lists", JArr [])]).
Proof.
  apply (search_with_token_is_best_effort " Feira " (Some "Bearer t0k3n") AxFailed);
    [discriminate|reflexivity].
Defined.

Example search_folds_accents :
  search "SÁBADO" (Some "Bearer t0k3n") AxFailed
    (AxData (JArr [ JObj [("name", JStr "Feira de sábado")];
                    JObj [("name", JStr "Mercado")] ]))
  = Responded (JObj [ ("items", JArr []);
                      ("lists", JArr [ JObj [("name", JStr "Feira de sábado")] ]) ]).
Proof. vm_compute. reflexivity. Qed.
End GatewayExtra.

(** ** Registry and gateway together *)

Module SystemFacts.
Import Registry RegistrySpec RegistryFacts RegistryMore.

(** X25. The gateway reaches a service where it registered: after a
    [register] of the non-empty address [u] that persisted, and when no
    other instance of the service is healthy, the gateway's [lookup]
    (under any spelling of the name with the same key) resolves to [u]
    and not to the static fallback; and whenever every instance of a
    service is unhealthy, or it has none, the gateway resolves to the
    fallback of the name. *)
Theorem gateway_resolves_through_the_registry
    (name name' u : string) (m : gmap string Json) (now : Z)
    (io io' : LoadIO) (st : State) :
  key name' = key name →
  u ≠ "" →
  (∀ inst, inst ∈ instances name (memory (load io st)) →
     url inst ≠ u → healthy inst = false) →
  Gateway.lookup
    (Gateway.Resolved (lookup name' io' (register name u m now io true st).2).1) name'
  = Some u
  ∧ ∀ st0,
      (∀ inst, inst ∈ instances name' (memory (load io' st0)) → healthy inst = false) →
      Gateway.lookup (Gateway.Resolved (lookup name' io' st0).1) name'
      = Gateway.FALLBACKS !! name'.
Proof.
  intros Hk Hu Hothers. split.
  - rewrite lookup_after_register by done.
    rewrite (proj2 (pick_upsert u now m _) Hothers). cbn.
    by rewrite (proj2 (String.eqb_neq _ _) Hu).
  - intros st0 Hall. rewrite lookup_pick.
    by rewrite (proj2 (pick_None _) Hall).
Qed.

Lemma gateway_resolves_through_the_registry_witness :
  let st := {| memory := ∅; disk := NoFile; log := [] |} in
  let io := {| read_ok := true; init_write_ok := true |} in
  Gateway.lookup
    (Gateway.Resolved
       (lookup "list-service" io
          (register "list-service" "http://10.0.0.7:3002" ∅ 1000 io true st).2).1)
    "list-service"
  = Some "http://10.0.0.7:3002".
Proof.
  cbv zeta.
  refine (proj1 (gateway_resolves_through_the_registry
                   "list-service" "list-service" "http://10.0.0.7:3002" ∅ 1000
                   {| read_ok := true; init_write_ok := true |}
                   {| read_ok := true; init_write_ok := true |}
                   {| memory := ∅; disk := NoFile; log := [] |} eq_refl _ _)).
  - discriminate.
  - intros inst Hin. by apply not_elem_of_nil in Hin.
Defined.

End SystemFacts.

(** ** The list service: items of a list *)

Module ListServiceFacts.
Import ListService.

Section HandlerFacts.

Context {num val : Type}.
Variable num_zero : num.
Variable num_one : num.
Variable num_add : num → num → num.
Variable num_mul : num → num → num.
Variable num_truthy : num → bool.
Variable val_truthy : val → bool.
Variable toNumber : val → num.

Local Abbreviation Entry := (Entry (num := num)).
Local Abbreviation ListDoc := (ListDoc (num := num)).
Local Abbreviation handle := (handle num_zero num_one num_add num_mul num_truthy val_truthy toNumber).
Local Abbreviation addItem := (addItem num_zero num_one num_add num_mul num_truthy val_truthy toNumber).
Local Abbreviation deleteItem := (deleteItem num_zero num_add num_mul num_truthy).
Local Abbreviation summarise := (summarise num_zero num_add num_mul num_truthy).
Local Abbreviation recomputeSummary := (recomputeSummary num_zero num_add num_mul num_truthy).

Lemma list_findIndex_Some iid (its : list Entry) idx :
  findIndex iid its = Some idx → ∃ e, its !! idx = Some e ∧ itemId e = iid.
Proof.
  revert idx. induction its as [|a its IH]; intros idx; [done|]. cbn.
  destruct (String.eqb (itemId a) iid) eqn:Heq.
  - intros [= <-]. exists a. split; [done|]. by apply String.eqb_eq.
  - destruct (findIndex iid its) as [j|]; [|done]. cbn. intros [= <-].
    destruct (IH j eq_refl) as (e & He & Hi). by exists e.
Qed.

Lemma list_findIndex_None iid (its : list Entry) :
  findIndex iid its = None ↔ iid ∉ itemId <$> its.
Proof.
  induction its as [|a its IH]; cbn.
  - split; [intros _; apply not_elem_of_nil|done].
  - destruct (String.eqb (itemId a) iid) eqn:Heq.
    + apply String.eqb_eq in Heq. split; [done|].
      intros Hnot. exfalso. apply Hnot, elem_of_cons. by left.
    + apply String.eqb_neq in Heq. rewrite not_elem_of_cons, <- IH.
      destruct (findIndex iid its) as [j|]; cbn.
      * split; [done|]. by intros [_ ?].
      * split; [|done]. intros _. split; [congruence|done].
Qed.

Lemma ids_alter (f : Entry → Entry) idx (its : list Entry) :
  (∀ e, itemId (f e) = itemId e) → itemId <$> alter f idx its = itemId <$> its.
Proof.
  intros Hf. rewrite (list_fmap_alter itemId f (fun s => s)).
  - by apply list_alter_id.
  - by apply Forall_forall.
Qed.

Lemma filter_ids_NoDup (P : Entry → Prop) `{∀ e, Decision (P e)} (its : list Entry) :
  NoDup (itemId <$> its) → NoDup (itemId <$> filter P its).
Proof.
  intros Hnd. eapply sublist_NoDup; [exact Hnd|]. apply fmap_sublist, sublist_filter.
Qed.

(** X26. The items of a list never hold the same [itemId] twice: on a
    list whose item ids are distinct, every request that saves the list
    (adding, updating or deleting an item, reading the summary) saves a
    document whose item ids are distinct again, under the same list id
    and owner. *)
Theorem item_ids_stay_unique
    (uid : string) (l : ListDoc) (r : request) (t : Z) (status : Z) (doc : ListDoc) :
  NoDup (itemId <$> items l) →
  handle uid (Some l) r t = Saved status doc →
  NoDup (itemId <$> items doc) ∧ id doc = id l ∧ userId doc = userId l.
Proof.
  intros Hnd.
  destruct r as [iid qty reply t_added|iid qty bought price|iid|]; cbn [ListService.handle].
  - unfold ListService.addItem. destruct (canAccess _ _); [|done].
    destruct iid as [i|]; [|done]. destruct (String.eqb i ""); [done|].
    destruct (findIndex i (items l)) as [idx|] eqn:Hidx.
    + intros [= <- <-]. cbn. split; [|done]. by rewrite ids_alter.
    + destruct reply as [item|]; [|done]. intros [= <- <-]. cbn. split; [|done].
      rewrite fmap_app. apply NoDup_app. split; [done|]. split; [|apply NoDup_singleton].
      intros i' Hin Hi'%list_elem_of_singleton. cbn in Hi'. subst i'.
      by apply list_findIndex_None in Hidx.
  - unfold ListService.updateItem. destruct (canAccess _ _); [|done].
    destruct (findIndex iid (items l)) as [idx|]; [|done].
    intros [= <- <-]. cbn. split; [|done]. by rewrite ids_alter.
  - unfold ListService.deleteItem. destruct (canAccess _ _); [|done].
    destruct (_ =? _)%nat; [done|]. intros [= <- <-]. cbn. split; [|done].
    by apply filter_ids_NoDup.
  - unfold ListService.getSummary. destruct (canAccess _ _); [|done].
    intros [= <- <-]. done.
Qed.

(** X27. Adding an item merges or appends: on a list the user owns and
    for a non-empty [itemId], an id already in the list only changes the
    quantity of its entry (the ids and their order are kept, the item
    service's answer is not used, the answer is 200); a new id is
    appended as the last entry, not purchased, with status 201, when the
    item service answers, and the request is refused with 400, nothing
    being saved, when it does not. *)
Theorem adding_an_item_merges_or_appends
    (uid : string) (l : ListDoc) (iid : string) (qty : option val)
    (reply : Gateway.Axios (option CatalogItem)) (t_added t_updated : Z) :
  userId l = uid →
  iid ≠ "" →
  match addItem uid (Some l) (Some iid) qty reply t_added t_updated with
  | Saved status doc =>
      if decide (iid ∈ itemId <$> items l)
      then (status = 200 ∧ itemId <$> items doc = itemId <$> items l)
      else (status = 201
            ∧ reply ≠ Gateway.AxFailed
            ∧ ∃ e, items doc = items l ++ [e] ∧ itemId e = iid ∧ purchased e = false
                   ∧ addedAt e = t_added)
  | BadRequest => (iid ∉ itemId <$> items l) ∧ reply = Gateway.AxFailed
  | ListNotFound | ItemNotFound => False
  end.
Proof.
  intros Huid Hne. unfold ListService.addItem, canAccess.
  rewrite (proj2 (String.eqb_eq _ _) Huid), (proj2 (String.eqb_neq _ _) Hne).
  destruct (findIndex iid (items l)) as [idx|] eqn:Hidx.
  - destruct (list_findIndex_Some _ _ _ Hidx) as (e & He & Hi).
    rewrite decide_True.
    + split; [done|]. cbn. by rewrite ids_alter.
    + apply list_elem_of_fmap. exists e. split; [done|].
      apply list_elem_of_lookup. by exists idx.
  - apply list_findIndex_None in Hidx.
    destruct reply as [item|]; [|done].
    rewrite decide_False by done. split; [done|]. split; [done|].
    eexists. split; [reflexivity|]. done.
Qed.

Lemma summarise_bounds (its : list Entry) :
  totals (summarise its) = Z.of_nat (length its)
  ∧ 0 ≤ purchasedItems (summarise its) ≤ totals (summarise its).
Proof.
  cbn. split; [done|].
  pose proof (length_filter (fun i => purchased i = true) its). lia.
Qed.

(** X28. A saved list always carries the summary of its items: whatever
    request saves a document, its [summary] is the one computed from the
    items it is saved with, so [totals] is their number and
    [purchasedItems] lies between zero and [totals]; the time of the
    request becomes [updatedAt]. *)
Theorem saved_list_carries_its_summary
    (uid : string) (found : option ListDoc) (r : request) (t : Z)
    (status : Z) (doc : ListDoc) :
  handle uid found r t = Saved status doc →
  summary doc = summarise (items doc)
  ∧ totals (summary doc) = Z.of_nat (length (items doc))
  ∧ 0 ≤ purchasedItems (summary doc) ≤ totals (summary doc)
  ∧ updatedAt doc = t.
Proof.
  intros Hsaved.
  assert (Hdoc : ∃ d, doc = recomputeSummary t d).
  { destruct found as [l|]; destruct r as [iid qty reply t_added|iid qty bought price|iid|];
      cbn [ListService.handle] in Hsaved;
      unfold ListService.addItem, ListService.updateItem, ListService.deleteItem,
             ListService.getSummary in Hsaved; try done;
      destruct (canAccess _ _); try done.
    - destruct iid as [i|]; [|done]. destruct (String.eqb i ""); [done|].
      destruct (findIndex i (items l)) as [idx|].
      + injection Hsaved as _ <-. by eexists.
      + destruct reply as [item|]; [|done]. injection Hsaved as _ <-. by eexists.
    - destruct (findIndex iid (items l)) as [idx|]; [|done].
      injection Hsaved as _ <-. by eexists.
    - destruct (_ =? _)%nat; [done|]. injection Hsaved as _ <-. by eexists.
    - injection Hsaved as _ <-. by eexists. }
  destruct Hdoc as (d & ->). cbn [summary items updatedAt ListService.recomputeSummary].
  split; [done|]. destruct (summarise_bounds (items d)) as [H1 H2]. done.
Qed.

(** X29. Adding a new item and deleting it again gives back the items
    the list had: after an addition that appended the entry of a new id,
    deleting that id saves the list with exactly the former items, in
    their order; deleting an id the list does not hold is answered with
    "item not found" and saves nothing. *)
Theorem add_then_delete_restores_items
    (uid : string) (l : ListDoc) (iid : string) (qty : option val)
    (item : option CatalogItem) (t_added t1 t2 : Z) :
  userId l = uid →
  iid ≠ "" →
  iid ∉ itemId <$> items l →
  deleteItem uid (Some l) iid t2 = ItemNotFound
  ∧ ∃ doc, addItem uid (Some l) (Some iid) qty (Gateway.AxData item) t_added t1
           = Saved 201 doc
           ∧ ∃ doc', deleteItem uid (Some doc) iid t2 = Saved 204 doc'
                     ∧ items doc' = items l.
Proof.
  intros Huid Hne Hnew.
  assert (Hkeep : filter (fun e : Entry => itemId e ≠ iid) (items l) = items l).
  { apply RegistryMore.filter_all. intros e He Hi. apply Hnew.
    apply list_elem_of_fmap. by exists e. }
  split.
  - unfold ListService.deleteItem, canAccess.
    rewrite (proj2 (String.eqb_eq _ _) Huid), Hkeep. by rewrite Nat.eqb_refl.
  - unfold ListService.addItem, canAccess.
    rewrite (proj2 (String.eqb_eq _ _) Huid), (proj2 (String.eqb_neq _ _) Hne).
    rewrite (proj2 (list_findIndex_None _ _) Hnew).
    eexists. split; [reflexivity|].
    unfold ListService.deleteItem, canAccess. cbn [userId items ListService.recomputeSummary ListService.withItems].
    rewrite (proj2 (String.eqb_eq _ _) Huid).
    rewrite filter_app, Hkeep.
    rewrite (filter_cons_False _ _ []) by (cbn; intros H; by apply H).
    rewrite filter_nil, app_nil_r, length_app. cbn [length].
    rewrite (proj2 (Nat.eqb_neq _ _)) by lia.
    eexists. split; [reflexivity|]. done.
Qed.

End HandlerFacts.

Lemma item_ids_stay_unique_witness :
  let l := {| id := "l1"; userId := "u1"; name := "feira"; description := "";
              status := "active";
              items := [ {| itemId := "i1"; itemName := "Arroz"; quantity := 2;
                            unit := "kg"; estimatedPrice := 7; purchased := false;
                            addedAt := 10 |} ];
              summary := {| totals := 1; purchasedItems := 0; estimatedTotal := 14 |};
              createdAt := 1; updatedAt := 10 |} in
  match handle 0 1 Z.add Z.mul (fun x => negb (x =? 0)) (fun x => negb (x =? 0))
               (fun x => x) "u1" (Some l)
               (Add (Some "i1") (Some 3) Gateway.AxFailed 20) 30 with
  | Saved status doc =>
      status = 200 ∧ NoDup (itemId <$> items doc) ∧ quantity <$> items doc = [5]
  | _ => False
  end.
Proof.
  cbv zeta.
  destruct (handle _ _ _ _ _ _ _ _ _ _ _) as [| | |status doc] eqn:Hh;
    try (vm_compute in Hh; discriminate).
  split; [by vm_compute in Hh; injection Hh as <- _|]. split.
  - refine (proj1 (item_ids_stay_unique 0 1 Z.add Z.mul (fun x => negb (x =? 0))
                     (fun x => negb (x =? 0)) (fun x => x) "u1" _ _ 30 status doc _ Hh)).
    cbn. apply NoDup_singleton.
  - vm_compute in Hh. by injection Hh as _ <-.
Defined.

Lemma adding_an_item_witness :
  let l := {| id := "l1"; userId := "u1"; name := "feira"; description := "";
              status := "active"; items := [];
              summary := {| totals := 0; purchasedItems := 0; estimatedTotal := 0 |};
              createdAt := 1; updatedAt := 1 |} in
  match addItem 0 1 Z.add Z.mul (fun x => negb (x =? 0)) (fun x => negb (x =? 0))
                (fun x => x) "u1" (Some l) (Some "i1") (Some 2)
                (Gateway.AxData None) 20 30 with
  | Saved status doc => status = 201 ∧ itemId <$> items doc = ["i1"]
  | _ => False
  end.
Proof.
  cbv zeta.
  pose proof (adding_an_item_merges_or_appends 0 1 Z.add Z.mul
                (fun x => negb (x =? 0)) (fun x => negb (x =? 0)) (fun x => x) "u1"
                {| id := "l1"; userId := "u1"; name := "feira"; description := "";
                   status := "active"; items := [];
                   summary := {| totals := 0; purchasedItems := 0; estimatedTotal := 0 |};
                   createdAt := 1; updatedAt := 1 |}
                "i1" (Some 2) (Gateway.AxData None) 20 30 eq_refl ltac:(discriminate)) as H.
  destruct (addItem _ _ _ _ _ _ _ _ _ _ _ _ _ _) as [| | |status doc] eqn:Hadd;
    [done|done|by destruct H|].
  destruct (decide _) as [Hin|Hnot].
  - cbn in Hin. by apply not_elem_of_nil in Hin.
  - destruct H as (-> & _ & e & He & Hi & _). split; [done|].
    rewrite He. cbn. by rewrite Hi.
Defined.

Lemma saved_list_carries_its_summary_witness :
  let l := {| id := "l1"; userId := "u1"; name := "feira"; description := "";
              status := "active";
              items := [ {| itemId := "i1"; itemName := "Arroz"; quantity := 2;
                            unit := "kg"; estimatedPrice := 7; purchased := false;
                            addedAt := 10 |} ];
              summary := {| totals := 9; purchasedItems := 9; estimatedTotal := 0 |};
              createdAt := 1; updatedAt := 10 |} in
  match handle 0 1 Z.add Z.mul (fun x => negb (x =? 0)) (fun x => negb (x =? 0))
               (fun x => x) "u1" (Some l) (Update "i1" None (Some 1) None) 30 with
  | Saved status doc => totals (summary doc) = 1 ∧ updatedAt doc = 30
  | _ => False
  end.
Proof.
  cbv zeta.
  destruct (handle _ _ _ _ _ _ _ _ _ _ _) as [| | |status doc] eqn:Hh;
    try (vm_compute in Hh; discriminate).
  destruct (saved_list_carries_its_summary 0 1 Z.add Z.mul (fun x => negb (x =? 0))
              (fun x => negb (x =? 0)) (fun x => x) "u1" _ _ 30 status doc Hh)
    as (_ & Htot & _ & Hupd).
  split; [|done]. rewrite Htot.
  vm_compute in Hh. by injection Hh as _ <-.
Defined.

Lemma add_then_delete_witness :
  let l := {| id := "l1"; userId := "u1"; name := "feira"; description := "";
              status := "active"; items := [];
              summary := {| totals := 0; purchasedItems := 0; estimatedTotal := 0 |};
              createdAt := 1; updatedAt := 1 |} in
  deleteItem 0 Z.add Z.mul (fun x => negb (x =? 0)) "u1" (Some l) "i1" 40 = ItemNotFound.
Proof.
  cbv zeta.
  refine (proj1 (add_then_delete_restores_items 0 1 Z.add Z.mul
                   (fun x => negb (x =? 0)) (fun x => negb (x =? 0)) (fun x => x) "u1"
                   {| id := "l1"; userId := "u1"; name := "feira"; description := "";
                      status := "active"; items := [];
                      summary := {| totals := 0; purchasedItems := 0;
                                    estimatedTotal := 0 |};
                      createdAt := 1; updatedAt := 1 |}
                   "i1" None None 20 30 40 eq_refl _ _)).
  - discriminate.
  - cbn. apply not_elem_of_nil.
Defined.

End ListServiceFacts.

(** ** The item service: search *)

Module ItemServiceFacts.
Import ItemService.

(** The search, given the query as the handler normalises it. *)
Lemma search_normal q all :
  search q all
  = if String.eqb (toLowerCase (trim q)) "" then []
    else filter (fun i =>
                   includes (toLowerCase (trim q)) (toLowerCase (default "" (name i)))
                   || includes (toLowerCase (trim q)) (toLowerCase (default "" (brand i)))
                   || includes (toLowerCase (trim q))
                               (toLowerCase (default "" (description i)))
                   || includes (toLowerCase (trim q))
                               (toLowerCase (default "" (barcode i))) = true) all.
Proof.
  unfold search, matches.
  destruct (String.eqb (trim q) "") eqn:Hq.
  - apply String.eqb_eq in Hq. rewrite Hq. reflexivity.
  - apply String.eqb_neq in Hq.
    assert (Hlow : toLowerCase (trim q) ≠ "")
      by (intros H; apply Hq; by apply toLowerCase_empty).
    rewrite (proj2 (String.eqb_neq _ _) Hlow). reflexivity.
Qed.

(** X30. The item search reads its query up to letter case and
    surrounding white space, over all of Unicode: two queries with the same trimmed
    lower-case form give the same result, so the query in lower case, or
    trimmed, finds what the query itself finds; the result keeps the
    order of the catalog, and a blank query finds nothing. *)
Theorem item_search_ignores_case_and_outer_space (q q' : string) (all : list Item) :
  toLowerCase (trim q) = toLowerCase (trim q') →
  search q all = search q' all
  ∧ search (toLowerCase q) all = search q all
  ∧ search (trim q) all = search q all
  ∧ search q all `sublist_of` all
  ∧ (trim q = "" → search q all = []).
Proof.
  intros Hsame. split; [|split; [|split; [|split]]].
  - by rewrite !search_normal, Hsame.
  - rewrite !search_normal. by rewrite trim_toLowerCase, toLowerCase_idemp.
  - rewrite !search_normal. by rewrite trim_idemp.
  - unfold search. destruct (String.eqb _ _); [apply sublist_nil_l|apply sublist_filter].
  - intros Hblank. unfold search. by rewrite Hblank.
Qed.

Lemma item_search_witness :
  let sugar := {| id := "1"; name := Some "Açúcar"; brand := Some "União";
                  description := Some "Açúcar refinado"; barcode := Some "" |} in
  let soap := {| id := "2"; name := Some "Sabonete"; brand := Some "Dove";
                 description := None; barcode := None |} in
  search "  AÇÚCAR " [soap; sugar] = search "açúcar" [soap; sugar]
  ∧ search "açúcar" [soap; sugar] = [sugar].
Proof.
  cbv zeta. split; [|vm_compute; reflexivity].
  apply (item_search_ignores_case_and_outer_space "  AÇÚCAR " "açúcar").
  vm_compute. reflexivity.
Defined.

End ItemServiceFacts.
